(** * VortexMedia: the downloader queue, the history list and the AI wrappers

    A shallow embedding of [src/components/Downloader.tsx], of the two
    service functions [analyzeLink] and [generateVideo] and of the error
    handler of the generator view, followed by the properties the
    specification states about them.

    JavaScript strings are sequences of UTF-16 code units; React state is
    threaded explicitly; timers, promises and the browser's sources of
    randomness are inputs of a step function. *)

From Stdlib Require Import ZArith QArith Qround Lqa String Ascii List Lia DecimalString.
From stdpp Require Import base option list gmap strings.

(** ** JavaScript strings *)

Module JS.

(** A string is its sequence of UTF-16 code units. *)
Definition jsstring : Type := list N.

(** Literals are written in this file as UTF-8 text; [utf16] turns the
    bytes of such a literal into the code units the browser holds. *)
Definition cont (b : N) : N := N.land b 63.

Fixpoint utf16 (bs : list N) : jsstring :=
  match bs with
  | [] => []
  | b0 :: r0 =>
    if (b0 <? 128)%N then b0 :: utf16 r0 else
    match r0 with
    | [] => [65533%N]
    | b1 :: r1 =>
      if (b0 <? 224)%N then (N.land b0 31 * 64 + cont b1)%N :: utf16 r1 else
      match r1 with
      | [] => [65533%N]
      | b2 :: r2 =>
        if (b0 <? 240)%N
        then (N.land b0 15 * 4096 + cont b1 * 64 + cont b2)%N :: utf16 r2
        else
        match r2 with
        | [] => [65533%N]
        | b3 :: r3 =>
          let cp := (N.land b0 7 * 262144 + cont b1 * 4096
                     + cont b2 * 64 + cont b3)%N in
          let v := (cp - 65536)%N in
          (55296 + v / 1024)%N :: (56320 + v mod 1024)%N :: utf16 r3
        end
      end
    end
  end.

Definition js (s : string) : jsstring :=
  utf16 (map N_of_ascii (list_ascii_of_string s)).

(** The class [\s] of a regular expression, which is also what
    [String.prototype.trim] strips: WhiteSpace and LineTerminator. *)
Definition isWhitespace (c : N) : bool :=
  ((9 <=? c) && (c <=? 13) || (c =? 32) || (c =? 160) || (c =? 5760)
   || (8192 <=? c) && (c <=? 8202) || (c =? 8232) || (c =? 8233)
   || (c =? 8239) || (c =? 8287) || (c =? 12288) || (c =? 65279))%N.

Fixpoint trimStart (s : jsstring) : jsstring :=
  match s with
  | [] => []
  | c :: t => if isWhitespace c then trimStart t else s
  end.

Definition trim (s : jsstring) : jsstring :=
  rev (trimStart (rev (trimStart s))).

(** [s.startsWith(p)], returning what follows the prefix. *)
Fixpoint stripPrefix (p s : jsstring) : option jsstring :=
  match p, s with
  | [], _ => Some s
  | _ :: _, [] => None
  | a :: p', b :: s' => if (a =? b)%N then stripPrefix p' s' else None
  end.

Definition startsWith (p s : jsstring) : bool :=
  match stripPrefix p s with Some _ => true | None => false end.

(** [s.includes(p)]. *)
Fixpoint includes (p s : jsstring) : bool :=
  startsWith p s ||
  match s with
  | [] => false
  | _ :: t => includes p t
  end.

(** Decimal rendering of an integer, as a template literal prints it. *)
Definition decimal (z : Z) : jsstring :=
  js (NilZero.string_of_int (Z.to_int z)).

(** [Math.round]: the nearest integer, ties towards plus infinity. *)
Definition Math_round (x : Q) : Z := Qfloor (x + (1 # 2)).

(** [Math.floor]. *)
Definition Math_floor (x : Q) : Z := Qfloor x.

(** [x.toFixed(1)] for a non-negative [x]: the closest number with one
    decimal, the larger one on a tie. *)
Definition toFixed1 (x : Q) : jsstring :=
  let n := Qfloor (x * 10 + (1 # 2)) in
  decimal (n / 10) ++ js "." ++ decimal (n mod 10).

End JS.

Import JS.

(** What awaiting a promise gives: the value it resolves to, or the value
    its rejection throws. *)
Inductive Outcome (E A : Type) : Type :=
| Returned (a : A)
| Thrown (e : E).
Arguments Returned {E A} a.
Arguments Thrown {E A} e.

(** A thrown JavaScript value, as far as the handlers of this program look
    at it: a falsy value (undefined, null), or an object with an optional
    string [message], an optional numeric [status] and an optional
    [response.status]. *)
Module Err.
Record ErrorObject : Type := {
  message : option jsstring;
  status : option Z;
  response_status : option Z
}.
End Err.

Inductive JsError : Type :=
| Falsy
| ErrObj (e : Err.ErrorObject).

Definition newError (msg : jsstring) : JsError :=
  ErrObj {| Err.message := Some msg; Err.status := None;
            Err.response_status := None |}.

(** ** The shared types *)

Module Types.

Inductive ContentType : Type := CT_video | CT_audio | CT_image | CT_unknown.

Record AnalysisResult : Type := {
  platform : jsstring;
  isValid : bool;
  summary : jsstring;
  contentType : ContentType;
  thumbnailUrl : option jsstring;
  isPlaylist : option bool
}.

Record HistoryItem : Type := {
  h_id : jsstring;
  h_url : jsstring;
  h_platform : jsstring;
  h_timestamp : Z;
  h_summary : jsstring
}.

End Types.

Import Types.

(** ** The generative-AI client wrapper *)

Module Gemini.

(** [response.text] of a [generateContent] call. *)
Record Response : Type := { text : option jsstring }.

(** A video operation: [done] and the result of the optional chain
    [response?.generatedVideos?.[0]?.video?.uri]. *)
Record Operation : Type := { done : bool; uri : option jsstring }.

Definition quote : jsstring := [34%N].
Definition nl : jsstring := [10%N].

Definition prompt (url : jsstring) : jsstring :=
  nl ++ js "      Analiza la siguiente URL: " ++ quote ++ url ++ quote ++ js "." ++ nl
  ++ js "      1. Identifica la plataforma (YouTube, Instagram, TikTok, Spotify, etc.)." ++ nl
  ++ js "      2. Determina si es un enlace a un contenido individual O a una PLAYLIST/Álbum/Lista." ++ nl
  ++ js "         (Pistas: 'list=', 'album/', 'playlist/', 'set/')." ++ nl
  ++ js "      3. Genera un resumen breve." ++ nl
  ++ js "      4. Si es YouTube, intenta construir la miniatura (hqdefault.jpg)." ++ nl
  ++ nl
  ++ js "      Responde SOLO con JSON." ++ nl
  ++ js "    ".

Definition fallback : AnalysisResult := {|
  platform := js "Desconocida";
  isValid := false;
  summary := js "No pudimos identificar este enlace.";
  contentType := CT_unknown;
  thumbnailUrl := None;
  isPlaylist := Some false
|}.

Section Client.

(** [JSON.parse(text) as AnalysisResult]: [None] when the text is not
    JSON and the parser throws a SyntaxError. *)
Variable JSON_parse : jsstring -> option AnalysisResult.

(** The SDK: building the client and awaiting [generateContent] on a
    prompt either gives a response or throws. *)
Variable generateContent : jsstring -> Outcome JsError Response.

Definition syntaxError : JsError := newError (js "Unexpected token").

(** The body of the [try] block of [analyzeLink]. *)
Definition analyzeLink_try (url : jsstring) : Outcome JsError AnalysisResult :=
  match generateContent (prompt url) with
  | Thrown e => Thrown e
  | Returned response =>
    match text response with
    | Some (c :: t) =>
      match JSON_parse (c :: t) with
      | Some r => Returned r
      | None => Thrown syntaxError
      end
    | _ => Thrown (newError (js "No response text"))
    end
  end.

Definition analyzeLink (url : jsstring) : Outcome JsError AnalysisResult :=
  match analyzeLink_try url with
  | Returned r => Returned r
  | Thrown _ => Returned fallback
  end.

(** [process.env.API_KEY], as the template literal prints it. *)
Variable API_KEY : jsstring.

(** The polling loop of [generateVideo] over the answers the service
    gives to [getVideosOperation], one per round; [None] when the
    answers run out with the operation still not done. *)
Fixpoint poll (operation : Operation)
    (answers : list (Outcome JsError Operation))
    : option (Outcome JsError Operation) :=
  if done operation then Some (Returned operation) else
  match answers with
  | [] => None
  | Thrown e :: _ => Some (Thrown e)
  | Returned operation' :: rest => poll operation' rest
  end.

Definition generateVideo_try (first : Outcome JsError Operation)
    (answers : list (Outcome JsError Operation))
    : option (Outcome JsError (option jsstring)) :=
  match first with
  | Thrown e => Some (Thrown e)
  | Returned operation =>
    match poll operation answers with
    | None => None
    | Some (Thrown e) => Some (Thrown e)
    | Some (Returned op) =>
      match uri op with
      | Some (c :: t) => Some (Returned (Some ((c :: t) ++ js "&key=" ++ API_KEY)))
      | _ => Some (Returned None)
      end
    end
  end.

(** The [catch] of [generateVideo] logs the error and throws it again. *)
Definition generateVideo (first : Outcome JsError Operation)
    (answers : list (Outcome JsError Operation))
    : option (Outcome JsError (option jsstring)) :=
  match generateVideo_try first answers with
  | Some (Thrown error) => Some (Thrown error)
  | r => r
  end.

End Client.

End Gemini.

(** ** The generator view *)

Module Generator.

Record State : Type := {
  prompt : jsstring;
  isGenerating : bool;
  videoUri : option jsstring;
  error : option jsstring;
  hasKey : bool;
  resolution : jsstring;
  aspectRatio : jsstring
}.

Definition msg_generic : jsstring :=
  js "Hubo un error generando el video. Intenta de nuevo.".
Definition msg_not_found : jsstring :=
  js "La llave API seleccionada no es válida o el proyecto no tiene acceso al modelo Veo. Por favor selecciona una nueva.".
Definition msg_invalid_argument : jsstring :=
  js "La descripción proporcionada no es válida. Por favor, sé más específico o evita contenido que viole las políticas de seguridad.".
Definition msg_permission_denied : jsstring :=
  js "Permiso denegado. Verifica que tu API Key tenga habilitada la facturación en Google Cloud Console.".
Definition msg_quota : jsstring :=
  js "Has excedido el límite de cuota de la API. Por favor intenta más tarde.".
Definition msg_unavailable : jsstring :=
  js "El servicio de video está temporalmente saturado. Inténtalo de nuevo en unos minutos.".
Definition msg_safety : jsstring :=
  js "La solicitud fue bloqueada por los filtros de seguridad. Intenta modificar tu descripción.".

(** [err.message || ''] *)
Definition err_msg (e : Err.ErrorObject) : jsstring :=
  match Err.message e with Some m => m | None => [] end.

(** [err.status || err.response?.status]: zero is falsy. *)
Definition err_status (e : Err.ErrorObject) : option Z :=
  match Err.status e with
  | Some 0%Z | None => Err.response_status e
  | Some n => Some n
  end.

(** [status === n] *)
Definition status_is (st : option Z) (n : Z) : bool :=
  match st with Some k => (k =? n)%Z | None => false end.

(** The [catch] block of [handleGenerate]: the message shown, and whether
    [setHasKey(false)] runs. *)
Definition errorMessage (err : JsError) : jsstring * bool :=
  match err with
  | Falsy => (msg_generic, false)
  | ErrObj e =>
    let msg := err_msg e in
    let status := err_status e in
    if includes (js "Requested entity was not found") msg || status_is status 404
    then (msg_not_found, true)
    else if status_is status 400 || includes (js "INVALID_ARGUMENT") msg
    then (msg_invalid_argument, false)
    else if status_is status 403 || includes (js "PERMISSION_DENIED") msg
    then (msg_permission_denied, false)
    else if status_is status 429 || includes (js "RESOURCE_EXHAUSTED") msg
    then (msg_quota, false)
    else if status_is status 503 || includes (js "UNAVAILABLE") msg
    then (msg_unavailable, false)
    else if includes (js "SAFETY") msg
    then (msg_safety, false)
    else (msg_generic, false)
  end.

(** [sendNotification] reads the global [Notification] without the guard
    of [requestNotificationPermission]: where the browser has none, the
    read throws a ReferenceError. *)
Definition sendNotification (hasNotification : bool) : Outcome JsError unit :=
  if hasNotification then Returned tt
  else Thrown (newError (js "Notification is not defined")).

(** [handleGenerate], given what awaiting [generateVideo] gives ([None]:
    the call is still polling). *)
Definition handleGenerate (hasNotification : bool)
    (generated : option (Outcome JsError (option jsstring)))
    (s : State) : State :=
  match trim (prompt s) with
  | [] => s
  | _ :: _ =>
    let s1 := {| prompt := prompt s; isGenerating := true; videoUri := None;
                 error := None; hasKey := hasKey s;
                 resolution := resolution s; aspectRatio := aspectRatio s |} in
    let catch (err : JsError) (uri : option jsstring) : State :=
      let '(errorMessage, resetKey) := errorMessage err in
      {| prompt := prompt s; isGenerating := false; videoUri := uri;
         error := Some errorMessage;
         hasKey := if resetKey then false else hasKey s;
         resolution := resolution s; aspectRatio := aspectRatio s |} in
    match generated with
    | None => s1
    | Some (Thrown err) => catch err None
    | Some (Returned uri) =>
      match sendNotification hasNotification with
      | Thrown err => catch err uri
      | Returned _ =>
        {| prompt := prompt s; isGenerating := false; videoUri := uri;
           error := None; hasKey := hasKey s;
           resolution := resolution s; aspectRatio := aspectRatio s |}
      end
    end
  end.

End Generator.

(** ** The downloader view *)

Module Downloader.

Inductive Status : Type :=
| idle | analyzing | ready | downloading | completed | error.

Inductive MediaType : Type := video | audio.

#[global] Instance Status_eq_dec : EqDecision Status.
Proof. solve_decision. Defined.

#[global] Instance MediaType_eq_dec : EqDecision MediaType.
Proof. solve_decision. Defined.

Record BatchItem : Type := {
  id : jsstring;
  url : jsstring;
  status : Status;
  progress : Z;
  speed : jsstring;
  phase : jsstring;
  timeLeft : jsstring;
  result : option AnalysisResult;
  errorMsg : option jsstring;
  suggestion : option jsstring;
  helpLink : option jsstring;
  type : MediaType
}.

(** [Partial<BatchItem>], with the fields the program ever passes. *)
Record Updates : Type := {
  u_status : option Status;
  u_progress : option Z;
  u_speed : option jsstring;
  u_phase : option jsstring;
  u_timeLeft : option jsstring;
  u_result : option (option AnalysisResult);
  u_errorMsg : option jsstring
}.

Definition or_keep {A : Type} (new : option A) (old : A) : A :=
  match new with Some a => a | None => old end.

(** [{ ...item, ...updates }] *)
Definition assign (item : BatchItem) (updates : Updates) : BatchItem := {|
  id := id item;
  url := url item;
  status := or_keep (u_status updates) (status item);
  progress := or_keep (u_progress updates) (progress item);
  speed := or_keep (u_speed updates) (speed item);
  phase := or_keep (u_phase updates) (phase item);
  timeLeft := or_keep (u_timeLeft updates) (timeLeft item);
  result := or_keep (u_result updates) (result item);
  errorMsg :=
    match u_errorMsg updates with Some m => Some m | None => errorMsg item end;
  suggestion := suggestion item;
  helpLink := helpLink item;
  type := type item
|}.

Definition with_type (t : MediaType) (i : BatchItem) : BatchItem := {|
  id := id i; url := url i; status := status i; progress := progress i;
  speed := speed i; phase := phase i; timeLeft := timeLeft i;
  result := result i; errorMsg := errorMsg i; suggestion := suggestion i;
  helpLink := helpLink i; type := t
|}.

(** The closure of one [setInterval] callback of [startDownload]: the
    item it updates, [isAudio] and the local variable [progress]. *)
Record Timer : Type := {
  t_itemId : jsstring;
  t_isAudio : bool;
  t_progress : Q
}.

(** The state of the component, followed by what the browser holds for
    it: the stored history, the timers and promises still pending, and
    the number of UUIDs drawn so far. *)
Record State : Type := {
  inputText : jsstring;
  queue : list BatchItem;
  history : list HistoryItem;
  downloadType : MediaType;
  intervalsRef : gmap jsstring positive;
  localStorage : option (list HistoryItem);
  intervals : gmap positive Timer;
  nextHandle : positive;
  timeouts : list (jsstring * list BatchItem);
  analyses : list BatchItem;
  permissions : list (jsstring * BatchItem);
  uuids : nat
}.

Definition set_inputText (v : jsstring) (s : State) : State :=
  {| inputText := v; queue := queue s; history := history s;
     downloadType := downloadType s; intervalsRef := intervalsRef s;
     localStorage := localStorage s; intervals := intervals s;
     nextHandle := nextHandle s; timeouts := timeouts s;
     analyses := analyses s; permissions := permissions s;
     uuids := uuids s |}.

(** [setQueue(prev => f prev)] *)
Definition setQueue (f : list BatchItem -> list BatchItem) (s : State) : State :=
  {| inputText := inputText s; queue := f (queue s); history := history s;
     downloadType := downloadType s; intervalsRef := intervalsRef s;
     localStorage := localStorage s; intervals := intervals s;
     nextHandle := nextHandle s; timeouts := timeouts s;
     analyses := analyses s; permissions := permissions s;
     uuids := uuids s |}.

(** [setHistory] together with the write to the stored key. *)
Definition set_history (h : list HistoryItem) (st : option (list HistoryItem))
    (s : State) : State :=
  {| inputText := inputText s; queue := queue s; history := h;
     downloadType := downloadType s; intervalsRef := intervalsRef s;
     localStorage := st; intervals := intervals s;
     nextHandle := nextHandle s; timeouts := timeouts s;
     analyses := analyses s; permissions := permissions s;
     uuids := uuids s |}.

Definition set_downloadType (t : MediaType) (s : State) : State :=
  {| inputText := inputText s; queue := queue s; history := history s;
     downloadType := t; intervalsRef := intervalsRef s;
     localStorage := localStorage s; intervals := intervals s;
     nextHandle := nextHandle s; timeouts := timeouts s;
     analyses := analyses s; permissions := permissions s;
     uuids := uuids s |}.

Definition set_intervalsRef (r : gmap jsstring positive) (s : State) : State :=
  {| inputText := inputText s; queue := queue s; history := history s;
     downloadType := downloadType s; intervalsRef := r;
     localStorage := localStorage s; intervals := intervals s;
     nextHandle := nextHandle s; timeouts := timeouts s;
     analyses := analyses s; permissions := permissions s;
     uuids := uuids s |}.

Definition set_intervals (m : gmap positive Timer) (s : State) : State :=
  {| inputText := inputText s; queue := queue s; history := history s;
     downloadType := downloadType s; intervalsRef := intervalsRef s;
     localStorage := localStorage s; intervals := m;
     nextHandle := nextHandle s; timeouts := timeouts s;
     analyses := analyses s; permissions := permissions s;
     uuids := uuids s |}.

Definition set_nextHandle (h : positive) (s : State) : State :=
  {| inputText := inputText s; queue := queue s; history := history s;
     downloadType := downloadType s; intervalsRef := intervalsRef s;
     localStorage := localStorage s; intervals := intervals s;
     nextHandle := h; timeouts := timeouts s;
     analyses := analyses s; permissions := permissions s;
     uuids := uuids s |}.

Definition set_timeouts (l : list (jsstring * list BatchItem)) (s : State) : State :=
  {| inputText := inputText s; queue := queue s; history := history s;
     downloadType := downloadType s; intervalsRef := intervalsRef s;
     localStorage := localStorage s; intervals := intervals s;
     nextHandle := nextHandle s; timeouts := l;
     analyses := analyses s; permissions := permissions s;
     uuids := uuids s |}.

Definition set_analyses (l : list BatchItem) (s : State) : State :=
  {| inputText := inputText s; queue := queue s; history := history s;
     downloadType := downloadType s; intervalsRef := intervalsRef s;
     localStorage := localStorage s; intervals := intervals s;
     nextHandle := nextHandle s; timeouts := timeouts s;
     analyses := l; permissions := permissions s;
     uuids := uuids s |}.

Definition set_permissions (l : list (jsstring * BatchItem)) (s : State) : State :=
  {| inputText := inputText s; queue := queue s; history := history s;
     downloadType := downloadType s; intervalsRef := intervalsRef s;
     localStorage := localStorage s; intervals := intervals s;
     nextHandle := nextHandle s; timeouts := timeouts s;
     analyses := analyses s; permissions := l;
     uuids := uuids s |}.

Definition set_uuids (n : nat) (s : State) : State :=
  {| inputText := inputText s; queue := queue s; history := history s;
     downloadType := downloadType s; intervalsRef := intervalsRef s;
     localStorage := localStorage s; intervals := intervals s;
     nextHandle := nextHandle s; timeouts := timeouts s;
     analyses := analyses s; permissions := permissions s;
     uuids := n |}.

(** The component as it mounts in a browser whose storage holds [st] and
    that has drawn [n] UUIDs. *)
Definition mount (st : option (list HistoryItem)) (n : nat) : State :=
  {| inputText := []; queue := [];
     history := match st with Some stored => stored | None => [] end;
     downloadType := video; intervalsRef := ∅;
     localStorage := st; intervals := ∅; nextHandle := 1%positive;
     timeouts := []; analyses := []; permissions := []; uuids := n |}.

Definition init : State := mount None 0.

(** *** History *)

(** The updater of [addToHistory]. *)
Definition addToHistory_updated (newItem : HistoryItem) (link : jsstring)
    (prev : list HistoryItem) : list HistoryItem :=
  let filtered := filter (fun item => h_url item <> link) prev in
  take 5 (newItem :: filtered).

(** [now1] and [now2] are the two readings of [Date.now()], [rand] is
    [Math.random()] as string concatenation prints it. *)
Definition addToHistory (now1 now2 : Z) (rand : jsstring)
    (resultData : AnalysisResult) (link : jsstring) (s : State) : State :=
  if negb (isValid resultData) then s else
  let newItem := {|
    h_id := decimal now1 ++ rand;
    h_url := link;
    h_platform := platform resultData;
    h_timestamp := now2;
    h_summary := summary resultData
  |} in
  let updated := addToHistory_updated newItem link (history s) in
  set_history updated (Some updated) s.

Definition clearHistory (s : State) : State := set_history [] None s.

(** *** Extraction of the links *)

(** The longest run of [[^\s]] at the head of [s]. *)
Fixpoint nonSpaces (s : jsstring) : jsstring :=
  match s with
  | [] => []
  | c :: t => if isWhitespace c then [] else c :: nonSpaces t
  end.

(** One attempt of the expression [https?://[^\s]+] at the head of [s]:
    the text it matches. *)
Definition match_here (s : jsstring) : option jsstring :=
  match stripPrefix (js "http") s with
  | None => None
  | Some r =>
    let '(scheme, r1) :=
      match r with
      | c :: t => if (c =? 115)%N then (js "https", t) else (js "http", r)
      | [] => (js "http", r)
      end in
    match stripPrefix (js "://") r1 with
    | None => None
    | Some r2 =>
      match nonSpaces r2 with
      | [] => None
      | run => Some (scheme ++ js "://" ++ run)
      end
    end
  end.

(** [text.match(urlRegex) || []] with the global flag: the matches from
    left to right, the search resuming after each match. [skip] counts
    the code units of the last match still to pass. *)
Fixpoint scan (skip : nat) (s : jsstring) : list jsstring :=
  match s with
  | [] => []
  | _ :: t =>
    match skip with
    | S k => scan k t
    | O =>
      match match_here s with
      | Some m => m :: scan (length m - 1) t
      | None => scan 0 t
      end
    end
  end.

Definition extractUrls (text : jsstring) : list jsstring := scan 0 text.

(** [Array.from(new Set(l))]: the first occurrence of each value, in
    insertion order. *)
Definition Set_add (acc : list jsstring) (x : jsstring) : list jsstring :=
  if bool_decide (x ∈ acc) then acc else acc ++ [x].

Definition Array_from_Set (l : list jsstring) : list jsstring :=
  fold_left Set_add l [].

(** *** The queue *)

Definition updateItem_map (id0 : jsstring) (updates : Updates)
    (prev : list BatchItem) : list BatchItem :=
  map (fun item => if bool_decide (id item = id0) then assign item updates else item)
      prev.

Definition updateItem (id0 : jsstring) (updates : Updates) (s : State) : State :=
  setQueue (updateItem_map id0 updates) s.

(** [queue.find(i => i.id === itemId)] and [findIndex]. *)
Definition find_item (itemId : jsstring) (q : list BatchItem)
    : option (nat * BatchItem) :=
  list_find (fun i => id i = itemId) q.

Definition clearInterval (h : option positive) (s : State) : State :=
  match h with
  | Some h => set_intervals (delete h (intervals s)) s
  | None => s
  end.

Definition Qltb (x y : Q) : bool := negb (Qle_bool y x).

Section Environment.

(** [crypto.randomUUID()]: the value of the n-th call. *)
Variable randomUUID : nat -> jsstring.

(** [JSON.parse], see [Gemini.analyzeLink]. *)
Variable JSON_parse : jsstring -> option AnalysisResult.

Definition newBatchItem (t : MediaType) (n : nat) (k : nat) (u : jsstring)
    : BatchItem := {|
  id := randomUUID (n + k);
  url := u;
  status := analyzing;
  progress := 0;
  speed := js "0 MB/s";
  phase := js "Iniciando...";
  timeLeft := js "--";
  result := None;
  errorMsg := None;
  suggestion := None;
  helpLink := None;
  type := t
|}.

(** The updater of [handleAnalyzeBatch]. *)
Definition addToQueue (newItems prev : list BatchItem) : list BatchItem :=
  let existingUrls := map url prev in
  let filteredNew := filter (fun i => url i ∉ existingUrls) newItems in
  filteredNew ++ prev.

(** [handleAnalyzeBatch] up to its first [await]: the queue grows and
    one call of [analyzeLink] per new item is left pending. *)
Definition handleAnalyzeBatch (s : State) : State :=
  match trim (inputText s) with
  | [] => s
  | _ :: _ =>
    let rawUrls := extractUrls (inputText s) in
    let uniqueUrls := Array_from_Set rawUrls in
    match uniqueUrls with
    | [] => s
    | _ :: _ =>
      let newItems := imap (newBatchItem (downloadType s) (uuids s)) uniqueUrls in
      set_uuids (uuids s + length uniqueUrls)
        (set_analyses (analyses s ++ newItems)
          (set_inputText []
            (setQueue (addToQueue newItems) s)))
    end
  end.

(** What the callback of [newItems.forEach] does once [analyzeLink]
    settles. *)
Definition analysisUpdates (settled : Outcome JsError AnalysisResult) : Updates :=
  match settled with
  | Returned data =>
    if isValid data
    then {| u_status := Some ready; u_progress := None; u_speed := None;
            u_phase := None; u_timeLeft := None; u_result := Some (Some data);
            u_errorMsg := None |}
    else {| u_status := Some error; u_progress := None; u_speed := None;
            u_phase := None; u_timeLeft := None; u_result := Some (Some data);
            u_errorMsg := Some (js "Plataforma no soportada") |}
  | Thrown _ =>
    {| u_status := Some error; u_progress := None; u_speed := None;
       u_phase := None; u_timeLeft := None; u_result := None;
       u_errorMsg := Some (js "Error de conexión") |}
  end.

(** The [k]-th pending analysis settles, the SDK having answered [api]. *)
Definition analysisDone (k : nat) (api : Outcome JsError Gemini.Response)
    (s : State) : State :=
  match analyses s !! k with
  | None => s
  | Some item =>
    let settled := Gemini.analyzeLink JSON_parse (fun _ => api) (url item) in
    updateItem (id item) (analysisUpdates settled)
      (set_analyses (delete k (analyses s)) s)
  end.

(** *** Playlists *)

Definition mediaContentType (t : MediaType) : ContentType :=
  match t with video => CT_video | audio => CT_audio end.

Definition playlistItem (item : BatchItem) (platform0 : jsstring)
    (t : MediaType) (n : nat) (i : nat) : BatchItem := {|
  id := randomUUID (n + (i - 1));
  url := url item ++ js "&index=" ++ decimal (Z.of_nat i);
  status := ready;
  progress := 0;
  speed := js "0 MB/s";
  phase := js "Listo";
  timeLeft := js "--";
  result := Some {|
    platform := platform0;
    isValid := true;
    summary := (match t with audio => js "Track" | video => js "Episodio" end)
               ++ js " #" ++ decimal (Z.of_nat i) ++ js " de la lista";
    contentType := mediaContentType t;
    thumbnailUrl := match result item with
                    | Some r => thumbnailUrl r
                    | None => None
                    end;
    isPlaylist := Some false
  |};
  errorMsg := None;
  suggestion := None;
  helpLink := None;
  type := t
|}.

(** [Math.floor(Math.random() * 5) + 3] *)
Definition mockCount (random : Q) : nat :=
  Z.to_nat (Math_floor (random * 5) + 3).

(** The updater of [expandPlaylist]: [splice(index, 1, ...newItems)]. *)
Definition splice_items (itemId : jsstring) (newItems prev : list BatchItem)
    : list BatchItem :=
  match find_item itemId prev with
  | None => prev
  | Some (index, _) => take index prev ++ newItems ++ drop (S index) prev
  end.

Definition expandPlaylist (itemId platform0 : jsstring) (random : Q)
    (s : State) : State :=
  match find_item itemId (queue s) with
  | None => s
  | Some (_, item) =>
    let newItems :=
      map (playlistItem item platform0 (downloadType s) (uuids s))
          (seq 1 (mockCount random)) in
    set_uuids (uuids s + mockCount random)
      (setQueue (splice_items itemId newItems) s)
  end.

(** *** Downloads *)

(** [startDownload] up to [await requestNotificationPermission()].
    [seen] is the [queue] of the render whose closure runs. *)
Definition startDownload (seen : list BatchItem) (itemId : jsstring)
    (s : State) : State :=
  match find_item itemId seen with
  | None => s
  | Some (_, item) =>
    if bool_decide (status item = ready)
    then set_permissions (permissions s ++ [(itemId, item)]) s
    else s
  end.

(** The rest of [startDownload], once the permission request settles. *)
Definition startDownload_resume (k : nat) (now1 now2 : Z) (rand : jsstring)
    (s : State) : State :=
  match permissions s !! k with
  | None => s
  | Some (itemId, item) =>
    let s0 := set_permissions (delete k (permissions s)) s in
    let s1 :=
      match result item with
      | Some r =>
        if negb (includes (js "&index=") (url item))
        then addToHistory now1 now2 rand r (url item) s0
        else s0
      | None => s0
      end in
    let s2 :=
      updateItem itemId
        {| u_status := Some downloading; u_progress := Some 0%Z;
           u_speed := None; u_phase := None; u_timeLeft := None;
           u_result := None; u_errorMsg := None |} s1 in
    let isAudio := bool_decide (type item = audio) in
    let s3 := clearInterval (intervalsRef s2 !! itemId) s2 in
    let interval := nextHandle s3 in
    let s4 :=
      set_nextHandle (Pos.succ interval)
        (set_intervals
           (<[interval := {| t_itemId := itemId; t_isAudio := isAudio;
                             t_progress := 0 |}]> (intervals s3)) s3) in
    set_intervalsRef (<[itemId := interval]> (intervalsRef s4)) s4
  end.

Definition phaseOf (isAudio : bool) (p : Q) : jsstring :=
  if Qltb p 20 then js "Conectando..."
  else if Qltb p 50
  then (if isAudio then js "Extrayendo audio HQ..." else js "Descargando video...")
  else if Qltb p 80
  then (if isAudio then js "Convirtiendo a MP3..." else js "Procesando MP4...")
  else if Qltb p 99 then js "Etiquetando..."
  else js "¡Listo!".

(** One run of the callback of the interval [h]; [random1] and
    [random2] are its two readings of [Math.random()]. *)
Definition tick (h : positive) (random1 random2 : Q) (s : State) : State :=
  match intervals s !! h with
  | None => s
  | Some t =>
    let itemId := t_itemId t in
    let increment := (random1 * 5 + 1)%Q in
    let p := (t_progress t + increment)%Q in
    let phase0 := phaseOf (t_isAudio t) p in
    let speedVal := toFixed1 (random2 * 8 + 5)%Q in
    if Qle_bool 100 p then
      let s1 :=
        set_intervals
          (<[h := {| t_itemId := itemId; t_isAudio := t_isAudio t;
                     t_progress := 100 |}]> (intervals s)) s in
      let s2 := clearInterval (intervalsRef s1 !! itemId) s1 in
      let s3 := set_intervalsRef (delete itemId (intervalsRef s2)) s2 in
      updateItem itemId
        {| u_status := Some completed; u_progress := Some 100%Z;
           u_speed := None; u_phase := Some (js "Guardado");
           u_timeLeft := Some (js "0s"); u_result := None;
           u_errorMsg := None |} s3
    else
      let s1 :=
        set_intervals
          (<[h := {| t_itemId := itemId; t_isAudio := t_isAudio t;
                     t_progress := p |}]> (intervals s)) s in
      updateItem itemId
        {| u_status := None;
           u_progress := Some (Z.min 100 (Math_round p));
           u_speed := Some (speedVal ++ js " MB/s");
           u_phase := Some phase0; u_timeLeft := None; u_result := None;
           u_errorMsg := None |} s1
  end.

(** [handleDownloadAll]: one [setTimeout] per ready item, each holding
    the [startDownload] of this render. *)
Definition handleDownloadAll (s : State) : State :=
  let ready_ids :=
    map id (filter (fun item => status item = ready) (queue s)) in
  set_timeouts (timeouts s ++ map (fun i => (i, queue s)) ready_ids) s.

Definition timeoutFires (k : nat) (s : State) : State :=
  match timeouts s !! k with
  | None => s
  | Some (itemId, seen) =>
    startDownload seen itemId (set_timeouts (delete k (timeouts s)) s)
  end.

Definition removeItem (id0 : jsstring) (s : State) : State :=
  setQueue (filter (fun i => id i <> id0))
    (clearInterval (intervalsRef s !! id0) s).

(** The two buttons of the format switch. *)
Definition selectType (t : MediaType) (s : State) : State :=
  setQueue (map (fun i => if bool_decide (status i = ready) then with_type t i else i))
    (set_downloadType t s).

Definition handleInputChange (value : jsstring) (s : State) : State :=
  set_inputText value s.

(** [handlePaste], the clipboard holding [text]. *)
Definition handlePaste (text0 : jsstring) (s : State) : State :=
  match text0 with
  | [] => s
  | _ :: _ =>
    set_inputText
      (match inputText s with
       | [] => text0
       | prev => prev ++ [10%N] ++ text0
       end) s
  end.

(** *** The event loop *)

Inductive Event : Type :=
| InputChange (value : jsstring)
| Paste (clipboard : jsstring)
| SelectType (t : MediaType)
| AnalyzeBatch
| AnalysisDone (k : nat) (api : Outcome JsError Gemini.Response)
| ExpandPlaylist (itemId platform0 : jsstring) (random : Q)
| StartDownload (itemId : jsstring)
| PermissionSettled (k : nat) (now1 now2 : Z) (rand : jsstring)
| Tick (h : positive) (random1 random2 : Q)
| DownloadAll
| TimeoutFires (k : nat)
| RemoveItem (id0 : jsstring)
| ClearHistory
| Reload.

Definition step (s : State) (e : Event) : State :=
  match e with
  | InputChange value => handleInputChange value s
  | Paste clipboard => handlePaste clipboard s
  | SelectType t => selectType t s
  | AnalyzeBatch => handleAnalyzeBatch s
  | AnalysisDone k api => analysisDone k api s
  | ExpandPlaylist itemId platform0 random => expandPlaylist itemId platform0 random s
  | StartDownload itemId => startDownload (queue s) itemId s
  | PermissionSettled k now1 now2 rand => startDownload_resume k now1 now2 rand s
  | Tick h random1 random2 => tick h random1 random2 s
  | DownloadAll => handleDownloadAll s
  | TimeoutFires k => timeoutFires k s
  | RemoveItem id0 => removeItem id0 s
  | ClearHistory => clearHistory s
  | Reload => mount (localStorage s) (uuids s)
  end.

(** [Math.random()] lies in [0, 1). *)
Definition unit_interval (r : Q) : Prop := (0 <= r)%Q /\ (r < 1)%Q.

Definition valid_event (e : Event) : Prop :=
  match e with
  | ExpandPlaylist _ _ random => unit_interval random
  | Tick _ random1 random2 => unit_interval random1 /\ unit_interval random2
  | _ => True
  end.

Definition run (s : State) (es : list Event) : State := fold_left step es s.

Inductive reachable : State -> Prop :=
| reachable_init : reachable init
| reachable_step s e :
    reachable s -> valid_event e -> reachable (step s e).

End Environment.

End Downloader.

(** * Properties *)

Import Downloader.

(** ** Lists of history entries *)

Definition urls_of (h : list HistoryItem) : list jsstring := map h_url h.

(** The history invariant: at most five entries, no link twice. *)
Definition history_ok (h : list HistoryItem) : Prop :=
  length h <= 5 /\ NoDup (urls_of h).

Lemma addToHistory_updated_length newItem link prev :
  length (addToHistory_updated newItem link prev) <= 5.
Proof.
  unfold addToHistory_updated. rewrite length_take. lia.
Qed.

Lemma addToHistory_updated_head newItem link prev :
  addToHistory_updated newItem link prev
  = newItem :: take 4 (filter (fun item => h_url item <> link) prev).
Proof. reflexivity. Qed.

Lemma urls_sublist_NoDup (h1 h2 : list HistoryItem) :
  h1 `sublist_of` h2 -> NoDup (urls_of h2) -> NoDup (urls_of h1).
Proof.
  intros Hsub Hnd. eapply sublist_NoDup; [exact Hnd|].
  unfold urls_of. apply (fmap_sublist h_url), Hsub.
Qed.

Lemma addToHistory_updated_ok newItem link prev :
  h_url newItem = link ->
  NoDup (urls_of prev) ->
  history_ok (addToHistory_updated newItem link prev).
Proof.
  intros Hurl Hnd. split; [apply addToHistory_updated_length|].
  rewrite addToHistory_updated_head. unfold urls_of. simpl.
  constructor.
  - intros Hin. apply list_elem_of_fmap in Hin as (y & Hy & Hin).
    apply subseteq_take in Hin.
    apply list_elem_of_filter in Hin as [Hne _]. congruence.
  - eapply urls_sublist_NoDup; [|exact Hnd].
    etransitivity; [apply sublist_take | apply sublist_filter].
Qed.

(** ** The history invariant along every run *)

Definition stored_ok (st : option (list HistoryItem)) : Prop :=
  match st with Some l => history_ok l | None => True end.

Definition hist_inv (s : State) : Prop :=
  history_ok (history s) /\ stored_ok (localStorage s).

Lemma history_ok_nil : history_ok [].
Proof. split; simpl; [lia | constructor]. Qed.

Lemma addToHistory_hist_inv now1 now2 rand resultData link s :
  hist_inv s -> hist_inv (addToHistory now1 now2 rand resultData link s).
Proof.
  intros [[Hlen Hnd] Hst]. unfold addToHistory.
  destruct (isValid resultData); simpl; [|split; [split|]; assumption].
  assert (history_ok
    (addToHistory_updated
       {| h_id := decimal now1 ++ rand; h_url := link;
          h_platform := platform resultData; h_timestamp := now2;
          h_summary := summary resultData |} link (history s))) as Hok
    by (apply addToHistory_updated_ok; [reflexivity | exact Hnd]).
  split; [exact Hok | exact Hok].
Qed.

(** Operations that leave the history and the stored key alone. *)
Definition keeps_history (f : State -> State) : Prop :=
  forall s, history (f s) = history s /\ localStorage (f s) = localStorage s.

Lemma keeps_history_inv f s : keeps_history f -> hist_inv s -> hist_inv (f s).
Proof.
  intros Hf Hs. destruct (Hf s) as [Hh Hl]. unfold hist_inv.
  rewrite Hh, Hl. exact Hs.
Qed.


Ltac keeps_history_tac :=
  intros s; repeat (simpl; case_match); simpl; auto.

Lemma updateItem_keeps_history id0 u : keeps_history (updateItem id0 u).
Proof. keeps_history_tac. Qed.

Lemma clearInterval_keeps_history h : keeps_history (clearInterval h).
Proof. unfold clearInterval. keeps_history_tac. Qed.

Lemma startDownload_keeps_history seen itemId :
  keeps_history (startDownload seen itemId).
Proof. unfold startDownload. keeps_history_tac. Qed.

Section HistoryInvariant.

Variable randomUUID : nat -> jsstring.
Variable JSON_parse : jsstring -> option AnalysisResult.

Lemma handleAnalyzeBatch_keeps_history :
  keeps_history (handleAnalyzeBatch randomUUID).
Proof. unfold handleAnalyzeBatch. keeps_history_tac. Qed.

Lemma analysisDone_keeps_history k api :
  keeps_history (analysisDone JSON_parse k api).
Proof. unfold analysisDone. keeps_history_tac. Qed.

Lemma expandPlaylist_keeps_history itemId platform0 random :
  keeps_history (expandPlaylist randomUUID itemId platform0 random).
Proof. unfold expandPlaylist. keeps_history_tac. Qed.

Lemma tick_keeps_history h r1 r2 : keeps_history (tick h r1 r2).
Proof. unfold tick, clearInterval. keeps_history_tac. Qed.

Lemma timeoutFires_keeps_history k : keeps_history (timeoutFires k).
Proof.
  unfold timeoutFires. intros s.
  destruct (timeouts s !! k) as [[itemId seen]|]; [|split; reflexivity].
  destruct (startDownload_keeps_history seen itemId
              (set_timeouts (delete k (timeouts s)) s)) as [-> ->].
  split; reflexivity.
Qed.

Lemma removeItem_keeps_history id0 : keeps_history (removeItem id0).
Proof. unfold removeItem, clearInterval. keeps_history_tac. Qed.

Lemma startDownload_resume_hist_inv k now1 now2 rand s :
  hist_inv s -> hist_inv (startDownload_resume k now1 now2 rand s).
Proof.
  intros Hs. unfold startDownload_resume.
  destruct (permissions s !! k) as [[itemId item]|]; [|exact Hs].
  set (s0 := set_permissions _ s).
  assert (hist_inv s0) as H0 by exact Hs.
  set (s1 := match result item with Some _ => _ | None => _ end).
  assert (hist_inv s1) as H1.
  { subst s1. destruct (result item); [|exact H0].
    destruct (negb _); [|exact H0]. apply addToHistory_hist_inv, H0. }
  clearbody s1. clear H0 s0 Hs.
  unfold clearInterval. simpl.
  destruct (intervalsRef s1 !! itemId); simpl; exact H1.
Qed.

Lemma step_hist_inv s e :
  hist_inv s -> hist_inv (step randomUUID JSON_parse s e).
Proof.
  intros Hs. destruct e; simpl.
  - exact Hs.
  - unfold handlePaste. repeat case_match; exact Hs.
  - exact Hs.
  - apply keeps_history_inv; [apply handleAnalyzeBatch_keeps_history | exact Hs].
  - apply keeps_history_inv; [apply analysisDone_keeps_history | exact Hs].
  - apply keeps_history_inv; [apply expandPlaylist_keeps_history | exact Hs].
  - apply keeps_history_inv; [apply startDownload_keeps_history | exact Hs].
  - apply startDownload_resume_hist_inv, Hs.
  - apply keeps_history_inv; [apply tick_keeps_history | exact Hs].
  - exact Hs.
  - apply keeps_history_inv; [apply timeoutFires_keeps_history | exact Hs].
  - apply keeps_history_inv; [apply removeItem_keeps_history | exact Hs].
  - split; [apply history_ok_nil | exact I].
  - destruct Hs as [_ Hst]. unfold mount, hist_inv. simpl.
    destruct (localStorage s); simpl in *; auto using history_ok_nil.
Qed.

Lemma reachable_hist_inv s :
  reachable randomUUID JSON_parse s -> hist_inv s.
Proof.
  induction 1 as [|s e _ IH _].
  - split; [apply history_ok_nil | exact I].
  - apply step_hist_inv, IH.
Qed.

(** C1. In every state the downloader can reach the history holds at
    most five entries and no link twice; adding a link with a valid
    analysis result gives again such a list, whose head is the new entry:
    the entry that carried the same link before is gone, not doubled. *)
Theorem addToHistory_capped_unique now1 now2 rand resultData link s :
  reachable randomUUID JSON_parse s ->
  isValid resultData = true ->
  let newItem := {| h_id := decimal now1 ++ rand; h_url := link;
                    h_platform := platform resultData; h_timestamp := now2;
                    h_summary := summary resultData |} in
  let updated := history (addToHistory now1 now2 rand resultData link s) in
  length (history s) <= 5
  /\ length updated <= 5
  /\ NoDup (urls_of updated)
  /\ head updated = Some newItem
  /\ updated = newItem :: take 4 (filter (fun item => h_url item <> link) (history s))
  /\ localStorage (addToHistory now1 now2 rand resultData link s) = Some updated.
Proof.
  intros Hreach Hvalid newItem updated.
  pose proof (reachable_hist_inv s Hreach) as [[Hlen0 Hnd] _].
  assert (updated = addToHistory_updated newItem link (history s)) as Hupd.
  { subst updated. unfold addToHistory. rewrite Hvalid. reflexivity. }
  destruct (addToHistory_updated_ok newItem link (history s) eq_refl Hnd)
    as [Hlen Hnd'].
  rewrite Hupd. repeat split; auto.
  unfold addToHistory. rewrite Hvalid. reflexivity.
Qed.

End HistoryInvariant.

(** ** Extraction and deduplication of the links *)

Lemma Set_fold_NoDup l acc :
  NoDup acc -> NoDup (fold_left Set_add l acc).
Proof.
  revert acc. induction l as [|x l IH]; simpl; intros acc Hacc; [exact Hacc|].
  apply IH. unfold Set_add. case_bool_decide as Hx; [exact Hacc|].
  apply NoDup_app. split_and!; [exact Hacc| |apply NoDup_singleton].
  intros y Hy Hy'. apply list_elem_of_singleton in Hy'. congruence.
Qed.

Lemma Set_fold_elem l acc x :
  x ∈ fold_left Set_add l acc <-> x ∈ acc \/ x ∈ l.
Proof.
  revert acc. induction l as [|y l IH]; simpl; intros acc.
  - split; [auto|]. intros [H|H]; [exact H|]. inversion H.
  - rewrite IH. unfold Set_add. rewrite elem_of_cons.
    case_bool_decide as Hy.
    + split; [tauto|]. intros [H|[->|H]]; auto.
    + rewrite elem_of_app, list_elem_of_singleton. tauto.
Qed.

Lemma Array_from_Set_NoDup l : NoDup (Array_from_Set l).
Proof. apply Set_fold_NoDup. constructor. Qed.

Lemma Array_from_Set_elem l x : x ∈ Array_from_Set l <-> x ∈ l.
Proof.
  unfold Array_from_Set. rewrite Set_fold_elem. split; [|auto].
  intros [H|H]; [inversion H | exact H].
Qed.

(** A text that trims to nothing holds white space only, and then no
    link. *)
Lemma trimStart_nil s : trimStart s = [] -> Forall (fun c => isWhitespace c = true) s.
Proof.
  induction s as [|c s IH]; simpl; intros H; [constructor|].
  destruct (isWhitespace c) eqn:Hc; [|discriminate].
  constructor; auto.
Qed.

Lemma trimStart_suffix s : exists ws, s = ws ++ trimStart s.
Proof.
  induction s as [|c s [ws IH]]; simpl.
  - exists []. reflexivity.
  - destruct (isWhitespace c).
    + exists (c :: ws). simpl. congruence.
    + exists []. reflexivity.
Qed.

Lemma trimStart_head s c t : trimStart s = c :: t -> isWhitespace c = false.
Proof.
  induction s as [|d s IH]; simpl; [discriminate|].
  destruct (isWhitespace d) eqn:Hd; [exact IH|].
  intros [= -> _]. exact Hd.
Qed.

Lemma trim_nil s : trim s = [] -> Forall (fun c => isWhitespace c = true) s.
Proof.
  unfold trim. intros H.
  assert (trimStart (rev (trimStart s)) = []) as H1.
  { apply (f_equal (@rev N)) in H. rewrite rev_involutive in H. exact H. }
  apply trimStart_nil in H1.
  destruct (trimStart s) as [|c t] eqn:Hs; [apply trimStart_nil, Hs|].
  apply trimStart_head in Hs.
  rewrite Forall_forall in H1.
  specialize (H1 c). rewrite H1 in Hs; [discriminate|].
  apply list_elem_of_In, in_rev. rewrite rev_involutive. left. reflexivity.
Qed.

Lemma match_here_whitespace c t : isWhitespace c = true -> match_here (c :: t) = None.
Proof.
  intros Hc. unfold match_here.
  replace (js "http") with (104%N :: js "ttp") by reflexivity.
  cbn [stripPrefix].
  destruct (104 =? c)%N eqn:Hh; [|reflexivity].
  apply N.eqb_eq in Hh. subst c. discriminate.
Qed.

Lemma scan_whitespace s k :
  Forall (fun c => isWhitespace c = true) s -> scan k s = [].
Proof.
  intros H. revert k. induction H as [|c t Hc _ IH]; intros k; [reflexivity|].
  simpl. destruct k; [|apply IH].
  rewrite (match_here_whitespace c t Hc). apply IH.
Qed.

Lemma extractUrls_blank text : trim text = [] -> extractUrls text = [].
Proof. intros H. apply scan_whitespace, trim_nil, H. Qed.

(** The items [handleAnalyzeBatch] builds from the text, before the filter
    of its updater. *)
Definition batch_items (randomUUID : nat -> jsstring) (s : State) : list BatchItem :=
  match trim (inputText s) with
  | [] => []
  | _ :: _ => imap (newBatchItem randomUUID (downloadType s) (uuids s))
                   (Array_from_Set (extractUrls (inputText s)))
  end.

Section Batch.

Variable randomUUID : nat -> jsstring.

Lemma newBatchItem_urls t n l : map url (imap (newBatchItem randomUUID t n) l) = l.
Proof.
  apply list_eq. intros i.
  rewrite list_lookup_fmap, list_lookup_imap.
  destruct (l !! i); reflexivity.
Qed.

Lemma newBatchItem_ids t n l :
  map id (imap (newBatchItem randomUUID t n) l)
  = map (fun k => randomUUID (n + k)) (seq 0 (length l)).
Proof.
  apply list_eq. intros i.
  rewrite !list_lookup_fmap, list_lookup_imap.
  destruct (l !! i) as [u|] eqn:Hi; simpl.
  - rewrite (lookup_seq_lt 0 (length l) i); [reflexivity|].
    eapply lookup_lt_Some, Hi.
  - rewrite (lookup_seq_ge 0 (length l) i); [reflexivity|].
    apply lookup_ge_None, Hi.
Qed.

Lemma handleAnalyzeBatch_queue s :
  queue (handleAnalyzeBatch randomUUID s)
  = filter (fun i => url i ∉ map url (queue s)) (batch_items randomUUID s)
    ++ queue s.
Proof.
  unfold handleAnalyzeBatch, batch_items.
  destruct (trim (inputText s)); [reflexivity|].
  destruct (Array_from_Set (extractUrls (inputText s))); reflexivity.
Qed.

Lemma handleAnalyzeBatch_uuids s :
  uuids (handleAnalyzeBatch randomUUID s)
  = uuids s + length (batch_items randomUUID s).
Proof.
  unfold handleAnalyzeBatch, batch_items.
  destruct (trim (inputText s)); [simpl; lia|].
  destruct (Array_from_Set (extractUrls (inputText s))) eqn:Hl;
    simpl; rewrite ?length_imap; simpl; lia.
Qed.

Lemma batch_items_urls s :
  map url (batch_items randomUUID s) = Array_from_Set (extractUrls (inputText s)).
Proof.
  unfold batch_items. destruct (trim (inputText s)) eqn:Ht.
  - rewrite (extractUrls_blank _ Ht). reflexivity.
  - apply newBatchItem_urls.
Qed.

Lemma batch_items_created s i :
  i ∈ batch_items randomUUID s -> status i = analyzing /\ progress i = 0%Z.
Proof.
  unfold batch_items. destruct (trim (inputText s)); intros Hi; [inversion Hi|].
  apply elem_of_lookup_imap in Hi as (k & u & -> & _). split; reflexivity.
Qed.

Lemma batch_items_ids s :
  map id (batch_items randomUUID s)
  = map (fun k => randomUUID (uuids s + k))
        (seq 0 (length (batch_items randomUUID s))).
Proof.
  unfold batch_items. destruct (trim (inputText s)); [reflexivity|].
  rewrite newBatchItem_ids, length_imap. reflexivity.
Qed.

(** The scenario of the specification: the same link pasted twice into an
    empty queue gives one entry. *)
Example paste_twice_one_entry :
  map url (queue (handleAnalyzeBatch randomUUID
                    (handleInputChange (js "https://youtu.be/x https://youtu.be/x") init)))
  = [js "https://youtu.be/x"].
Proof. vm_compute. reflexivity. Qed.

End Batch.

(** ** The analysis call never throws *)

(** The analysis call has failed: the SDK threw, the response has no text
    (or an empty one), or the text is not JSON. *)
Definition api_failed (JSON_parse : jsstring -> option AnalysisResult)
    (o : Outcome JsError Gemini.Response) : Prop :=
  match o with
  | Thrown _ => True
  | Returned r =>
    match Gemini.text r with
    | None | Some [] => True
    | Some t => JSON_parse t = None
    end
  end.

Definition unsupported (data : AnalysisResult) : Updates :=
  {| u_status := Some error; u_progress := None; u_speed := None;
     u_phase := None; u_timeLeft := None; u_result := Some (Some data);
     u_errorMsg := Some (js "Plataforma no soportada") |}.

Section Analysis.

Variable randomUUID : nat -> jsstring.
Variable JSON_parse : jsstring -> option AnalysisResult.

Lemma analyzeLink_returns generateContent link :
  exists r, Gemini.analyzeLink JSON_parse generateContent link = Returned r.
Proof.
  unfold Gemini.analyzeLink.
  destruct (Gemini.analyzeLink_try JSON_parse generateContent link); eauto.
Qed.

Lemma analyzeLink_fallback generateContent link :
  api_failed JSON_parse (generateContent (Gemini.prompt link)) ->
  Gemini.analyzeLink JSON_parse generateContent link = Returned Gemini.fallback.
Proof.
  unfold api_failed, Gemini.analyzeLink, Gemini.analyzeLink_try.
  destruct (generateContent (Gemini.prompt link)) as [[[[|c t]|]]|e];
    simpl; intros Hfail; try reflexivity.
  rewrite Hfail. reflexivity.
Qed.

Lemma updateItem_map_elem id0 u q i :
  i ∈ updateItem_map id0 u q ->
  (i ∈ q /\ id i <> id0) \/ (exists i0, i0 ∈ q /\ id i0 = id0 /\ i = assign i0 u).
Proof.
  unfold updateItem_map. intros (i0 & -> & Hi0)%list_elem_of_fmap.
  case_bool_decide as Hid; [right; eauto | left; auto].
Qed.

(** C4. [analyzeLink] always returns; when the analysis call fails (the
    SDK throws, the response carries no text, or the text does not
    parse) it returns the fixed result with [isValid = false], platform
    Desconocida and content type unknown; and the downloader then marks
    the item as an error with the message Plataforma no soportada. *)
Theorem analyzeLink_errors_caught generateContent link :
  (exists r, Gemini.analyzeLink JSON_parse generateContent link = Returned r)
  /\ (api_failed JSON_parse (generateContent (Gemini.prompt link)) ->
      Gemini.analyzeLink JSON_parse generateContent link = Returned Gemini.fallback
      /\ isValid Gemini.fallback = false
      /\ platform Gemini.fallback = js "Desconocida"
      /\ contentType Gemini.fallback = CT_unknown)
  /\ (forall api s k item,
        analyses s !! k = Some item ->
        api_failed JSON_parse api ->
        let s' := analysisDone JSON_parse k api s in
        queue s' = updateItem_map (id item) (unsupported Gemini.fallback) (queue s)
        /\ forall i, i ∈ queue s' -> id i = id item ->
             status i = error
             /\ errorMsg i = Some (js "Plataforma no soportada")
             /\ result i = Some Gemini.fallback).
Proof.
  split_and!.
  - apply analyzeLink_returns.
  - intros Hfail. split_and!; try reflexivity. apply analyzeLink_fallback, Hfail.
  - intros api s k item Hk Hfail s'.
    assert (queue s' = updateItem_map (id item) (unsupported Gemini.fallback) (queue s))
      as Hq.
    { subst s'. unfold analysisDone. rewrite Hk.
      rewrite (analyzeLink_fallback (fun _ => api) (url item) Hfail). reflexivity. }
    split; [exact Hq|].
    intros i Hi Hid. rewrite Hq in Hi.
    apply updateItem_map_elem in Hi as [[_ Hne]|(i0 & _ & _ & ->)]; [congruence|].
    split_and!; reflexivity.
Qed.

End Analysis.

(** ** The messages of the generator *)

Module GeneratorProps.

Import Generator.






Definition with_status (n : Z) : JsError :=
  ErrObj {| Err.message := None; Err.status := Some n;
            Err.response_status := None |}.



Lemma generateVideo_rethrows API_KEY first answers e :
  Gemini.generateVideo_try API_KEY first answers = Some (Thrown e) ->
  Gemini.generateVideo API_KEY first answers = Some (Thrown e).
Proof. unfold Gemini.generateVideo. intros ->. reflexivity. Qed.


End GeneratorProps.

(** ** Rounding *)

Lemma Qfloor_lower (a : Z) (x : Q) : (inject_Z a <= x)%Q -> (a <= Qfloor x)%Z.
Proof.
  intros H. rewrite <- (Qfloor_Z a). apply Qfloor_resp_le, H.
Qed.

Lemma Qfloor_upper (b : Z) (x : Q) : (x < inject_Z b)%Q -> (Qfloor x < b)%Z.
Proof.
  intros H. rewrite Zlt_Qlt.
  eapply Qle_lt_trans; [apply Qfloor_le | exact H].
Qed.

Lemma mockCount_range random :
  unit_interval random -> 3 <= mockCount random <= 7.
Proof.
  intros [H0 H1]. unfold mockCount, Math_floor.
  assert (0 <= Qfloor (random * 5))%Z
    by (apply Qfloor_lower; change (inject_Z 0) with 0%Q; lra).
  assert (Qfloor (random * 5) < 5)%Z
    by (apply Qfloor_upper; change (inject_Z 5) with 5%Q; lra).
  lia.
Qed.

(** ** Playlists *)

Lemma find_item_Some itemId q index item :
  find_item itemId q = Some (index, item) ->
  q = take index q ++ item :: drop (S index) q
  /\ id item = itemId
  /\ (forall i, i ∈ take index q -> id i <> itemId).
Proof.
  unfold find_item. intros (Hl & Hid & Hfirst)%list_find_Some.
  split_and!; [symmetry; apply take_drop_middle, Hl | exact Hid |].
  intros i (j & Hj & Hlt)%elem_of_take. eapply Hfirst; eassumption.
Qed.

Lemma find_item_None itemId q :
  find_item itemId q = None <-> (forall i, i ∈ q -> id i <> itemId).
Proof.
  unfold find_item. rewrite list_find_None, Forall_forall. reflexivity.
Qed.

(** The sub-items [expandPlaylist] generates for [item]. *)
Definition playlist_items (randomUUID : nat -> jsstring) (item : BatchItem)
    (platform0 : jsstring) (random : Q) (s : State) : list BatchItem :=
  map (playlistItem randomUUID item platform0 (downloadType s) (uuids s))
      (seq 1 (mockCount random)).

Section Playlist.

Variable randomUUID : nat -> jsstring.

Lemma expandPlaylist_found itemId platform0 random s index item :
  find_item itemId (queue s) = Some (index, item) ->
  let s' := expandPlaylist randomUUID itemId platform0 random s in
  queue s' = take index (queue s)
             ++ playlist_items randomUUID item platform0 random s
             ++ drop (S index) (queue s)
  /\ uuids s' = uuids s + mockCount random.
Proof.
  intros Hfind. unfold expandPlaylist. rewrite Hfind. simpl.
  unfold splice_items. rewrite Hfind. split; reflexivity.
Qed.

Lemma expandPlaylist_absent itemId platform0 random s :
  find_item itemId (queue s) = None ->
  expandPlaylist randomUUID itemId platform0 random s = s.
Proof. intros Hfind. unfold expandPlaylist. rewrite Hfind. reflexivity. Qed.

Lemma playlist_items_created item platform0 random s n :
  n ∈ playlist_items randomUUID item platform0 random s ->
  status n = ready /\ progress n = 0%Z
  /\ (exists i, 1 <= i <= mockCount random
        /\ id n = randomUUID (uuids s + (i - 1))
        /\ url n = url item ++ js "&index=" ++ decimal (Z.of_nat i))
  /\ (exists r, result n = Some r /\ isPlaylist r = Some false
        /\ isValid r = true /\ platform r = platform0).
Proof.
  intros (i & -> & Hi)%list_elem_of_fmap.
  apply elem_of_seq in Hi. simpl.
  split_and!; try reflexivity.
  - exists i. split_and!; [lia | lia | reflexivity | reflexivity].
  - eexists. split_and!; reflexivity.
Qed.

End Playlist.

(** ** What each operation does to the queue and to the timers *)

(** The running intervals once [clearInterval] has run on a looked-up
    handle. *)
Definition cleared (o : option positive) (m : gmap positive Timer)
    : gmap positive Timer :=
  match o with Some h => delete h m | None => m end.

Lemma clearInterval_spec o s :
  intervals (clearInterval o s) = cleared o (intervals s)
  /\ queue (clearInterval o s) = queue s
  /\ intervalsRef (clearInterval o s) = intervalsRef s
  /\ nextHandle (clearInterval o s) = nextHandle s
  /\ uuids (clearInterval o s) = uuids s.
Proof. destruct o; repeat split. Qed.

Lemma cleared_lookup o m h t :
  cleared o m !! h = Some t <-> m !! h = Some t /\ o <> Some h.
Proof.
  destruct o as [h0|]; simpl.
  - rewrite lookup_delete_Some. split; intros [H1 H2]; split; congruence.
  - split; [intros H; split; [exact H | discriminate] | tauto].
Qed.

Definition downloading_updates : Updates :=
  {| u_status := Some downloading; u_progress := Some 0%Z; u_speed := None;
     u_phase := None; u_timeLeft := None; u_result := None; u_errorMsg := None |}.

Definition completed_updates : Updates :=
  {| u_status := Some completed; u_progress := Some 100%Z; u_speed := None;
     u_phase := Some (js "Guardado"); u_timeLeft := Some (js "0s");
     u_result := None; u_errorMsg := None |}.

Definition progress_updates (isAudio : bool) (p random2 : Q) : Updates :=
  {| u_status := None; u_progress := Some (Z.min 100 (Math_round p));
     u_speed := Some (toFixed1 (random2 * 8 + 5) ++ js " MB/s");
     u_phase := Some (phaseOf isAudio p); u_timeLeft := None; u_result := None;
     u_errorMsg := None |}.

(** The value of the local variable [progress] of a timer after its
    increment. *)
Definition advanced (t : Timer) (random1 : Q) : Q :=
  (t_progress t + (random1 * 5 + 1))%Q.

Lemma tick_spec h random1 random2 s t :
  intervals s !! h = Some t ->
  let s' := tick h random1 random2 s in
  let p := advanced t random1 in
  nextHandle s' = nextHandle s /\ uuids s' = uuids s /\
  if Qle_bool 100 p then
    queue s' = updateItem_map (t_itemId t) completed_updates (queue s)
    /\ intervals s'
       = cleared (intervalsRef s !! t_itemId t)
           (<[h := {| t_itemId := t_itemId t; t_isAudio := t_isAudio t;
                      t_progress := 100 |}]> (intervals s))
    /\ intervalsRef s' = delete (t_itemId t) (intervalsRef s)
  else
    queue s' = updateItem_map (t_itemId t)
                 (progress_updates (t_isAudio t) p random2) (queue s)
    /\ intervals s'
       = <[h := {| t_itemId := t_itemId t; t_isAudio := t_isAudio t;
                   t_progress := p |}]> (intervals s)
    /\ intervalsRef s' = intervalsRef s.
Proof.
  intros Hh s' p. subst s'. unfold tick. rewrite Hh. fold (advanced t random1).
  fold p. destruct (Qle_bool 100 p).
  - simpl. unfold clearInterval. simpl.
    destruct (intervalsRef s !! t_itemId t); simpl; repeat split.
  - repeat split.
Qed.

Lemma tick_idle h random1 random2 s :
  intervals s !! h = None -> tick h random1 random2 s = s.
Proof. intros Hh. unfold tick. rewrite Hh. reflexivity. Qed.

Lemma startDownload_resume_spec k now1 now2 rand s itemId item :
  permissions s !! k = Some (itemId, item) ->
  let s' := startDownload_resume k now1 now2 rand s in
  let interval := nextHandle s in
  queue s' = updateItem_map itemId downloading_updates (queue s)
  /\ intervals s'
     = <[interval := {| t_itemId := itemId;
                        t_isAudio := bool_decide (type item = audio);
                        t_progress := 0 |}]>
         (cleared (intervalsRef s !! itemId) (intervals s))
  /\ intervalsRef s' = <[itemId := interval]> (intervalsRef s)
  /\ nextHandle s' = Pos.succ interval
  /\ uuids s' = uuids s.
Proof.
  intros Hk s' interval. subst s' interval. unfold startDownload_resume.
  rewrite Hk.
  set (s0 := set_permissions _ s).
  set (s1 := match result item with Some _ => _ | None => _ end).
  assert (queue s1 = queue s /\ intervals s1 = intervals s
          /\ intervalsRef s1 = intervalsRef s /\ nextHandle s1 = nextHandle s
          /\ uuids s1 = uuids s) as (Hq & Hm & Hr & Hn & Hu).
  { subst s1. destruct (result item); [|repeat split].
    destruct (negb _); [|repeat split].
    unfold addToHistory. destruct (negb _); repeat split. }
  clearbody s1. clear s0.
  unfold clearInterval. simpl. rewrite Hr.
  destruct (intervalsRef s !! itemId); simpl; rewrite ?Hq, ?Hm, ?Hr, ?Hn, ?Hu;
    repeat split.
Qed.

Lemma startDownload_resume_idle k now1 now2 rand s :
  permissions s !! k = None -> startDownload_resume k now1 now2 rand s = s.
Proof. intros Hk. unfold startDownload_resume. rewrite Hk. reflexivity. Qed.

Lemma startDownload_frame seen itemId s :
  let s' := startDownload seen itemId s in
  queue s' = queue s /\ intervals s' = intervals s
  /\ intervalsRef s' = intervalsRef s /\ nextHandle s' = nextHandle s
  /\ uuids s' = uuids s /\ history s' = history s.
Proof.
  unfold startDownload. destruct (find_item itemId seen) as [[? item]|];
    [|repeat split].
  case_bool_decide; repeat split.
Qed.

Lemma removeItem_spec id0 s :
  let s' := removeItem id0 s in
  queue s' = filter (fun i => id i <> id0) (queue s)
  /\ intervals s' = cleared (intervalsRef s !! id0) (intervals s)
  /\ intervalsRef s' = intervalsRef s
  /\ nextHandle s' = nextHandle s
  /\ uuids s' = uuids s.
Proof.
  unfold removeItem, clearInterval.
  destruct (intervalsRef s !! id0); repeat split.
Qed.

(** ** Invariants of the queue and of the timers *)

(** The five statuses the program ever writes. *)
Definition live_statuses : list Status :=
  [analyzing; ready; downloading; completed; error].

Definition item_ok (i : BatchItem) : Prop :=
  status i ∈ live_statuses
  /\ (0 <= progress i <= 100)%Z
  /\ (status i = completed -> progress i = 100%Z).

(** Every running interval is the one registered for its item; a
    registered handle that still runs belongs to that item; handles are
    not reused; the local [progress] of a timer is not negative. *)
Definition timers_inv (ref : gmap jsstring positive) (m : gmap positive Timer)
    (next : positive) : Prop :=
  (forall h t, m !! h = Some t -> ref !! t_itemId t = Some h)
  /\ (forall i h t, ref !! i = Some h -> m !! h = Some t -> t_itemId t = i)
  /\ (forall i h, ref !! i = Some h -> (h < next)%positive)
  /\ (forall h t, m !! h = Some t -> (0 <= t_progress t)%Q).

(** An item whose interval still runs is not completed. *)
Definition running_inv (m : gmap positive Timer) (q : list BatchItem) : Prop :=
  forall h t i, m !! h = Some t -> i ∈ q -> id i = t_itemId t ->
    status i <> completed.

Definition Inv (s : State) : Prop :=
  (forall i, i ∈ queue s -> item_ok i)
  /\ timers_inv (intervalsRef s) (intervals s) (nextHandle s)
  /\ running_inv (intervals s) (queue s).

Lemma live_not_idle st : st ∈ live_statuses <-> st <> idle.
Proof.
  unfold live_statuses. split.
  - intros H ->. repeat (apply elem_of_cons in H as [H|H]; [discriminate|]).
    inversion H.
  - intros H. destruct st; [contradiction|..];
      repeat first [apply list_elem_of_here | apply list_elem_of_further].
Qed.

Lemma timers_inv_shrink ref m m' next :
  (forall h t, m' !! h = Some t -> m !! h = Some t) ->
  timers_inv ref m next -> timers_inv ref m' next.
Proof.
  intros Hsub (Hreg & Hown & Hfresh & Hacc). split_and!; eauto.
Qed.

Lemma running_inv_shrink m m' q q' :
  (forall h t, m' !! h = Some t -> exists t0, m !! h = Some t0 /\ t_itemId t0 = t_itemId t) ->
  (forall i, i ∈ q' -> i ∈ q) ->
  running_inv m q -> running_inv m' q'.
Proof.
  intros Hm Hq Hrun h t i Hh Hi Hid.
  destruct (Hm h t Hh) as (t0 & Ht0 & Hsame).
  apply (Hrun h t0 i Ht0 (Hq i Hi)). congruence.
Qed.

(** Item-wise updates that keep ids and never complete an item. *)
Lemma running_inv_map m q (g : BatchItem -> BatchItem) :
  (forall i, i ∈ q -> id (g i) = id i
                      /\ (status (g i) = completed -> status i = completed)) ->
  running_inv m q -> running_inv m (map g q).
Proof.
  intros Hg Hrun h t i' Hh (i & -> & Hi)%list_elem_of_fmap Hid Hst.
  destruct (Hg i Hi) as [Hgid Hgst].
  apply (Hrun h t i Hh Hi); [congruence | auto].
Qed.

Lemma items_ok_map q (g : BatchItem -> BatchItem) :
  (forall i, i ∈ q -> item_ok i -> item_ok (g i)) ->
  (forall i, i ∈ q -> item_ok i) ->
  forall i, i ∈ map g q -> item_ok i.
Proof.
  intros Hg Hq i' (i & -> & Hi)%list_elem_of_fmap. auto.
Qed.


Lemma updateItem_map_ids id0 u q : map id (updateItem_map id0 u q) = map id q.
Proof.
  unfold updateItem_map. rewrite map_map. apply map_ext.
  intros i. case_bool_decide; reflexivity.
Qed.

Lemma Math_round_nonneg p : (0 <= p)%Q -> (0 <= Math_round p)%Z.
Proof.
  intros Hp. unfold Math_round. apply Qfloor_lower.
  change (inject_Z 0) with 0%Q. lra.
Qed.

Lemma Inv_init : Inv init.
Proof.
  split_and!.
  - intros i Hi. inversion Hi.
  - simpl. split_and!; intros *; rewrite ?lookup_empty; discriminate.
  - intros h t i Hh. simpl in Hh. rewrite lookup_empty in Hh. discriminate.
Qed.


(** States that differ only outside the queue and the timers. *)
Lemma Inv_frame s s' :
  queue s' = queue s -> intervals s' = intervals s ->
  intervalsRef s' = intervalsRef s -> nextHandle s' = nextHandle s ->
  Inv s -> Inv s'.
Proof. unfold Inv. intros -> -> -> ->. tauto. Qed.

Lemma Inv_updateItem_live id0 u s s' :
  queue s' = updateItem_map id0 u (queue s) ->
  intervals s' = intervals s -> intervalsRef s' = intervalsRef s ->
  nextHandle s' = nextHandle s ->
  (forall i, item_ok i -> item_ok (assign i u)) ->
  (forall i, status (assign i u) <> completed) ->
  Inv s -> Inv s'.
Proof.
  intros Hq Hm Hr Hn Hok Hst (Hitems & Htim & Hrun). unfold Inv.
  rewrite Hq, Hm, Hr, Hn. split_and!; [|exact Htim|].
  - apply items_ok_map; [|exact Hitems].
    intros i _ Hi. case_bool_decide; auto.
  - apply running_inv_map; [|exact Hrun].
    intros i _. case_bool_decide as Hd; split; auto.
    intros Hc. destruct (Hst i Hc).
Qed.

Lemma Inv_insert s s' l1 new l2 :
  queue s' = l1 ++ new ++ l2 ->
  (forall i, i ∈ l1 ++ l2 -> i ∈ queue s) ->
  (forall i, i ∈ new -> item_ok i /\ status i <> completed) ->
  intervals s' = intervals s -> intervalsRef s' = intervalsRef s ->
  nextHandle s' = nextHandle s ->
  Inv s -> Inv s'.
Proof.
  intros Hq Hold Hnew Hm Hr Hn (Hitems & Htim & Hrun). unfold Inv.
  rewrite Hq, Hm, Hr, Hn.
  assert (forall i, i ∈ l1 ++ new ++ l2 -> i ∈ new \/ i ∈ queue s) as Hsplit.
  { intros i Hi. rewrite !elem_of_app in Hi.
    destruct Hi as [Hi|[Hi|Hi]]; [right|left|right]; auto;
      apply Hold; rewrite elem_of_app; auto. }
  split_and!; [|exact Htim|].
  - intros i Hi. destruct (Hsplit i Hi) as [Hi'|Hi']; [apply Hnew, Hi' | auto].
  - intros h t i Hh Hi Hid. destruct (Hsplit i Hi) as [Hi'|Hi'].
    + apply Hnew, Hi'.
    + eapply Hrun; eassumption.
Qed.

Lemma Inv_removeItem id0 s : Inv s -> Inv (removeItem id0 s).
Proof.
  intros (Hitems & Htim & Hrun).
  destruct (removeItem_spec id0 s) as (Hq & Hm & Hr & Hn & _).
  unfold Inv. rewrite Hq, Hm, Hr, Hn. split_and!.
  - intros i [_ Hi]%list_elem_of_filter. auto.
  - eapply timers_inv_shrink; [|exact Htim].
    intros h t [Hh _]%cleared_lookup. exact Hh.
  - eapply running_inv_shrink; [| |exact Hrun].
    + intros h t [Hh _]%cleared_lookup. eauto.
    + intros i [_ Hi]%list_elem_of_filter. exact Hi.
Qed.

Lemma Inv_startDownload_resume k now1 now2 rand s :
  Inv s -> Inv (startDownload_resume k now1 now2 rand s).
Proof.
  intros HI.
  destruct (permissions s !! k) as [[itemId item]|] eqn:Hk;
    [|rewrite startDownload_resume_idle; assumption].
  destruct HI as (Hitems & (Hreg & Hown & Hfresh & Hacc) & Hrun).
  destruct (startDownload_resume_spec k now1 now2 rand s itemId item Hk)
    as (Hq & Hm & Hr & Hn & _).
  assert (forall h t, cleared (intervalsRef s !! itemId) (intervals s) !! h = Some t ->
            intervals s !! h = Some t /\ t_itemId t <> itemId) as Hother.
  { intros h t [Hh Hne]%cleared_lookup. split; [exact Hh|].
    intros Heq. apply Hne. rewrite <- Heq. apply Hreg, Hh. }
  unfold Inv. rewrite Hq, Hm, Hr, Hn. clear Hq Hm Hr Hn. split_and!.
  - apply items_ok_map; [|exact Hitems].
    intros i _ Hi. case_bool_decide; [|exact Hi].
    split; [|split]; simpl; [|lia|discriminate].
    apply live_not_idle. discriminate.
  - split_and!.
    + intros h t [[<- <-]|[Hne Hh]]%lookup_insert_Some; simpl.
      * apply lookup_insert_eq.
      * destruct (Hother h t Hh) as [Hh' Hid].
        rewrite lookup_insert_ne by congruence. apply Hreg, Hh'.
    + intros i h t [[<- <-]|[Hne Hi]]%lookup_insert_Some Hh.
      * rewrite lookup_insert_eq in Hh. injection Hh as <-. reflexivity.
      * pose proof (Hfresh i h Hi) as Hlt.
        rewrite lookup_insert_ne in Hh by lia.
        destruct (Hother h t Hh) as [Hh' _]. eapply Hown; eassumption.
    + intros i h [[<- <-]|[Hne Hi]]%lookup_insert_Some; [lia|].
      pose proof (Hfresh i h Hi). lia.
    + intros h t [[<- <-]|[Hne Hh]]%lookup_insert_Some; simpl.
      * apply Qle_refl.
      * destruct (Hother h t Hh) as [Hh' _]. eapply Hacc, Hh'.
  - intros h t i' [[<- <-]|[Hne Hh]]%lookup_insert_Some
      (i & -> & Hi)%list_elem_of_fmap; simpl.
    + case_bool_decide as Hd; [discriminate|]. intros Hid. contradiction.
    + destruct (Hother h t Hh) as [Hh' Hid'].
      case_bool_decide as Hd; simpl; [congruence|].
      intros Hid. eapply Hrun; eassumption.
Qed.

Lemma advanced_nonneg t random1 :
  (0 <= t_progress t)%Q -> unit_interval random1 -> (0 <= advanced t random1)%Q.
Proof. intros Ht [H0 _]. unfold advanced. lra. Qed.

Lemma Inv_tick h random1 random2 s :
  unit_interval random1 -> Inv s -> Inv (tick h random1 random2 s).
Proof.
  intros Hrand HI.
  destruct (intervals s !! h) as [t|] eqn:Hh; [|rewrite tick_idle; assumption].
  destruct HI as (Hitems & (Hreg & Hown & Hfresh & Hacc) & Hrun).
  pose proof (advanced_nonneg t random1 (Hacc h t Hh) Hrand) as Hp.
  pose proof (Hreg h t Hh) as Hmine.
  assert (forall h' t', h' <> h -> intervals s !! h' = Some t' ->
            t_itemId t' <> t_itemId t) as Hother.
  { intros h' t' Hne Hh' Heq. apply Hne.
    pose proof (Hreg h' t' Hh') as Hreg'. congruence. }
  destruct (tick_spec h random1 random2 s t Hh) as (Hn & _ & Hspec).
  unfold Inv. rewrite Hn.
  destruct (Qle_bool 100 (advanced t random1)) eqn:Hdone.
  - destruct Hspec as (Hq & Hm & Hr). rewrite Hq, Hm, Hr, Hmine. simpl.
    rewrite delete_insert_eq. split_and!.
    + apply items_ok_map; [|exact Hitems].
      intros i _ Hi. case_bool_decide; [|exact Hi].
      split; [|split]; simpl; [|lia|reflexivity].
      apply live_not_idle. discriminate.
    + split_and!.
      * intros h' t' [Hne Hh']%lookup_delete_Some.
        rewrite lookup_delete_ne by (apply not_eq_sym, Hother with h'; auto).
        apply Hreg, Hh'.
      * intros i h' t' [_ Hi]%lookup_delete_Some [_ Hh']%lookup_delete_Some.
        eapply Hown; eassumption.
      * intros i h' [_ Hi]%lookup_delete_Some. eapply Hfresh, Hi.
      * intros h' t' [_ Hh']%lookup_delete_Some. eapply Hacc, Hh'.
    + intros h' t' i' [Hne Hh']%lookup_delete_Some (i & -> & Hi)%list_elem_of_fmap.
      pose proof (Hother h' t' (not_eq_sym Hne) Hh') as Hid'.
      case_bool_decide as Hd; simpl; [congruence|].
      intros Hid. eapply Hrun; eassumption.
  - destruct Hspec as (Hq & Hm & Hr). rewrite Hq, Hm, Hr. split_and!.
    + apply items_ok_map; [|exact Hitems].
      intros i Hi Hok. case_bool_decide as Hd; [|exact Hok].
      destruct Hok as (Hlive & Hpr & Hc).
      split; [|split]; simpl; [exact Hlive| |].
      * pose proof (Math_round_nonneg _ Hp). lia.
      * intros Hst. destruct (Hrun h t i Hh Hi Hd Hst).
    + split_and!.
      * intros h' t' [[<- <-]|[Hne Hh']]%lookup_insert_Some; simpl; auto.
      * intros i h' t' Hi [[<- <-]|[Hne Hh']]%lookup_insert_Some; simpl.
        -- eapply Hown; eassumption.
        -- eapply Hown; eassumption.
      * exact Hfresh.
      * intros h' t' [[<- <-]|[Hne Hh']]%lookup_insert_Some; simpl; eauto.
    + eapply running_inv_shrink with (q := updateItem_map _ _ (queue s)).
      * intros h' t' [[<- <-]|[Hne Hh']]%lookup_insert_Some; simpl; eauto.
      * intros i Hi. exact Hi.
      * apply running_inv_map; [|exact Hrun].
        intros i _. case_bool_decide; split; auto.
Qed.

Lemma item_ok_created i :
  status i = analyzing \/ status i = ready -> progress i = 0%Z ->
  item_ok i /\ status i <> completed.
Proof.
  intros Hst Hp. split; [split; [|split]|].
  - apply live_not_idle. destruct Hst; congruence.
  - lia.
  - destruct Hst; congruence.
  - destruct Hst; congruence.
Qed.

Lemma item_ok_analysis settled i :
  item_ok i -> item_ok (assign i (analysisUpdates settled))
               /\ status (assign i (analysisUpdates settled)) <> completed.
Proof.
  intros (Hlive & Hp & Hc).
  assert (status (assign i (analysisUpdates settled)) = ready
          \/ status (assign i (analysisUpdates settled)) = error) as Hst.
  { destruct settled as [data|e]; simpl; [destruct (isValid data)|]; simpl; auto. }
  assert (progress (assign i (analysisUpdates settled)) = progress i) as Hpr.
  { destruct settled as [data|e]; simpl; [destruct (isValid data)|]; reflexivity. }
  split; [split; [|split]|].
  - apply live_not_idle. destruct Hst; congruence.
  - rewrite Hpr. exact Hp.
  - destruct Hst; congruence.
  - destruct Hst; congruence.
Qed.

Section Invariant.

Variable randomUUID : nat -> jsstring.
Variable JSON_parse : jsstring -> option AnalysisResult.

Lemma handleAnalyzeBatch_frame s :
  let s' := handleAnalyzeBatch randomUUID s in
  intervals s' = intervals s /\ intervalsRef s' = intervalsRef s
  /\ nextHandle s' = nextHandle s.
Proof.
  unfold handleAnalyzeBatch. destruct (trim (inputText s)); [repeat split|].
  destruct (Array_from_Set _); repeat split.
Qed.

Lemma Inv_handleAnalyzeBatch s : Inv s -> Inv (handleAnalyzeBatch randomUUID s).
Proof.
  intros HI.
  destruct (handleAnalyzeBatch_frame s) as (Hm & Hr & Hn).
  eapply (Inv_insert s _ []); try eassumption.
  - apply handleAnalyzeBatch_queue.
  - intros i Hi. exact Hi.
  - intros i [_ Hi]%list_elem_of_filter.
    destruct (batch_items_created randomUUID s i Hi) as [Hst Hp].
    apply item_ok_created; auto.
Qed.

Lemma analysisDone_spec k api s item :
  analyses s !! k = Some item ->
  let s' := analysisDone JSON_parse k api s in
  queue s'
  = updateItem_map (id item)
      (analysisUpdates (Gemini.analyzeLink JSON_parse (fun _ => api) (url item)))
      (queue s)
  /\ intervals s' = intervals s /\ intervalsRef s' = intervalsRef s
  /\ nextHandle s' = nextHandle s /\ uuids s' = uuids s.
Proof.
  intros Hk. unfold analysisDone. rewrite Hk. repeat split.
Qed.

Lemma Inv_analysisDone k api s : Inv s -> Inv (analysisDone JSON_parse k api s).
Proof.
  intros HI. destruct (analyses s !! k) as [item|] eqn:Hk.
  - destruct (analysisDone_spec k api s item Hk) as (Hq & Hm & Hr & Hn & _).
    eapply Inv_updateItem_live; try eassumption.
    + intros i Hi. apply item_ok_analysis, Hi.
    + intros i.
      destruct (Gemini.analyzeLink JSON_parse (fun _ => api) (url item)) as [data|e];
        simpl; [destruct (isValid data)|]; discriminate.
  - unfold analysisDone. rewrite Hk. exact HI.
Qed.

Lemma expandPlaylist_frame itemId platform0 random s :
  let s' := expandPlaylist randomUUID itemId platform0 random s in
  intervals s' = intervals s /\ intervalsRef s' = intervalsRef s
  /\ nextHandle s' = nextHandle s.
Proof.
  unfold expandPlaylist. destruct (find_item itemId (queue s)) as [[? ?]|];
    repeat split.
Qed.

Lemma Inv_expandPlaylist itemId platform0 random s :
  Inv s -> Inv (expandPlaylist randomUUID itemId platform0 random s).
Proof.
  intros HI.
  destruct (expandPlaylist_frame itemId platform0 random s) as (Hm & Hr & Hn).
  destruct (find_item itemId (queue s)) as [[index item]|] eqn:Hfind.
  - destruct (expandPlaylist_found randomUUID itemId platform0 random s index item Hfind)
      as [Hq' _].
    destruct (find_item_Some _ _ _ _ Hfind) as (Hq & _ & _).
    eapply Inv_insert; try eassumption.
    + intros i Hi. rewrite Hq. rewrite elem_of_app in Hi.
      rewrite elem_of_app, elem_of_cons. tauto.
    + intros n Hn'.
      destruct (playlist_items_created randomUUID item platform0 random s n Hn')
        as (Hst & Hp & _).
      apply item_ok_created; auto.
  - rewrite expandPlaylist_absent; [exact HI | exact Hfind].
Qed.

Lemma Inv_selectType t s : Inv s -> Inv (selectType t s).
Proof.
  intros (Hitems & Htim & Hrun). unfold Inv, selectType. simpl.
  split_and!; [|exact Htim|].
  - apply items_ok_map; [|exact Hitems].
    intros i _ Hi. case_bool_decide; exact Hi.
  - apply running_inv_map; [|exact Hrun].
    intros i _. case_bool_decide; split; auto.
Qed.

Lemma Inv_timeoutFires k s : Inv s -> Inv (timeoutFires k s).
Proof.
  intros HI. unfold timeoutFires.
  destruct (timeouts s !! k) as [[itemId seen]|]; [|exact HI].
  destruct (startDownload_frame seen itemId (set_timeouts (delete k (timeouts s)) s))
    as (Hq & Hm & Hr & Hn & _).
  eapply Inv_frame; [exact Hq | exact Hm | exact Hr | exact Hn | exact HI].
Qed.

Lemma step_Inv s e :
  valid_event e -> Inv s -> Inv (step randomUUID JSON_parse s e).
Proof.
  intros Hvalid HI. destruct e; simpl.
  - exact HI.
  - unfold handlePaste. destruct clipboard; exact HI.
  - apply Inv_selectType, HI.
  - apply Inv_handleAnalyzeBatch, HI.
  - apply Inv_analysisDone, HI.
  - apply Inv_expandPlaylist, HI.
  - destruct (startDownload_frame (queue s) itemId s) as (Hq & Hm & Hr & Hn & _).
    eapply Inv_frame; [exact Hq | exact Hm | exact Hr | exact Hn | exact HI].
  - apply Inv_startDownload_resume, HI.
  - apply Inv_tick; [apply Hvalid | exact HI].
  - exact HI.
  - apply Inv_timeoutFires, HI.
  - apply Inv_removeItem, HI.
  - exact HI.
  - apply Inv_init.
Qed.

Lemma reachable_Inv s : reachable randomUUID JSON_parse s -> Inv s.
Proof.
  induction 1 as [|s e _ IH Hvalid]; [apply Inv_init | apply step_Inv; assumption].
Qed.

End Invariant.

(** ** Identifiers *)

(** [x] is one of the UUIDs drawn from call [n] on, before call [n']. *)
Definition issued_in (randomUUID : nat -> jsstring) (n n' : nat) (x : jsstring) : Prop :=
  exists k, n <= k < n' /\ x = randomUUID k.

(** What a step does to the ids of the queue: some are kept, in their
    order, and the others are newly drawn. *)
Definition ids_step (randomUUID : nat -> jsstring) (s s' : State) : Prop :=
  uuids s <= uuids s'
  /\ exists new kept,
       map id (queue s') ≡ₚ new ++ kept
       /\ kept `sublist_of` map id (queue s)
       /\ NoDup new
       /\ forall x, x ∈ new -> issued_in randomUUID (uuids s) (uuids s') x.

Definition ids_inv (randomUUID : nat -> jsstring) (s : State) : Prop :=
  NoDup (map id (queue s))
  /\ forall x, x ∈ map id (queue s) -> issued_in randomUUID 0 (uuids s) x.

Lemma ids_step_kept randomUUID s s' :
  uuids s <= uuids s' ->
  map id (queue s') `sublist_of` map id (queue s) ->
  ids_step randomUUID s s'.
Proof.
  intros Hu Hsub. split; [exact Hu|].
  exists [], (map id (queue s')). split_and!; auto.
  - constructor.
  - intros x Hx. inversion Hx.
Qed.

Lemma ids_step_same randomUUID s s' :
  uuids s' = uuids s -> map id (queue s') = map id (queue s) ->
  ids_step randomUUID s s'.
Proof.
  intros Hu Hq. apply ids_step_kept; [lia|]. rewrite Hq. reflexivity.
Qed.

Section Identifiers.

Variable randomUUID : nat -> jsstring.
Variable JSON_parse : jsstring -> option AnalysisResult.

(** A UUID is never drawn twice. *)
Hypothesis randomUUID_inj : forall m n, randomUUID m = randomUUID n -> m = n.

Lemma drawn_NoDup (f : nat -> nat) (l : list nat) :
  (forall a b, a ∈ l -> b ∈ l -> f a = f b -> a = b) ->
  NoDup l -> NoDup (map (fun k => randomUUID (f k)) l).
Proof.
  intros Hf Hl. apply (NoDup_fmap_2_strong (fun k => randomUUID (f k))); [|exact Hl].
  intros a b Ha Hb Heq. apply Hf; auto.
Qed.

Lemma ids_step_handleAnalyzeBatch s :
  ids_step randomUUID s (handleAnalyzeBatch randomUUID s).
Proof.
  split; [rewrite handleAnalyzeBatch_uuids; lia|].
  set (P := fun i : BatchItem => url i ∉ map url (queue s)).
  exists (map id (filter P (batch_items randomUUID s))), (map id (queue s)).
  assert (map id (filter P (batch_items randomUUID s))
            `sublist_of` map id (batch_items randomUUID s)) as Hsub
    by apply (fmap_sublist id), sublist_filter.
  split_and!.
  - rewrite handleAnalyzeBatch_queue, map_app. reflexivity.
  - reflexivity.
  - eapply sublist_NoDup; [|exact Hsub].
    rewrite batch_items_ids. apply drawn_NoDup; [|apply NoDup_seq].
    intros a b _ _ Hab. lia.
  - intros x Hx. eapply sublist_subseteq in Hx; [|exact Hsub].
    rewrite batch_items_ids in Hx.
    apply list_elem_of_fmap in Hx as (k & -> & Hk). apply elem_of_seq in Hk.
    exists (uuids s + k). rewrite handleAnalyzeBatch_uuids.
    split; [lia | reflexivity].
Qed.

Lemma ids_step_expandPlaylist itemId platform0 random s :
  ids_step randomUUID s (expandPlaylist randomUUID itemId platform0 random s).
Proof.
  destruct (find_item itemId (queue s)) as [[index item]|] eqn:Hfind.
  - destruct (expandPlaylist_found randomUUID itemId platform0 random s index item Hfind)
      as [Hq' Hu].
    destruct (find_item_Some _ _ _ _ Hfind) as (Hq & _ & _).
    split; [lia|].
    exists (map id (playlist_items randomUUID item platform0 random s)),
           (map id (take index (queue s) ++ drop (S index) (queue s))).
    assert (map id (playlist_items randomUUID item platform0 random s)
            = map (fun i => randomUUID (uuids s + (i - 1))) (seq 1 (mockCount random)))
      as Hids by (unfold playlist_items; rewrite map_map; reflexivity).
    split_and!.
    + rewrite Hq', !map_app. apply Permutation_app_swap_app.
    + apply (fmap_sublist id). rewrite Hq at 3.
      apply sublist_app; [reflexivity|]. apply sublist_cons. reflexivity.
    + rewrite Hids. apply drawn_NoDup; [|apply NoDup_seq].
      intros a b Ha%elem_of_seq Hb%elem_of_seq Hab. lia.
    + intros x Hx. rewrite Hids in Hx.
      apply list_elem_of_fmap in Hx as (i & -> & Hi). apply elem_of_seq in Hi.
      exists (uuids s + (i - 1)). split; [lia | reflexivity].
  - rewrite expandPlaylist_absent by exact Hfind.
    apply ids_step_same; reflexivity.
Qed.

Lemma ids_step_step s e : ids_step randomUUID s (step randomUUID JSON_parse s e).
Proof.
  destruct e; simpl.
  - apply ids_step_same; reflexivity.
  - unfold handlePaste. destruct clipboard; apply ids_step_same; reflexivity.
  - apply ids_step_same; [reflexivity|].
    unfold selectType. simpl. rewrite map_map. apply map_ext.
    intros i. case_bool_decide; reflexivity.
  - apply ids_step_handleAnalyzeBatch.
  - destruct (analyses s !! k) as [item|] eqn:Hk.
    + destruct (analysisDone_spec JSON_parse k api s item Hk) as (Hq & _ & _ & _ & Hu).
      apply ids_step_same; [exact Hu|]. rewrite Hq. apply updateItem_map_ids.
    + unfold analysisDone. rewrite Hk. apply ids_step_same; reflexivity.
  - apply ids_step_expandPlaylist.
  - destruct (startDownload_frame (queue s) itemId s) as (Hq & _ & _ & _ & Hu & _).
    apply ids_step_same; [exact Hu | rewrite Hq; reflexivity].
  - destruct (permissions s !! k) as [[itemId item]|] eqn:Hk.
    + destruct (startDownload_resume_spec k now1 now2 rand s itemId item Hk)
        as (Hq & _ & _ & _ & Hu).
      apply ids_step_same; [exact Hu|]. rewrite Hq. apply updateItem_map_ids.
    + rewrite startDownload_resume_idle by exact Hk.
      apply ids_step_same; reflexivity.
  - destruct (intervals s !! h) as [t|] eqn:Hh.
    + destruct (tick_spec h random1 random2 s t Hh) as (_ & Hu & Hspec).
      apply ids_step_same; [exact Hu|].
      destruct (Qle_bool 100 (advanced t random1));
        destruct Hspec as (Hq & _); rewrite Hq; apply updateItem_map_ids.
    + rewrite tick_idle by exact Hh. apply ids_step_same; reflexivity.
  - apply ids_step_same; reflexivity.
  - unfold timeoutFires. destruct (timeouts s !! k) as [[itemId seen]|].
    + destruct (startDownload_frame seen itemId
                  (set_timeouts (delete k (timeouts s)) s)) as (Hq & _ & _ & _ & Hu & _).
      apply ids_step_same; [exact Hu | rewrite Hq; reflexivity].
    + apply ids_step_same; reflexivity.
  - destruct (removeItem_spec id0 s) as (Hq & _ & _ & _ & Hu).
    apply ids_step_kept; [lia|]. rewrite Hq.
    apply (fmap_sublist id), sublist_filter.
  - apply ids_step_same; reflexivity.
  - apply ids_step_kept; [reflexivity|]. apply sublist_nil_l.
Qed.

Lemma ids_inv_step s s' :
  ids_step randomUUID s s' -> ids_inv randomUUID s -> ids_inv randomUUID s'.
Proof.
  intros (Hu & new & kept & Hperm & Hsub & Hnew & Hissued) [Hnd Hold].
  assert (forall x, x ∈ kept -> issued_in randomUUID 0 (uuids s) x) as Hkept.
  { intros x Hx. apply Hold. eapply sublist_subseteq; eassumption. }
  split.
  - rewrite Hperm. apply NoDup_app. split_and!; [exact Hnew| |].
    + intros x Hx Hx'.
      destruct (Hissued x Hx) as (k & Hk & ->).
      destruct (Hkept _ Hx') as (k' & Hk' & Heq).
      apply randomUUID_inj in Heq. lia.
    + eapply sublist_NoDup; eassumption.
  - intros x Hx. rewrite Hperm in Hx. apply elem_of_app in Hx as [Hx|Hx].
    + destruct (Hissued x Hx) as (k & Hk & ->). exists k. split; [lia | reflexivity].
    + destruct (Hkept x Hx) as (k & Hk & ->). exists k. split; [lia | reflexivity].
Qed.

Lemma reachable_ids_inv s :
  reachable randomUUID JSON_parse s -> ids_inv randomUUID s.
Proof.
  induction 1 as [|s e _ IH _].
  - split; [constructor|]. intros x Hx. inversion Hx.
  - eapply ids_inv_step; [apply ids_step_step | exact IH].
Qed.

End Identifiers.

(** ** A concrete environment and concrete runs *)

(** A source of identifiers that never repeats: [u], [ui], [uii], ... *)
Definition demo_uuid (n : nat) : jsstring := js "u" ++ repeat 105%N n.

Definition demo_result : AnalysisResult := {|
  platform := js "YouTube";
  isValid := true;
  summary := js "Video";
  contentType := CT_video;
  thumbnailUrl := None;
  isPlaylist := Some false
|}.

(** A parser that reads every answer as [demo_result]. *)
Definition demo_parse (t : jsstring) : option AnalysisResult := Some demo_result.

Definition demo_link : jsstring := js "https://youtu.be/x".

Definition demo_answer : Outcome JsError Gemini.Response :=
  Returned {| Gemini.text := Some (js "{}") |}.

Definition events_analyzing : list Event :=
  [InputChange (demo_link ++ js " " ++ demo_link); AnalyzeBatch].
Definition events_ready : list Event :=
  events_analyzing ++ [AnalysisDone 0 demo_answer].
Definition events_error : list Event :=
  events_analyzing ++ [AnalysisDone 0 (Thrown Falsy)].
Definition events_downloading : list Event :=
  events_ready ++ [StartDownload (demo_uuid 0);
                   PermissionSettled 0 1000 1001 (js "0.5")].
Definition events_halfway : list Event :=
  events_downloading ++ repeat (Tick 1 (99 # 100) (1 # 2)) 8.
Definition events_completed : list Event :=
  events_downloading ++ repeat (Tick 1 (99 # 100) (1 # 2)) 17.

Definition demo_run (es : list Event) : State := run demo_uuid demo_parse init es.

Lemma demo_uuid_inj m n : demo_uuid m = demo_uuid n -> m = n.
Proof.
  unfold demo_uuid. intros H. apply app_inv_head in H.
  apply (f_equal (@length N)) in H. rewrite !repeat_length in H. exact H.
Qed.

Lemma reachable_run randomUUID JSON_parse s es :
  reachable randomUUID JSON_parse s ->
  Forall valid_event es ->
  reachable randomUUID JSON_parse (run randomUUID JSON_parse s es).
Proof.
  intros Hs Hes. revert s Hs. induction Hes as [|e es He _ IH]; intros s Hs.
  - exact Hs.
  - simpl. apply IH. apply reachable_step; assumption.
Qed.

Lemma unit_interval_99 : unit_interval (99 # 100).
Proof. split; [discriminate | reflexivity]. Qed.

Lemma unit_interval_half : unit_interval (1 # 2).
Proof. split; [discriminate | reflexivity]. Qed.

Lemma valid_ticks n : Forall valid_event (repeat (Tick 1 (99 # 100) (1 # 2)) n).
Proof.
  induction n; simpl; constructor; auto.
  split; [apply unit_interval_99 | apply unit_interval_half].
Qed.

Lemma valid_analyzing : Forall valid_event events_analyzing.
Proof. repeat constructor. Qed.

Lemma valid_ready : Forall valid_event events_ready.
Proof. apply Forall_app. split; [apply valid_analyzing | repeat constructor]. Qed.

Lemma valid_error : Forall valid_event events_error.
Proof. apply Forall_app. split; [apply valid_analyzing | repeat constructor]. Qed.

Lemma valid_downloading : Forall valid_event events_downloading.
Proof. apply Forall_app. split; [apply valid_ready | repeat constructor]. Qed.

Lemma valid_halfway : Forall valid_event events_halfway.
Proof. apply Forall_app. split; [apply valid_downloading | apply valid_ticks]. Qed.

Lemma valid_completed : Forall valid_event events_completed.
Proof. apply Forall_app. split; [apply valid_downloading | apply valid_ticks]. Qed.

Lemma reachable_demo es :
  Forall valid_event es -> reachable demo_uuid demo_parse (demo_run es).
Proof. intros Hes. apply reachable_run; [apply reachable_init | exact Hes]. Qed.

Lemma demo_statuses :
  map status (queue (demo_run events_analyzing)) = [analyzing]
  /\ map status (queue (demo_run events_ready)) = [ready]
  /\ map status (queue (demo_run events_error)) = [error]
  /\ map status (queue (demo_run events_downloading)) = [downloading]
  /\ map status (queue (demo_run events_halfway)) = [downloading]
  /\ map status (queue (demo_run events_completed)) = [completed].
Proof. vm_compute. repeat split. Qed.

Lemma demo_progress :
  map progress (queue (demo_run events_halfway)) = [48%Z]
  /\ map progress (queue (demo_run events_completed)) = [100%Z].
Proof. vm_compute. repeat split. Qed.

(** The timeouts of [handleDownloadAll] hold the [startDownload] of the
    render that scheduled them, and that one reads the queue of its own
    render. Here an item is removed between the click on the button and
    the timeout: the timeout still finds it ready in the queue it sees,
    and the download starts for an id the queue no longer has. *)
Example stale_timeout_starts_interval :
  let s := demo_run (events_ready
                     ++ [DownloadAll; RemoveItem (demo_uuid 0); TimeoutFires 0;
                         PermissionSettled 0 1000 1001 (js "0.5")]) in
  queue s = []
  /\ intervalsRef s !! demo_uuid 0 = Some 1%positive
  /\ t_itemId <$> intervals s !! 1%positive = Some (demo_uuid 0)
  /\ map h_url (history s) = [demo_link].
Proof. vm_compute. repeat split. Qed.

Lemma status_attained es st :
  Forall valid_event es ->
  map status (queue (demo_run es)) = [st] ->
  exists s i, reachable demo_uuid demo_parse s /\ i ∈ queue s /\ status i = st.
Proof.
  intros Hes Hst. exists (demo_run es).
  destruct (queue (demo_run es)) as [|i q] eqn:Hq; [discriminate|].
  exists i. split_and!.
  - apply reachable_demo, Hes.
  - apply list_elem_of_here.
  - simpl in Hst. congruence.
Qed.

Lemma live_statuses_attained st :
  st ∈ live_statuses ->
  exists s i, reachable demo_uuid demo_parse s /\ i ∈ queue s /\ status i = st.
Proof.
  destruct demo_statuses as (Ha & Hr & He & Hd & _ & Hc).
  unfold live_statuses. intros H.
  repeat (apply elem_of_cons in H as [->|H]).
  - apply (status_attained events_analyzing); [apply valid_analyzing | exact Ha].
  - apply (status_attained events_ready); [apply valid_ready | exact Hr].
  - apply (status_attained events_downloading); [apply valid_downloading | exact Hd].
  - apply (status_attained events_completed); [apply valid_completed | exact Hc].
  - apply (status_attained events_error); [apply valid_error | exact He].
  - inversion H.
Qed.

Lemma filter_keep_all {A} (P : A -> Prop) `{!forall x, Decision (P x)} (l : list A) :
  (forall x, x ∈ l -> P x) -> filter P l = l.
Proof.
  induction l as [|x l IH]; intros Hall; [reflexivity|].
  rewrite filter_cons_True by (apply Hall, list_elem_of_here).
  f_equal. apply IH. intros y Hy. apply Hall, list_elem_of_further, Hy.
Qed.

Lemma filter_out_unique id0 q :
  NoDup (map id q) -> id0 ∈ map id q ->
  exists l1 item l2,
    q = l1 ++ item :: l2 /\ id item = id0
    /\ filter (fun i => id i <> id0) q = l1 ++ l2.
Proof.
  intros Hnd (item & -> & Hi)%list_elem_of_fmap.
  apply list_elem_of_split in Hi as (l1 & l2 & ->).
  exists l1, item, l2. split_and!; try reflexivity.
  rewrite map_app in Hnd. simpl in Hnd.
  apply NoDup_app in Hnd as (_ & Hl1 & Hl2).
  apply NoDup_cons in Hl2 as [Hl2 _].
  rewrite filter_app, filter_cons_False by (intros H; apply H; reflexivity).
  rewrite !filter_keep_all; [reflexivity| |].
  - intros x Hx Heq. apply Hl2. rewrite <- Heq. apply list_elem_of_fmap. eauto.
  - intros x Hx Heq. apply (Hl1 (id x)).
    + apply list_elem_of_fmap. eauto.
    + rewrite Heq. apply list_elem_of_here.
Qed.

(** * The claims of the specification *)

Section Claims.

Variable randomUUID : nat -> jsstring.
Variable JSON_parse : jsstring -> option AnalysisResult.


(** C3. In every state the downloader can reach, the status of every
    queued item is one of five values: analyzing, ready, downloading,
    completed or error. The five differ, and each of them occurs in some
    run; the sixth value of the type, idle, is never written. *)
Theorem status_five_values s i :
  reachable randomUUID JSON_parse s ->
  i ∈ queue s ->
  status i ∈ live_statuses
  /\ status i <> idle
  /\ length live_statuses = 5
  /\ NoDup live_statuses
  /\ (forall st, st ∈ live_statuses ->
        exists s' i', reachable demo_uuid demo_parse s' /\ i' ∈ queue s'
                      /\ status i' = st).
Proof.
  intros Hreach Hi.
  destruct (reachable_Inv randomUUID JSON_parse s Hreach) as (Hitems & _).
  destruct (Hitems i Hi) as (Hlive & _).
  split_and!.
  - exact Hlive.
  - apply live_not_idle, Hlive.
  - reflexivity.
  - apply (bool_decide_unpack (NoDup live_statuses)). vm_compute. exact I.
  - apply live_statuses_attained.
Qed.

(** C6. When the queue holds an item with the given id, [expandPlaylist]
    replaces the first such item, where it stands, by the generated
    sub-items and leaves what is before and after it as it was; each
    sub-item is ready with progress 0, carries the link of the parent
    followed by its index, and is no playlist. When no item has the id,
    nothing changes. *)
Theorem expandPlaylist_replaces_in_place itemId platform0 random s :
  (forall index item,
     find_item itemId (queue s) = Some (index, item) ->
     let newItems := playlist_items randomUUID item platform0 random s in
     let before := take index (queue s) in
     let after := drop (S index) (queue s) in
     queue s = before ++ item :: after
     /\ id item = itemId
     /\ (forall i, i ∈ before -> id i <> itemId)
     /\ queue (expandPlaylist randomUUID itemId platform0 random s)
        = before ++ newItems ++ after
     /\ (unit_interval random -> 3 <= length newItems <= 7)
     /\ (forall n, n ∈ newItems ->
           status n = ready /\ progress n = 0%Z
           /\ (exists k, 1 <= k <= mockCount random
                 /\ url n = url item ++ js "&index=" ++ decimal (Z.of_nat k))
           /\ (exists r, result n = Some r /\ isPlaylist r = Some false)))
  /\ ((forall i, i ∈ queue s -> id i <> itemId) ->
      expandPlaylist randomUUID itemId platform0 random s = s).
Proof.
  split.
  - intros index item Hfind newItems before after.
    destruct (find_item_Some _ _ _ _ Hfind) as (Hq & Hid & Hbefore).
    destruct (expandPlaylist_found randomUUID itemId platform0 random s index item Hfind)
      as [Hq' _].
    split_and!; auto.
    + intros Hr. subst newItems. unfold playlist_items.
      rewrite length_map, length_seq. apply mockCount_range, Hr.
    + intros n Hn.
      destruct (playlist_items_created randomUUID item platform0 random s n Hn)
        as (Hst & Hp & (k & Hk & _ & Hurl) & (r & Hr & Hpl & _)).
      split_and!; eauto.
  - intros Hnone. apply expandPlaylist_absent, find_item_None, Hnone.
Qed.

(** C9. In every state the downloader can reach, the progress of every
    queued item lies between 0 and 100, and a completed item has progress
    100. Items are created with progress 0, and a tick of a running
    interval updates the items of its id with either the smaller of 100
    and the rounded local progress, or 100 together with the status
    completed. *)
Theorem progress_within_bounds s i :
  reachable randomUUID JSON_parse s ->
  i ∈ queue s ->
  (0 <= progress i <= 100)%Z
  /\ (status i = completed -> progress i = 100%Z)
  /\ (forall n, n ∈ batch_items randomUUID s -> progress n = 0%Z)
  /\ (forall item platform0 random n,
        n ∈ playlist_items randomUUID item platform0 random s -> progress n = 0%Z)
  /\ (forall h random1 random2 t,
        intervals s !! h = Some t ->
        exists u,
          queue (tick h random1 random2 s)
          = updateItem_map (t_itemId t) u (queue s)
          /\ ((u_progress u = Some (Z.min 100 (Math_round (advanced t random1)))
               /\ u_status u = None)
              \/ (u_progress u = Some 100%Z /\ u_status u = Some completed))).
Proof.
  intros Hreach Hi.
  destruct (reachable_Inv randomUUID JSON_parse s Hreach) as (Hitems & _).
  destruct (Hitems i Hi) as (_ & Hp & Hc).
  split_and!; try assumption; try lia.
  - intros n Hn. apply (batch_items_created randomUUID s n Hn).
  - intros item platform0 random n Hn.
    apply (playlist_items_created randomUUID item platform0 random s n Hn).
  - intros h random1 random2 t Hh.
    destruct (tick_spec h random1 random2 s t Hh) as (_ & _ & Hspec).
    destruct (Qle_bool 100 (advanced t random1)); destruct Hspec as (Hq & _).
    + exists completed_updates. split; [exact Hq|]. right. split; reflexivity.
    + exists (progress_updates (t_isAudio t) (advanced t random1) random2).
      split; [exact Hq|]. left. split; reflexivity.
Qed.


(** A UUID is never drawn twice. *)
Hypothesis randomUUID_inj : forall m n, randomUUID m = randomUUID n -> m = n.

(** C7. In every state the downloader can reach, [removeItem] leaves no
    running interval for the removed id, takes out of the queue the one
    item with that id and nothing else, keeps the order of the others, and
    leaves the intervals of the other items and the timer map as they
    were. *)
Theorem removeItem_clears_timer s id0 :
  reachable randomUUID JSON_parse s ->
  let s' := removeItem id0 s in
  (forall h t, intervals s' !! h = Some t -> t_itemId t <> id0)
  /\ (forall h, intervalsRef s !! id0 = Some h -> intervals s' !! h = None)
  /\ queue s' = filter (fun i => id i <> id0) (queue s)
  /\ (id0 ∈ map id (queue s) ->
      exists l1 item l2, queue s = l1 ++ item :: l2 /\ id item = id0
                         /\ queue s' = l1 ++ l2)
  /\ (id0 ∉ map id (queue s) -> queue s' = queue s)
  /\ (forall h t, intervals s !! h = Some t -> t_itemId t <> id0 ->
        intervals s' !! h = Some t)
  /\ intervalsRef s' = intervalsRef s.
Proof.
  intros Hreach s'.
  destruct (reachable_Inv randomUUID JSON_parse s Hreach)
    as (_ & (Hreg & Hown & _ & _) & _).
  destruct (reachable_ids_inv randomUUID JSON_parse randomUUID_inj s Hreach)
    as [Hnd _].
  destruct (removeItem_spec id0 s) as (Hq & Hm & Hr & _).
  fold s' in Hq, Hm, Hr. rewrite Hq, Hm, Hr.
  split_and!; try reflexivity.
  - intros h t [Hh Hne]%cleared_lookup Hid. apply Hne.
    rewrite <- Hid. apply Hreg, Hh.
  - intros h Hh. rewrite Hh. simpl. apply lookup_delete_eq.
  - intros Hin. destruct (filter_out_unique id0 (queue s) Hnd Hin)
      as (l1 & item & l2 & H1 & H2 & H3). eauto 10.
  - intros Hout. apply filter_keep_all. intros x Hx Heq. apply Hout.
    rewrite <- Heq. apply list_elem_of_fmap. eauto.
  - intros h t Hh Hid. apply cleared_lookup. split; [exact Hh|].
    intros Href. apply Hid. eapply Hown; eassumption.
Qed.

(** C8. In every state the downloader can reach no two queued items share
    an id, and a step keeps it so: the ids of the queue after the step are
    ids the queue had, in their order, and ids drawn by this very step,
    which differ from one another and from every id of the queue before. *)
Theorem queue_ids_unique s e :
  reachable randomUUID JSON_parse s ->
  valid_event e ->
  let s' := step randomUUID JSON_parse s e in
  NoDup (map id (queue s))
  /\ NoDup (map id (queue s'))
  /\ exists new kept,
       map id (queue s') ≡ₚ new ++ kept
       /\ kept `sublist_of` map id (queue s)
       /\ NoDup new
       /\ forall x, x ∈ new ->
            issued_in randomUUID (uuids s) (uuids s') x
            /\ x ∉ map id (queue s).
Proof.
  intros Hreach Hvalid s'.
  pose proof (reachable_ids_inv randomUUID JSON_parse randomUUID_inj s Hreach)
    as Hinv.
  pose proof (ids_step_step randomUUID JSON_parse randomUUID_inj s e) as Hstep.
  fold s' in Hstep.
  destruct (ids_inv_step randomUUID randomUUID_inj s s' Hstep Hinv) as [Hnd' _].
  destruct Hinv as [Hnd Hold].
  destruct Hstep as (_ & new & kept & Hperm & Hsub & Hnew & Hissued).
  split_and!; [exact Hnd | exact Hnd' |].
  exists new, kept. split_and!; auto.
  intros x Hx. split; [apply Hissued, Hx|].
  intros Hin. destruct (Hissued x Hx) as (k & Hk & ->).
  destruct (Hold _ Hin) as (k' & Hk' & Heq).
  apply randomUUID_inj in Heq. lia.
Qed.

End Claims.

(** * The claims at concrete inputs *)

(** The first item of the queue a run ends with. *)
Definition demo_head (es : list Event) : BatchItem :=
  hd (newBatchItem demo_uuid video 0 0 []) (queue (demo_run es)).

Lemma demo_queue_single es :
  length (queue (demo_run es)) = 1 ->
  queue (demo_run es) = [demo_head es].
Proof.
  unfold demo_head. destruct (queue (demo_run es)) as [|i [|j q]]; simpl;
    intros H; try discriminate. reflexivity.
Qed.

Lemma demo_head_queued es :
  length (queue (demo_run es)) = 1 -> demo_head es ∈ queue (demo_run es).
Proof.
  intros H. rewrite (demo_queue_single es H). apply list_elem_of_here.
Qed.

Lemma demo_lengths :
  length (queue (demo_run events_analyzing)) = 1
  /\ length (queue (demo_run events_ready)) = 1
  /\ length (queue (demo_run events_halfway)) = 1
  /\ length (queue (demo_run events_completed)) = 1.
Proof. vm_compute. repeat split. Qed.

(** C1 at a state whose history already holds the link: the entry is
    replaced, not doubled. *)
Lemma addToHistory_capped_unique_witness :
  reachable demo_uuid demo_parse (demo_run events_downloading)
  /\ isValid demo_result = true
  /\ length (history (addToHistory 2000 2001 (js "0.7") demo_result demo_link
                        (demo_run events_downloading))) <= 5
  /\ NoDup (urls_of (history (addToHistory 2000 2001 (js "0.7") demo_result
                                demo_link (demo_run events_downloading)))).
Proof.
  split; [apply reachable_demo, valid_downloading|]. split; [reflexivity|].
  destruct (addToHistory_capped_unique demo_uuid demo_parse 2000 2001 (js "0.7")
              demo_result demo_link (demo_run events_downloading)
              (reachable_demo _ valid_downloading) eq_refl) as (_ & H1 & H2 & _).
  split; assumption.
Defined.

(** C3 at the item of a run that has analysed one link. *)
Lemma status_five_values_witness :
  status (demo_head events_ready) ∈ live_statuses.
Proof.
  apply (status_five_values demo_uuid demo_parse (demo_run events_ready)
           (demo_head events_ready)).
  - apply reachable_demo, valid_ready.
  - apply demo_head_queued, demo_lengths.
Defined.

(** C4 when the SDK throws. *)
Lemma analyzeLink_errors_caught_witness :
  Gemini.analyzeLink demo_parse (fun _ => Thrown Falsy) demo_link
  = Returned Gemini.fallback.
Proof.
  apply (analyzeLink_errors_caught demo_parse (fun _ => Thrown Falsy) demo_link).
  exact I.
Defined.

(** C6 at the ready item of a run, expanded into five sub-items. *)
Lemma expandPlaylist_replaces_in_place_witness :
  queue (expandPlaylist demo_uuid (demo_uuid 0) (js "YouTube") (1 # 2)
           (demo_run events_ready))
  = take 0 (queue (demo_run events_ready))
    ++ playlist_items demo_uuid (demo_head events_ready) (js "YouTube") (1 # 2)
         (demo_run events_ready)
    ++ drop 1 (queue (demo_run events_ready)).
Proof.
  apply (expandPlaylist_replaces_in_place demo_uuid (demo_uuid 0) (js "YouTube")
           (1 # 2) (demo_run events_ready)).
  vm_compute. reflexivity.
Defined.

(** C7 at an item that is half-way through its download. *)
Lemma removeItem_clears_timer_witness :
  queue (removeItem (demo_uuid 0) (demo_run events_halfway))
  = filter (fun i => id i <> demo_uuid 0) (queue (demo_run events_halfway))
  /\ forall h t, intervals (removeItem (demo_uuid 0) (demo_run events_halfway)) !! h
                 = Some t -> t_itemId t <> demo_uuid 0.
Proof.
  destruct (removeItem_clears_timer demo_uuid demo_parse demo_uuid_inj
              (demo_run events_halfway) (demo_uuid 0)
              (reachable_demo _ valid_halfway)) as (H1 & _ & H3 & _).
  split; assumption.
Defined.

(** C8 at the expansion of a playlist. *)
Lemma queue_ids_unique_witness :
  NoDup (map id (queue (step demo_uuid demo_parse (demo_run events_ready)
                          (ExpandPlaylist (demo_uuid 0) (js "YouTube") (1 # 2))))).
Proof.
  destruct (queue_ids_unique demo_uuid demo_parse demo_uuid_inj
              (demo_run events_ready)
              (ExpandPlaylist (demo_uuid 0) (js "YouTube") (1 # 2))
              (reachable_demo _ valid_ready) unit_interval_half) as (_ & H & _).
  exact H.
Defined.

(** C9 at a completed item. *)
Lemma progress_within_bounds_witness :
  (0 <= progress (demo_head events_completed) <= 100)%Z
  /\ progress (demo_head events_completed) = 100%Z.
Proof.
  destruct (progress_within_bounds demo_uuid demo_parse (demo_run events_completed)
              (demo_head events_completed)
              (reachable_demo _ valid_completed)
              (demo_head_queued _ (proj2 (proj2 (proj2 demo_lengths)))))
    as (H1 & H2 & _).
  split; [exact H1|]. apply H2. vm_compute. reflexivity.
Defined.



(** * Further properties of the code *)

(** ** The links a text holds *)

Lemma stripPrefix_Some p s r : stripPrefix p s = Some r -> s = p ++ r.
Proof.
  revert s. induction p as [|a p IH]; intros [|b s]; simpl; try discriminate.
  - intros [= <-]. reflexivity.
  - intros [= <-]. reflexivity.
  - destruct (a =? b)%N eqn:Hab; [|discriminate].
    apply N.eqb_eq in Hab. subst b. intros H. f_equal. apply IH, H.
Qed.

Lemma stripPrefix_before p a w b :
  (forall c, c ∈ p -> c <> w) ->
  stripPrefix p (a ++ w :: b) = (fun r => r ++ w :: b) <$> stripPrefix p a.
Proof.
  revert a. induction p as [|c p IH]; intros a Hp; [reflexivity|].
  destruct a as [|d a]; simpl.
  - destruct (c =? w)%N eqn:Hcw; [|reflexivity].
    apply N.eqb_eq in Hcw. destruct (Hp c); [apply list_elem_of_here | exact Hcw].
  - destruct (c =? d)%N; [|reflexivity].
    apply IH. intros x Hx. apply Hp, list_elem_of_further, Hx.
Qed.

Lemma nonSpaces_split s :
  exists rest, s = nonSpaces s ++ rest
    /\ Forall (fun c => isWhitespace c = false) (nonSpaces s)
    /\ (rest = [] \/ exists w rest', rest = w :: rest' /\ isWhitespace w = true).
Proof.
  induction s as [|c s (rest & Hs & Hall & Hrest)]; simpl.
  - exists []. split_and!; [reflexivity | constructor | left; reflexivity].
  - destruct (isWhitespace c) eqn:Hc.
    + exists (c :: s). split_and!; [reflexivity | constructor |].
      right. exists c, s. split; [reflexivity | exact Hc].
    + exists rest. split_and!; [simpl; congruence | constructor; assumption | exact Hrest].
Qed.

Lemma nonSpaces_before a w b :
  isWhitespace w = true -> nonSpaces (a ++ w :: b) = nonSpaces a.
Proof.
  intros Hw. induction a as [|c a IH]; simpl.
  - rewrite Hw. reflexivity.
  - destruct (isWhitespace c); [reflexivity | f_equal; exact IH].
Qed.

(** What a link looks like: a scheme, the separator and a run without
    white space that is not empty. *)
Definition link_shape (m : jsstring) : Prop :=
  exists scheme run,
    (scheme = js "http" \/ scheme = js "https")
    /\ m = scheme ++ js "://" ++ run
    /\ run <> []
    /\ Forall (fun c => isWhitespace c = false) m.

(** [m] stands in [text] and runs up to the next white space or to the
    end of the text. *)
Definition stands_in (m text : jsstring) : Prop :=
  exists before after,
    text = before ++ m ++ after
    /\ (after = [] \/ exists w rest, after = w :: rest /\ isWhitespace w = true).

Lemma match_here_Some s m :
  match_here s = Some m ->
  link_shape m
  /\ exists after, s = m ++ after
       /\ (after = [] \/ exists w rest, after = w :: rest /\ isWhitespace w = true).
Proof.
  unfold match_here.
  destruct (stripPrefix (js "http") s) as [r|] eqn:Hr; [|discriminate].
  apply stripPrefix_Some in Hr.
  set (pick := match r with
               | c :: t => if (c =? 115)%N then (js "https", t) else (js "http", r)
               | [] => (js "http", r)
               end).
  assert (exists scheme r1, pick = (scheme, r1)
            /\ (scheme = js "http" \/ scheme = js "https")
            /\ s = scheme ++ r1) as (scheme & r1 & Hpick & Hscheme & Hs).
  { subst pick. destruct r as [|c t].
    - exists (js "http"), []. split_and!; auto.
    - destruct (c =? 115)%N eqn:Hc.
      + apply N.eqb_eq in Hc. subst c. exists (js "https"), t.
        split_and!; auto.
      + exists (js "http"), (c :: t). split_and!; auto. }
  rewrite Hpick. clear Hpick pick Hr r.
  destruct (stripPrefix (js "://") r1) as [r2|] eqn:Hr2; [|discriminate].
  apply stripPrefix_Some in Hr2.
  destruct (nonSpaces_split r2) as (rest & Hsplit & Hall & Hrest).
  destruct (nonSpaces r2) as [|c run] eqn:Hrun; [discriminate|].
  intros Hm.
  assert (m = scheme ++ js "://" ++ c :: run) as -> by congruence.
  clear Hm. split.
  - exists scheme, (c :: run).
    split; [exact Hscheme|]. split; [reflexivity|]. split; [discriminate|].
    apply Forall_app. split; [|apply Forall_app; split; [|exact Hall]].
    + destruct Hscheme as [-> | ->]; vm_compute; repeat constructor.
    + vm_compute. repeat constructor.
  - exists rest. split; [|exact Hrest].
    rewrite Hs, Hr2, Hsplit, <- !app_assoc. reflexivity.
Qed.

(** The two halves of [match_here], after the letters [http]. *)
Definition pick_scheme (r : jsstring) : jsstring * jsstring :=
  match r with
  | c :: t => if (c =? 115)%N then (js "https", t) else (js "http", r)
  | [] => (js "http", r)
  end.

Definition after_scheme (scheme r1 : jsstring) : option jsstring :=
  match stripPrefix (js "://") r1 with
  | None => None
  | Some r2 =>
    match nonSpaces r2 with
    | [] => None
    | run => Some (scheme ++ js "://" ++ run)
    end
  end.

Lemma match_here_halves s :
  match_here s
  = match stripPrefix (js "http") s with
    | None => None
    | Some r => after_scheme (fst (pick_scheme r)) (snd (pick_scheme r))
    end.
Proof.
  unfold match_here, after_scheme, pick_scheme.
  destruct (stripPrefix (js "http") s) as [[|c t]|]; try reflexivity.
  destruct (c =? 115)%N; reflexivity.
Qed.

Lemma pick_scheme_before r w b :
  isWhitespace w = true ->
  pick_scheme (r ++ w :: b)
  = (fst (pick_scheme r), snd (pick_scheme r) ++ w :: b).
Proof.
  intros Hw. unfold pick_scheme. destruct r as [|c t].
  - assert ((w =? 115)%N = false) as Hs
      by (apply N.eqb_neq; intros ->; discriminate).
    change ([] ++ w :: b) with (w :: b). cbv iota. rewrite Hs. reflexivity.
  - change ((c :: t) ++ w :: b) with (c :: (t ++ w :: b)). cbv iota beta.
    destruct (c =? 115)%N; reflexivity.
Qed.

Lemma clean_differs p w :
  Forall (fun c => isWhitespace c = false) p -> isWhitespace w = true ->
  forall c, c ∈ p -> c <> w.
Proof.
  intros Hp Hw c Hc ->. rewrite Forall_forall in Hp.
  rewrite (Hp w Hc) in Hw. discriminate.
Qed.

Lemma after_scheme_before scheme r1 w b :
  isWhitespace w = true ->
  after_scheme scheme (r1 ++ w :: b) = after_scheme scheme r1.
Proof.
  intros Hw. unfold after_scheme.
  rewrite (stripPrefix_before (js "://") r1 w b).
  - destruct (stripPrefix (js "://") r1) as [r2|]; [|reflexivity].
    change ((fun r => r ++ w :: b) <$> Some r2) with (Some (r2 ++ w :: b)).
    cbv beta iota. rewrite (nonSpaces_before r2 w b Hw). reflexivity.
  - apply clean_differs; [|exact Hw]. vm_compute. repeat constructor.
Qed.

Lemma match_here_before a w b :
  isWhitespace w = true -> match_here (a ++ w :: b) = match_here a.
Proof.
  intros Hw. rewrite !match_here_halves.
  rewrite (stripPrefix_before (js "http") a w b).
  - destruct (stripPrefix (js "http") a) as [r|]; [|reflexivity].
    change ((fun r => r ++ w :: b) <$> Some r) with (Some (r ++ w :: b)).
    cbv beta iota. rewrite (pick_scheme_before r w b Hw).
    cbn [fst snd]. apply after_scheme_before, Hw.
  - apply clean_differs; [|exact Hw]. vm_compute. repeat constructor.
Qed.

Lemma scan_elem k s m :
  m ∈ scan k s -> link_shape m /\ stands_in m s.
Proof.
  revert k. induction s as [|c t IH]; intros k Hm; [inversion Hm|].
  assert (forall k', m ∈ scan k' t -> link_shape m /\ stands_in m (c :: t)) as Htail.
  { intros k' Hk'. destruct (IH k' Hk') as (Hshape & before & after & Ht & Hafter).
    split; [exact Hshape|]. exists (c :: before), after.
    split; [simpl; congruence | exact Hafter]. }
  simpl in Hm. destruct k as [|k]; [|eapply Htail, Hm].
  destruct (match_here (c :: t)) as [m0|] eqn:Hhere; [|eapply Htail, Hm].
  apply elem_of_cons in Hm as [->|Hm]; [|eapply Htail, Hm].
  destruct (match_here_Some _ _ Hhere) as (Hshape & after & Hs & Hafter).
  split; [exact Hshape|]. exists [], after. split; [exact Hs | exact Hafter].
Qed.

Lemma match_here_length s m : match_here s = Some m -> length m <= length s.
Proof.
  intros H. destruct (match_here_Some s m H) as (_ & after & -> & _).
  rewrite length_app. lia.
Qed.

Lemma scan_before a w b k :
  isWhitespace w = true -> k <= length a ->
  scan k (a ++ w :: b) = scan k a ++ scan 0 b.
Proof.
  intros Hw. revert k. induction a as [|c t IH]; intros k Hk.
  - simpl in Hk. replace k with 0 by lia. simpl.
    rewrite (match_here_whitespace w b Hw). reflexivity.
  - simpl length in Hk. destruct k as [|k].
    + change (scan 0 ((c :: t) ++ w :: b))
        with (match match_here ((c :: t) ++ w :: b) with
              | Some m => m :: scan (length m - 1) (t ++ w :: b)
              | None => scan 0 (t ++ w :: b)
              end).
      rewrite (match_here_before (c :: t) w b Hw).
      change (scan 0 (c :: t))
        with (match match_here (c :: t) with
              | Some m => m :: scan (length m - 1) t
              | None => scan 0 t
              end).
      destruct (match_here (c :: t)) as [m|] eqn:Hm.
      * apply match_here_length in Hm. simpl in Hm.
        rewrite IH by lia. reflexivity.
      * apply IH. lia.
    + change (scan (S k) ((c :: t) ++ w :: b)) with (scan k (t ++ w :: b)).
      change (scan (S k) (c :: t)) with (scan k t).
      apply IH. lia.
Qed.

(** X1. Every link [extractUrls] returns is [http] or [https], the
    separator and at least one more code unit, holds no white space,
    stands in the text, and runs up to the next white space or to the end
    of the text. *)
Theorem extractUrls_links text m :
  m ∈ extractUrls text -> link_shape m /\ stands_in m text.
Proof. intros Hm. unfold extractUrls in Hm. eapply scan_elem, Hm. Qed.

(** X1 at a text that holds a link twice. *)
Lemma extractUrls_links_witness :
  link_shape demo_link /\ stands_in demo_link (demo_link ++ js " " ++ demo_link).
Proof.
  apply (extractUrls_links (demo_link ++ js " " ++ demo_link) demo_link).
  replace (extractUrls (demo_link ++ js " " ++ demo_link))
    with [demo_link; demo_link] by (vm_compute; reflexivity).
  apply list_elem_of_here.
Defined.

(** X2. Extraction goes through white space: the links of two texts
    joined by a white space character are the links of the first followed
    by the links of the second. *)
Theorem extractUrls_joined a w b :
  isWhitespace w = true ->
  extractUrls (a ++ w :: b) = extractUrls a ++ extractUrls b.
Proof.
  intros Hw. unfold extractUrls. apply scan_before; [exact Hw | lia].
Qed.

Lemma extractUrls_joined_witness :
  extractUrls (js "ver https://a.b" ++ 10%N :: js "http://c.d fin")
  = extractUrls (js "ver https://a.b") ++ extractUrls (js "http://c.d fin").
Proof. apply extractUrls_joined. reflexivity. Defined.

(** X3. After [handlePaste] the box holds the links it held before,
    followed by the links of the clipboard: the pasted text never merges
    with, cuts or hides a link that was there. *)
Theorem handlePaste_links clipboard s :
  extractUrls (inputText (handlePaste clipboard s))
  = extractUrls (inputText s) ++ extractUrls clipboard.
Proof.
  unfold handlePaste. destruct clipboard as [|c clip].
  - unfold extractUrls at 3. simpl. rewrite app_nil_r. reflexivity.
  - simpl. destruct (inputText s) as [|d prev] eqn:Hin.
    + reflexivity.
    + exact (scan_before (d :: prev) 10%N (c :: clip) 0 eq_refl (Nat.le_0_l _)).
Qed.

(** ** What [handleAnalyzeBatch] does besides growing the queue *)

Lemma Set_fold_keeps l acc :
  NoDup (acc ++ l) -> fold_left Set_add l acc = acc ++ l.
Proof.
  revert acc. induction l as [|x l IH]; intros acc Hnd; simpl.
  - rewrite app_nil_r. reflexivity.
  - assert (x ∉ acc) as Hx.
    { apply NoDup_app in Hnd as (_ & Hdis & _). intros Hin.
      apply (Hdis x Hin), list_elem_of_here. }
    unfold Set_add at 2. rewrite bool_decide_eq_false_2 by exact Hx.
    rewrite IH; rewrite <- app_assoc; [reflexivity | exact Hnd].
Qed.

Lemma Set_fold_sublist l acc :
  exists k, fold_left Set_add l acc = acc ++ k /\ k `sublist_of` l.
Proof.
  revert acc. induction l as [|x l IH]; intros acc; simpl.
  - exists []. rewrite app_nil_r. split; reflexivity.
  - unfold Set_add at 2. case_bool_decide as Hx.
    + destruct (IH acc) as (k & Hk & Hsub). exists k.
      split; [exact Hk | apply sublist_cons, Hsub].
    + destruct (IH (acc ++ [x])) as (k & Hk & Hsub). exists (x :: k).
      split; [rewrite Hk, <- app_assoc; reflexivity | apply sublist_skip, Hsub].
Qed.

Lemma Array_from_Set_sublist l : Array_from_Set l `sublist_of` l.
Proof.
  destruct (Set_fold_sublist l []) as (k & Hk & Hsub).
  unfold Array_from_Set. rewrite Hk. exact Hsub.
Qed.

Lemma Array_from_Set_keeps l : NoDup l -> Array_from_Set l = l.
Proof. intros Hnd. apply (Set_fold_keeps l []), Hnd. Qed.

Section BatchEffects.

Variable randomUUID : nat -> jsstring.

Lemma batch_items_nil s :
  extractUrls (inputText s) = [] -> batch_items randomUUID s = [].
Proof.
  intros H. pose proof (batch_items_urls randomUUID s) as Hu.
  rewrite H in Hu. destruct (batch_items randomUUID s); [reflexivity | discriminate].
Qed.

Lemma handleAnalyzeBatch_idle s :
  extractUrls (inputText s) = [] -> handleAnalyzeBatch randomUUID s = s.
Proof.
  intros H. unfold handleAnalyzeBatch. rewrite H.
  destruct (trim (inputText s)); reflexivity.
Qed.

Lemma handleAnalyzeBatch_busy s :
  extractUrls (inputText s) <> [] ->
  let s' := handleAnalyzeBatch randomUUID s in
  inputText s' = []
  /\ analyses s' = analyses s ++ batch_items randomUUID s
  /\ permissions s' = permissions s /\ timeouts s' = timeouts s
  /\ history s' = history s.
Proof.
  intros H. unfold handleAnalyzeBatch, batch_items.
  destruct (trim (inputText s)) eqn:Ht;
    [destruct H; apply extractUrls_blank, Ht|].
  destruct (Array_from_Set (extractUrls (inputText s))) eqn:Hu.
  - destruct H. destruct (extractUrls (inputText s)) as [|x l]; [reflexivity|].
    assert (x ∈ Array_from_Set (x :: l)) as Hx
      by (apply Array_from_Set_elem, list_elem_of_here).
    rewrite Hu in Hx. inversion Hx.
  - repeat split.
Qed.

(** X4. A text that holds no link (an empty or blank one too) makes
    [handleAnalyzeBatch] do nothing at all: the text stays in the box.
    Otherwise the box is emptied and one analysis is started per distinct
    link of the text, also for the links that are already queued and get
    no new item. *)
Theorem handleAnalyzeBatch_effects s :
  let s' := handleAnalyzeBatch randomUUID s in
  (extractUrls (inputText s) = [] -> s' = s)
  /\ (extractUrls (inputText s) <> [] ->
      inputText s' = []
      /\ (exists started,
            analyses s' = analyses s ++ started
            /\ map url started = Array_from_Set (extractUrls (inputText s))
            /\ NoDup (map url started)
            /\ forall u, u ∈ map url started <-> u ∈ extractUrls (inputText s))
      /\ uuids s' = uuids s + length (Array_from_Set (extractUrls (inputText s)))
      /\ history s' = history s).
Proof.
  split; [apply handleAnalyzeBatch_idle|].
  intros Hlinks.
  destruct (handleAnalyzeBatch_busy s Hlinks) as (Hin & Han & _ & _ & Hh).
  split_and!; [exact Hin | | | exact Hh].
  - exists (batch_items randomUUID s). split_and!; [exact Han | apply batch_items_urls | |].
    + rewrite batch_items_urls. apply Array_from_Set_NoDup.
    + intros u. rewrite batch_items_urls. apply Array_from_Set_elem.
  - rewrite handleAnalyzeBatch_uuids, <- (length_map url), batch_items_urls.
    reflexivity.
Qed.

(** X5. The new items stand in front of the queue in the order of their
    links in the text: their links are a subsequence of the links
    extracted, and when the text holds no link twice they are exactly the
    extracted links that no queued item carries. *)
Theorem handleAnalyzeBatch_order s :
  exists added,
    queue (handleAnalyzeBatch randomUUID s) = added ++ queue s
    /\ map url added `sublist_of` extractUrls (inputText s)
    /\ (NoDup (extractUrls (inputText s)) ->
        map url added
        = filter (fun u => u ∉ map url (queue s)) (extractUrls (inputText s))).
Proof.
  set (P := fun i : BatchItem => url i ∉ map url (queue s)).
  exists (filter P (batch_items randomUUID s)).
  assert (forall l : list BatchItem,
            map url (filter P l)
            = filter (fun u => u ∉ map url (queue s)) (map url l)) as Hcomm.
  { induction l as [|i l IH]; [reflexivity|].
    rewrite filter_cons. simpl map. rewrite filter_cons.
    unfold P at 1. destruct (decide (url i ∉ map url (queue s)));
      simpl; rewrite IH; reflexivity. }
  split_and!.
  - apply handleAnalyzeBatch_queue.
  - rewrite Hcomm, batch_items_urls.
    etransitivity; [apply sublist_filter | apply Array_from_Set_sublist].
  - intros Hnd. rewrite Hcomm, batch_items_urls, Array_from_Set_keeps by exact Hnd.
    reflexivity.
Qed.

End BatchEffects.

(** ** The history and the stored key *)

Definition stored_history (st : option (list HistoryItem)) : list HistoryItem :=
  match st with Some l => l | None => [] end.

(** No entry of the history carries the marker of a playlist sub-item. *)
Definition plain_links (h : list HistoryItem) : Prop :=
  Forall (fun item => includes (js "&index=") (h_url item) = false) h.

Definition persist_inv (s : State) : Prop :=
  history s = stored_history (localStorage s) /\ plain_links (history s).

Lemma persist_inv_keeps f s :
  keeps_history f -> persist_inv s -> persist_inv (f s).
Proof.
  intros Hf Hs. destruct (Hf s) as [Hh Hl]. unfold persist_inv.
  rewrite Hh, Hl. exact Hs.
Qed.

Lemma addToHistory_persist now1 now2 rand resultData link s :
  includes (js "&index=") link = false ->
  persist_inv s -> persist_inv (addToHistory now1 now2 rand resultData link s).
Proof.
  intros Hlink [Hsync Hplain]. unfold addToHistory.
  destruct (negb (isValid resultData)); [split; assumption|].
  split; [reflexivity|]. simpl. unfold addToHistory_updated, plain_links.
  apply Forall_take. constructor; [exact Hlink|].
  apply Forall_forall. intros x [_ Hx]%list_elem_of_filter.
  unfold plain_links in Hplain. rewrite Forall_forall in Hplain. auto.
Qed.

Lemma startDownload_resume_history k now1 now2 rand s :
  let s' := startDownload_resume k now1 now2 rand s in
  match permissions s !! k with
  | Some (_, item) =>
    match result item with
    | Some r =>
      if negb (includes (js "&index=") (url item))
      then history s' = history (addToHistory now1 now2 rand r (url item) s)
           /\ localStorage s'
              = localStorage (addToHistory now1 now2 rand r (url item) s)
      else history s' = history s /\ localStorage s' = localStorage s
    | None => history s' = history s /\ localStorage s' = localStorage s
    end
  | None => s' = s
  end.
Proof.
  unfold startDownload_resume.
  destruct (permissions s !! k) as [[itemId item]|]; [|reflexivity].
  set (s0 := set_permissions _ s).
  destruct (result item) as [r|].
  - destruct (negb (includes (js "&index=") (url item))).
    + unfold clearInterval. simpl.
      destruct (intervalsRef (addToHistory now1 now2 rand r (url item) s0) !! itemId);
        simpl; unfold addToHistory; destruct (negb (isValid r)); split; reflexivity.
    + unfold clearInterval. simpl.
      destruct (intervalsRef s !! itemId); split; reflexivity.
  - unfold clearInterval. simpl.
    destruct (intervalsRef s !! itemId); split; reflexivity.
Qed.

Section Persistence.

Variable randomUUID : nat -> jsstring.
Variable JSON_parse : jsstring -> option AnalysisResult.

Lemma startDownload_resume_persist k now1 now2 rand s :
  persist_inv s -> persist_inv (startDownload_resume k now1 now2 rand s).
Proof.
  intros Hs. pose proof (startDownload_resume_history k now1 now2 rand s) as H.
  simpl in H.
  destruct (permissions s !! k) as [[itemId item]|]; [|rewrite H; exact Hs].
  assert (forall s1, history (startDownload_resume k now1 now2 rand s) = history s1 ->
            localStorage (startDownload_resume k now1 now2 rand s) = localStorage s1 ->
            persist_inv s1 -> persist_inv (startDownload_resume k now1 now2 rand s))
    as Hsame.
  { intros s1 Hh Hl Hs1. unfold persist_inv. rewrite Hh, Hl. exact Hs1. }
  destruct (result item) as [r|]; [|destruct H; eapply Hsame; eassumption].
  destruct (includes (js "&index=") (url item)) eqn:Hinc; simpl in H;
    destruct H as [Hh Hl]; [eapply Hsame; eassumption|].
  apply (Hsame _ Hh Hl). apply addToHistory_persist; assumption.
Qed.

Lemma step_persist_inv s e :
  persist_inv s -> persist_inv (step randomUUID JSON_parse s e).
Proof.
  intros Hs. destruct e; simpl.
  - exact Hs.
  - unfold handlePaste. repeat case_match; exact Hs.
  - exact Hs.
  - apply persist_inv_keeps; [apply handleAnalyzeBatch_keeps_history | exact Hs].
  - apply persist_inv_keeps; [apply analysisDone_keeps_history | exact Hs].
  - apply persist_inv_keeps; [apply expandPlaylist_keeps_history | exact Hs].
  - apply persist_inv_keeps; [apply startDownload_keeps_history | exact Hs].
  - apply startDownload_resume_persist, Hs.
  - apply persist_inv_keeps; [apply tick_keeps_history | exact Hs].
  - exact Hs.
  - apply persist_inv_keeps; [apply timeoutFires_keeps_history | exact Hs].
  - apply persist_inv_keeps; [apply removeItem_keeps_history | exact Hs].
  - split; [reflexivity | constructor].
  - destruct Hs as [Hsync Hplain]. split; [reflexivity|].
    simpl. fold (stored_history (localStorage s)). rewrite <- Hsync. exact Hplain.
Qed.

Lemma reachable_persist_inv s :
  reachable randomUUID JSON_parse s -> persist_inv s.
Proof.
  induction 1 as [|s e _ IH _].
  - split; [reflexivity | constructor].
  - apply step_persist_inv, IH.
Qed.

(** X6. The history survives a reload: in every state the downloader can
    reach, the history on screen is what the stored key holds, so the
    component that mounts after a reload shows the same history, with an
    empty queue and no timer; and after [clearHistory] a reload shows
    none. *)
Theorem history_survives_reload s :
  reachable randomUUID JSON_parse s ->
  let reloaded := step randomUUID JSON_parse s Reload in
  history s = stored_history (localStorage s)
  /\ history reloaded = history s
  /\ queue reloaded = []
  /\ intervals reloaded = ∅
  /\ history (step randomUUID JSON_parse (clearHistory s) Reload) = [].
Proof.
  intros Hreach reloaded.
  destruct (reachable_persist_inv s Hreach) as [Hsync _].
  split_and!; try reflexivity; [exact Hsync|].
  subst reloaded. simpl. fold (stored_history (localStorage s)).
  symmetry. exact Hsync.
Qed.

(** X7. A link that holds the text [&index=] never enters the history:
    neither the sub-items of an expanded playlist, whose links end in it,
    nor a pasted link that happens to hold it. *)
Theorem history_without_sub_items s item :
  reachable randomUUID JSON_parse s ->
  item ∈ history s ->
  includes (js "&index=") (h_url item) = false.
Proof.
  intros Hreach Hitem.
  destruct (reachable_persist_inv s Hreach) as [_ Hplain].
  unfold plain_links in Hplain. rewrite Forall_forall in Hplain. auto.
Qed.

End Persistence.

(** X6 and X7 at a run that has started a download. *)
Lemma history_survives_reload_witness :
  history (step demo_uuid demo_parse (demo_run events_downloading) Reload)
  = history (demo_run events_downloading).
Proof.
  apply (history_survives_reload demo_uuid demo_parse (demo_run events_downloading)).
  apply reachable_demo, valid_downloading.
Defined.

Definition demo_entry : HistoryItem :=
  hd {| h_id := []; h_url := []; h_platform := []; h_timestamp := 0; h_summary := [] |}
     (history (demo_run events_downloading)).

Lemma history_without_sub_items_witness :
  includes (js "&index=") (h_url demo_entry) = false.
Proof.
  apply (history_without_sub_items demo_uuid demo_parse (demo_run events_downloading)).
  - apply reachable_demo, valid_downloading.
  - replace (history (demo_run events_downloading)) with [demo_entry]
      by (vm_compute; reflexivity).
    apply list_elem_of_here.
Defined.

Lemma stripPrefix_self p b : stripPrefix p (p ++ b) = Some b.
Proof.
  induction p as [|c p IH]; simpl; [reflexivity|].
  rewrite N.eqb_refl. exact IH.
Qed.

Lemma includes_infix p a b : includes p (a ++ p ++ b) = true.
Proof.
  induction a as [|c a IH].
  - assert (startsWith p (p ++ b) = true) as Hs
      by (unfold startsWith; rewrite stripPrefix_self; reflexivity).
    simpl app. destruct (p ++ b); simpl; rewrite Hs; reflexivity.
  - simpl. rewrite IH. apply orb_true_r.
Qed.

Section SubItems.

Variable randomUUID : nat -> jsstring.

Lemma playlist_items_marked item platform0 random s n :
  n ∈ playlist_items randomUUID item platform0 random s ->
  includes (js "&index=") (url n) = true.
Proof.
  intros Hn.
  destruct (playlist_items_created randomUUID item platform0 random s n Hn)
    as (_ & _ & (i & _ & _ & ->) & _).
  apply includes_infix.
Qed.

(** X8. Starting the download of a playlist sub-item leaves the history
    and the stored key as they are, whatever state the download starts
    in. *)
Theorem sub_item_download_keeps_history k now1 now2 rand s itemId n
    item platform0 random s0 :
  permissions s !! k = Some (itemId, n) ->
  n ∈ playlist_items randomUUID item platform0 random s0 ->
  history (startDownload_resume k now1 now2 rand s) = history s
  /\ localStorage (startDownload_resume k now1 now2 rand s) = localStorage s.
Proof.
  intros Hk Hn.
  pose proof (startDownload_resume_history k now1 now2 rand s) as H.
  simpl in H. rewrite Hk in H.
  rewrite (playlist_items_marked item platform0 random s0 n Hn) in H.
  destruct (result n); exact H.
Qed.

End SubItems.

(** ** One interval per item, and how long a download takes *)

Section Timers.

Variable randomUUID : nat -> jsstring.
Variable JSON_parse : jsstring -> option AnalysisResult.

(** X9. In every state the downloader can reach an item is driven by at
    most one interval, the one the timer map registers for it: two
    running intervals for the same id are the same interval, however
    often the download was started. *)
Theorem one_interval_per_item s h1 t1 h2 t2 :
  reachable randomUUID JSON_parse s ->
  intervals s !! h1 = Some t1 ->
  intervals s !! h2 = Some t2 ->
  t_itemId t1 = t_itemId t2 ->
  h1 = h2 /\ intervalsRef s !! t_itemId t1 = Some h1.
Proof.
  intros Hreach H1 H2 Hid.
  destruct (reachable_Inv randomUUID JSON_parse s Hreach) as (_ & (Hreg & _) & _).
  pose proof (Hreg h1 t1 H1) as R1. pose proof (Hreg h2 t2 H2) as R2.
  rewrite Hid in R1. split; [congruence|]. rewrite Hid. exact R1.
Qed.







(** Ticks of one interval, each with its two random readings. *)
Definition ticks (h : positive) (rs : list (Q * Q)) (s : State) : State :=
  fold_left (fun s0 r => tick h (fst r) (snd r) s0) rs s.

Definition valid_readings (rs : list (Q * Q)) : Prop :=
  Forall (fun r => unit_interval (fst r) /\ unit_interval (snd r)) rs.


Lemma ticks_reachable h rs s :
  valid_readings rs ->
  reachable randomUUID JSON_parse s ->
  reachable randomUUID JSON_parse (ticks h rs s).
Proof.
  intros Hrs. revert s. induction Hrs as [|r rs Hr _ IH]; intros s Hs; [exact Hs|].
  simpl. apply IH.
  apply (reachable_step randomUUID JSON_parse s (Tick h (fst r) (snd r)) Hs Hr).
Qed.






End Timers.

(** ** The figures of the summary card *)

Definition totalItems (q : list BatchItem) : nat := length q.

Definition readyCount (q : list BatchItem) : nat :=
  length (filter (fun i => status i = ready) q).

Definition completedItems (q : list BatchItem) : nat :=
  length (filter (fun i => status i = completed) q).

(** [queue.reduce((acc, item) => acc + item.progress, 0)] *)
Definition progressSum (q : list BatchItem) : Z :=
  fold_left (fun acc item => (acc + progress item)%Z) q 0%Z.

Definition overallProgress (q : list BatchItem) : Z :=
  if bool_decide (0 < totalItems q)
  then Math_round (inject_Z (progressSum q) / inject_Z (Z.of_nat (totalItems q)))
  else 0%Z.

Lemma progress_fold q a :
  fold_left (fun acc item => (acc + progress item)%Z) q a
  = (a + progressSum q)%Z.
Proof.
  unfold progressSum. revert a. induction q as [|i q IH]; intros a.
  - simpl. lia.
  - cbn [fold_left]. rewrite IH, (IH (0 + progress i)%Z). lia.
Qed.

Lemma progressSum_cons i q : progressSum (i :: q) = (progress i + progressSum q)%Z.
Proof.
  unfold progressSum at 1. cbn [fold_left]. rewrite progress_fold. lia.
Qed.

Lemma progressSum_bounds q :
  (forall i, i ∈ q -> (0 <= progress i <= 100)%Z) ->
  (0 <= progressSum q <= 100 * Z.of_nat (length q))%Z.
Proof.
  induction q as [|i q IH]; intros Hq.
  - unfold progressSum. simpl. lia.
  - rewrite progressSum_cons. simpl length.
    pose proof (Hq i (list_elem_of_here _ _)).
    pose proof (IH (fun j Hj => Hq j (list_elem_of_further _ _ _ Hj))). lia.
Qed.

Lemma progressSum_full q :
  (forall i, i ∈ q -> progress i = 100%Z) ->
  progressSum q = (100 * Z.of_nat (length q))%Z.
Proof.
  induction q as [|i q IH]; intros Hq.
  - reflexivity.
  - rewrite progressSum_cons. simpl length.
    rewrite (Hq i (list_elem_of_here _ _)).
    rewrite (IH (fun j Hj => Hq j (list_elem_of_further _ _ _ Hj))). lia.
Qed.

Lemma filter_all_length {A} (P : A -> Prop) `{!forall x, Decision (P x)} (l : list A) :
  length (filter P l) = length l -> forall x, x ∈ l -> P x.
Proof.
  induction l as [|y l IH]; intros Hlen x Hx; [inversion Hx|].
  pose proof (length_filter P l) as Hle.
  rewrite filter_cons in Hlen. destruct (decide (P y)) as [Hy|Hy]; simpl in Hlen.
  - apply elem_of_cons in Hx as [->|Hx]; [exact Hy|]. apply IH; [lia | exact Hx].
  - lia.
Qed.

Lemma counts_disjoint q : completedItems q + readyCount q <= totalItems q.
Proof.
  unfold completedItems, readyCount, totalItems.
  induction q as [|i q IH]; [reflexivity|].
  rewrite !filter_cons.
  destruct (decide (status i = completed)) as [Hc|Hc];
    destruct (decide (status i = ready)) as [Hr|Hr]; simpl; try lia.
  congruence.
Qed.

Lemma average_round (a : Z) (n : nat) :
  0 < n -> (0 <= a <= 100 * Z.of_nat n)%Z ->
  (0 <= Math_round (inject_Z a / inject_Z (Z.of_nat n)) <= 100)%Z.
Proof.
  intros Hn Ha.
  assert (0 < inject_Z (Z.of_nat n))%Q as Hpos.
  { change 0%Q with (inject_Z 0). rewrite <- Zlt_Qlt. lia. }
  assert (0 <= inject_Z a / inject_Z (Z.of_nat n))%Q as Hlo.
  { apply Qle_shift_div_l; [exact Hpos|]. rewrite Qmult_0_l.
    change 0%Q with (inject_Z 0). rewrite <- Zle_Qle. lia. }
  assert (inject_Z a / inject_Z (Z.of_nat n) <= 100)%Q as Hhi.
  { apply Qle_shift_div_r; [exact Hpos|].
    change 100%Q with (inject_Z 100). rewrite <- inject_Z_mult, <- Zle_Qle. lia. }
  unfold Math_round. split.
  - apply Qfloor_lower. change (inject_Z 0) with 0%Q. lra.
  - assert (Qfloor (inject_Z a / inject_Z (Z.of_nat n) + (1 # 2)) < 101)%Z; [|lia].
    apply Qfloor_upper. change (inject_Z 101) with 101%Q. lra.
Qed.

Lemma average_full (n : nat) :
  0 < n ->
  Math_round (inject_Z (100 * Z.of_nat n) / inject_Z (Z.of_nat n)) = 100%Z.
Proof.
  intros Hn. rewrite inject_Z_mult.
  assert (~ (inject_Z (Z.of_nat n) == 0)%Q) as Hnz.
  { change 0%Q with (inject_Z 0). rewrite inject_Z_injective. lia. }
  unfold Math_round. rewrite (Qfloor_comp _ ((100 # 1) + (1 # 2))).
  - reflexivity.
  - rewrite Qdiv_mult_l by exact Hnz. reflexivity.
Qed.

Section Summary.

Variable randomUUID : nat -> jsstring.
Variable JSON_parse : jsstring -> option AnalysisResult.

(** X11. In every state the downloader can reach the overall percentage
    of the summary card lies between 0 and 100, is 0 for an empty queue
    and 100 once every item is completed; completed and ready items
    together never outnumber the queue. *)
Theorem overallProgress_bounds s :
  reachable randomUUID JSON_parse s ->
  (0 <= overallProgress (queue s) <= 100)%Z
  /\ overallProgress [] = 0%Z
  /\ (queue s <> [] -> completedItems (queue s) = totalItems (queue s) ->
      overallProgress (queue s) = 100%Z)
  /\ completedItems (queue s) + readyCount (queue s) <= totalItems (queue s).
Proof.
  intros Hreach.
  destruct (reachable_Inv randomUUID JSON_parse s Hreach) as (Hitems & _).
  split_and!.
  - unfold overallProgress. case_bool_decide as Hn; [|lia].
    apply average_round; [exact Hn|].
    apply progressSum_bounds. intros i Hi. apply (Hitems i Hi).
  - unfold overallProgress. case_bool_decide as Hn; [|lia].
    apply average_round; [exact Hn|].
    apply progressSum_bounds. intros i Hi. apply (Hitems i Hi).
  - reflexivity.
  - intros Hne Hall. unfold overallProgress.
    assert (0 < totalItems (queue s)) as Hn.
    { unfold totalItems. destruct (queue s); [contradiction | simpl; lia]. }
    rewrite bool_decide_eq_true_2 by exact Hn.
    rewrite progressSum_full; [apply average_full, Hn|].
    intros i Hi. apply (Hitems i Hi).
    apply (filter_all_length (fun j => status j = completed) (queue s) Hall i Hi).
  - apply counts_disjoint.
Qed.

End Summary.

Lemma overallProgress_bounds_witness :
  (0 <= overallProgress (queue (demo_run events_halfway)) <= 100)%Z.
Proof.
  apply (overallProgress_bounds demo_uuid demo_parse (demo_run events_halfway)).
  apply reachable_demo, valid_halfway.
Defined.

(** ** The life of an item *)

(** The ids some download machinery holds: a pending permission request,
    a pending timeout of the download-all button, or a running
    interval. *)
Definition started (s : State) (x : jsstring) : Prop :=
  x ∈ map fst (permissions s)
  \/ x ∈ map fst (timeouts s)
  \/ exists h t, intervals s !! h = Some t /\ t_itemId t = x.

Definition in_flight : list Status := [ready; downloading; completed].

(** The moves of a status, besides staying as it is. *)
Definition transitions : list (Status * Status) :=
  [(analyzing, ready); (analyzing, error); (ready, downloading);
   (downloading, completed); (completed, downloading)].

Definition allowed (a b : Status) : Prop := a = b \/ (a, b) ∈ transitions.

Record Life (randomUUID : nat -> jsstring) (s : State) : Prop := {
  life_nodup : NoDup (map id (analyses s));
  life_issued :
    forall a, a ∈ analyses s -> issued_in randomUUID 0 (uuids s) (id a);
  life_analyzing :
    forall a i, a ∈ analyses s -> i ∈ queue s -> id i = id a ->
      status i = analyzing;
  life_started_issued :
    forall x, started s x -> issued_in randomUUID 0 (uuids s) x;
  life_started :
    forall x i, started s x -> i ∈ queue s -> id i = x -> status i ∈ in_flight;
  life_timer :
    forall h t i, intervals s !! h = Some t -> i ∈ queue s ->
      id i = t_itemId t -> status i = downloading;
  life_timeouts :
    forall x seen, (x, seen) ∈ timeouts s ->
      exists index item, find_item x seen = Some (index, item)
                         /\ status item = ready
}.

Lemma analyzing_not_in_flight st : st = analyzing -> st ∈ in_flight -> False.
Proof.
  intros -> H. unfold in_flight in H.
  repeat (apply elem_of_cons in H as [H|H]; [discriminate|]). inversion H.
Qed.

Lemma in_flight_to_downloading st : st ∈ in_flight -> allowed st downloading.
Proof.
  unfold in_flight, allowed, transitions. intros H.
  repeat (apply elem_of_cons in H as [->|H]).
  - right. do 2 apply list_elem_of_further. apply list_elem_of_here.
  - left. reflexivity.
  - right. do 4 apply list_elem_of_further. apply list_elem_of_here.
  - inversion H.
Qed.

Lemma issued_in_mono randomUUID n n' x :
  n <= n' -> issued_in randomUUID 0 n x -> issued_in randomUUID 0 n' x.
Proof. intros Hn (k & Hk & ->). exists k. split; [lia | reflexivity]. Qed.

Lemma same_id_same_item (q : list BatchItem) i j :
  NoDup (map id q) -> i ∈ q -> j ∈ q -> id i = id j -> i = j.
Proof.
  intros Hnd (a & Ha)%list_elem_of_lookup_1 (b & Hb)%list_elem_of_lookup_1 Hid.
  assert (a = b) as ->.
  { apply (NoDup_lookup (map id q) a b (id i)); [exact Hnd| |].
    - rewrite list_lookup_fmap, Ha. reflexivity.
    - rewrite list_lookup_fmap, Hb, Hid. reflexivity. }
  congruence.
Qed.

Lemma find_item_in_queue x q index item :
  find_item x q = Some (index, item) -> item ∈ q /\ id item = x.
Proof.
  intros H. destruct (find_item_Some _ _ _ _ H) as (Hq & Hid & _).
  split; [|exact Hid]. rewrite Hq. rewrite elem_of_app, elem_of_cons. auto.
Qed.

Lemma find_item_unique q i :
  NoDup (map id q) -> i ∈ q -> exists index, find_item (id i) q = Some (index, i).
Proof.
  intros Hnd Hi.
  destruct (find_item (id i) q) as [[index item]|] eqn:Hfind.
  - destruct (find_item_in_queue _ _ _ _ Hfind) as [Hitem Hid].
    exists index. rewrite (same_id_same_item q i item Hnd Hi Hitem); auto.
  - pose proof (proj1 (find_item_None _ _) Hfind i Hi) as Hn. destruct Hn. reflexivity.
Qed.

Lemma delete_other_id (l : list BatchItem) k a a' :
  NoDup (map id l) -> l !! k = Some a -> a' ∈ delete k l ->
  a' ∈ l /\ id a' <> id a.
Proof.
  intros Hnd Hk Ha'.
  assert (l = take k l ++ a :: drop (S k) l) as Hl
    by (symmetry; apply take_drop_middle, Hk).
  assert (delete k l = take k l ++ drop (S k) l) as Hd by apply delete_take_drop.
  rewrite Hd in Ha'. rewrite Hl in Hnd.
  rewrite map_app in Hnd. simpl in Hnd.
  apply NoDup_app in Hnd as (_ & Hdis & Hnd2).
  apply NoDup_cons in Hnd2 as [Hnot _].
  apply elem_of_app in Ha' as [Ha'|Ha'].
  - split; [rewrite Hl; apply elem_of_app; auto|].
    intros Heq. apply (Hdis (id a')).
    + apply list_elem_of_fmap. eauto.
    + rewrite Heq. apply list_elem_of_here.
  - split; [rewrite Hl; apply elem_of_app; right; apply list_elem_of_further, Ha'|].
    intros Heq. apply Hnot. rewrite <- Heq. apply list_elem_of_fmap. eauto.
Qed.

Lemma delete_subset {A} (l : list A) k x : x ∈ delete k l -> x ∈ l.
Proof.
  intros H. eapply sublist_subseteq; [apply sublist_delete | exact H].
Qed.

(** What the operations leave of the pending work. *)
Lemma analysisDone_pending JSON_parse k api s item :
  analyses s !! k = Some item ->
  let s' := analysisDone JSON_parse k api s in
  analyses s' = delete k (analyses s)
  /\ permissions s' = permissions s /\ timeouts s' = timeouts s.
Proof. intros Hk. unfold analysisDone. rewrite Hk. repeat split. Qed.

Lemma expandPlaylist_pending randomUUID itemId platform0 random s :
  let s' := expandPlaylist randomUUID itemId platform0 random s in
  analyses s' = analyses s /\ permissions s' = permissions s
  /\ timeouts s' = timeouts s.
Proof.
  unfold expandPlaylist. destruct (find_item itemId (queue s)) as [[? ?]|];
    repeat split.
Qed.

Lemma startDownload_pending seen itemId s :
  let s' := startDownload seen itemId s in
  analyses s' = analyses s /\ timeouts s' = timeouts s
  /\ (permissions s' = permissions s
      \/ exists index item,
           find_item itemId seen = Some (index, item) /\ status item = ready
           /\ permissions s' = permissions s ++ [(itemId, item)]).
Proof.
  unfold startDownload. destruct (find_item itemId seen) as [[index item]|] eqn:Hf;
    [|repeat split; left; reflexivity].
  case_bool_decide as Hst; repeat split; [right; eauto | left; reflexivity].
Qed.

Lemma startDownload_resume_pending k now1 now2 rand s itemId item :
  permissions s !! k = Some (itemId, item) ->
  let s' := startDownload_resume k now1 now2 rand s in
  analyses s' = analyses s /\ timeouts s' = timeouts s
  /\ permissions s' = delete k (permissions s).
Proof.
  intros Hk. unfold startDownload_resume. rewrite Hk.
  set (s0 := set_permissions _ s).
  set (s1 := match result item with Some _ => _ | None => _ end).
  assert (analyses s1 = analyses s /\ timeouts s1 = timeouts s
          /\ permissions s1 = delete k (permissions s)) as (Ha & Ht & Hp).
  { subst s1. destruct (result item); [|repeat split].
    destruct (negb _); [|repeat split].
    unfold addToHistory. destruct (negb _); repeat split. }
  clearbody s1. clear s0. unfold clearInterval. simpl.
  destruct (intervalsRef s1 !! itemId); simpl; rewrite ?Ha, ?Ht, ?Hp; repeat split.
Qed.

Lemma tick_pending h random1 random2 s :
  let s' := tick h random1 random2 s in
  analyses s' = analyses s /\ timeouts s' = timeouts s
  /\ permissions s' = permissions s.
Proof.
  unfold tick. destruct (intervals s !! h) as [t|]; [|repeat split].
  destruct (Qle_bool 100 _); unfold clearInterval; simpl;
    [destruct (intervalsRef s !! t_itemId t)|]; repeat split.
Qed.

Lemma removeItem_pending id0 s :
  let s' := removeItem id0 s in
  analyses s' = analyses s /\ timeouts s' = timeouts s
  /\ permissions s' = permissions s.
Proof.
  unfold removeItem, clearInterval. destruct (intervalsRef s !! id0); repeat split.
Qed.

Lemma assign_status i u st : u_status u = Some st -> status (assign i u) = st.
Proof. intros H. unfold assign. simpl. rewrite H. reflexivity. Qed.

Lemma assign_status_kept i u : u_status u = None -> status (assign i u) = status i.
Proof. intros H. unfold assign. simpl. rewrite H. reflexivity. Qed.

Lemma started_timer s h t : intervals s !! h = Some t -> started s (t_itemId t).
Proof. intros H. right. right. eauto. Qed.

Lemma started_permission s k x item :
  permissions s !! k = Some (x, item) -> started s x.
Proof.
  intros H. left. apply list_elem_of_fmap. exists (x, item).
  split; [reflexivity | eapply list_elem_of_lookup_2, H].
Qed.

Lemma started_timeout s x seen : (x, seen) ∈ timeouts s -> started s x.
Proof.
  intros H. right. left. apply list_elem_of_fmap. exists (x, seen). auto.
Qed.

Lemma started_sub s s' x :
  (forall e, e ∈ permissions s' -> e ∈ permissions s) ->
  (forall e, e ∈ timeouts s' -> e ∈ timeouts s) ->
  (forall h t, intervals s' !! h = Some t -> started s (t_itemId t)) ->
  started s' x -> started s x.
Proof.
  intros Hp Ht Hm [H|[H|(h & t & H & <-)]].
  - left. apply list_elem_of_fmap in H as (e & -> & He).
    apply list_elem_of_fmap. eauto.
  - right. left. apply list_elem_of_fmap in H as (e & -> & He).
    apply list_elem_of_fmap. eauto.
  - eapply Hm, H.
Qed.

Section LifeCycle.

Variable randomUUID : nat -> jsstring.
Variable JSON_parse : jsstring -> option AnalysisResult.
Hypothesis randomUUID_inj : forall m n, randomUUID m = randomUUID n -> m = n.

Lemma fresh_not_issued n n' x :
  issued_in randomUUID 0 n x -> issued_in randomUUID n n' x -> False.
Proof.
  intros (k & Hk & ->) (k' & Hk' & Heq). apply randomUUID_inj in Heq. lia.
Qed.

(** A step that changes no status and adds no pending work. *)
Lemma Life_same_status s s' :
  Life randomUUID s ->
  uuids s <= uuids s' ->
  analyses s' `sublist_of` analyses s ->
  (forall x, started s' x -> started s x) ->
  (forall h t, intervals s' !! h = Some t ->
     exists t0, intervals s !! h = Some t0 /\ t_itemId t0 = t_itemId t) ->
  (forall e, e ∈ timeouts s' -> e ∈ timeouts s) ->
  (forall i', i' ∈ queue s' ->
     exists i, i ∈ queue s /\ id i = id i' /\ status i = status i') ->
  Life randomUUID s'.
Proof.
  intros [L1 L2 L3 L4 L5 L6 L7] Hu Han Hst Hm Hti Hq.
  assert (forall a, a ∈ analyses s' -> a ∈ analyses s) as Han'
    by (intros a; apply sublist_subseteq, Han).
  split.
  - eapply sublist_NoDup; [exact L1 | apply (fmap_sublist id), Han].
  - intros a Ha. apply (issued_in_mono randomUUID (uuids s)); [exact Hu | auto].
  - intros a i' Ha Hi' Hid. destruct (Hq i' Hi') as (i & Hi & Hid' & <-).
    eapply L3; eauto. congruence.
  - intros x Hx. apply (issued_in_mono randomUUID (uuids s)); [exact Hu | auto].
  - intros x i' Hx Hi' Hid. destruct (Hq i' Hi') as (i & Hi & Hid' & <-).
    eapply L5; eauto. congruence.
  - intros h t i' Hh Hi' Hid. destruct (Hq i' Hi') as (i & Hi & Hid' & <-).
    destruct (Hm h t Hh) as (t0 & Ht0 & Hsame).
    eapply L6; eauto. congruence.
  - intros x seen Hx. apply L7, Hti, Hx.
Qed.

(** A step that puts newly created items in the queue, and may start
    their analyses. *)
Lemma Life_fresh s s' new :
  Life randomUUID s -> ids_inv randomUUID s ->
  uuids s <= uuids s' ->
  analyses s' = analyses s ++ new ->
  NoDup (map id new) ->
  (forall b, b ∈ new -> issued_in randomUUID (uuids s) (uuids s') (id b)) ->
  permissions s' = permissions s -> timeouts s' = timeouts s ->
  intervals s' = intervals s ->
  (forall i', i' ∈ queue s' ->
     i' ∈ queue s
     \/ (issued_in randomUUID (uuids s) (uuids s') (id i')
         /\ (new = [] \/ status i' = analyzing))) ->
  Life randomUUID s'.
Proof.
  intros [L1 L2 L3 L4 L5 L6 L7] [_ Hold] Hu Han Hnd Hnew Hp Ht Hm Hq.
  assert (forall x, started s' x <-> started s x) as Hst
    by (intros x; unfold started; rewrite Hp, Ht, Hm; reflexivity).
  assert (forall i, i ∈ queue s -> issued_in randomUUID 0 (uuids s) (id i)) as Hold'.
  { intros i Hi. apply Hold, list_elem_of_fmap. eauto. }
  split.
  - rewrite Han, map_app. apply NoDup_app. split_and!; [exact L1| |exact Hnd].
    intros x (a & -> & Ha)%list_elem_of_fmap (b & Hab & Hb)%list_elem_of_fmap.
    eapply fresh_not_issued; [apply L2, Ha | rewrite Hab; apply Hnew, Hb].
  - intros a Ha. rewrite Han in Ha. apply elem_of_app in Ha as [Ha|Ha].
    + apply (issued_in_mono randomUUID (uuids s)); [exact Hu | auto].
    + destruct (Hnew a Ha) as (k & Hk & ->). exists k. split; [lia | reflexivity].
  - intros a i' Ha Hi' Hid. rewrite Han in Ha.
    apply elem_of_app in Ha as [Ha|Ha]; destruct (Hq i' Hi') as [Hi|[Hf Hs]].
    + eapply L3; eauto.
    + exfalso. eapply fresh_not_issued; [apply L2, Ha | rewrite <- Hid; exact Hf].
    + exfalso. eapply fresh_not_issued; [apply Hold', Hi | rewrite Hid; apply Hnew, Ha].
    + destruct Hs as [->|Hs]; [inversion Ha | exact Hs].
  - intros x Hx. apply (issued_in_mono randomUUID (uuids s)); [exact Hu | apply L4, Hst, Hx].
  - intros x i' Hx Hi' Hid. destruct (Hq i' Hi') as [Hi|[Hf _]].
    + eapply L5; eauto. apply Hst, Hx.
    + exfalso. eapply fresh_not_issued; [apply L4, Hst, Hx | rewrite <- Hid; exact Hf].
  - intros h t i' Hh Hi' Hid. rewrite Hm in Hh. destruct (Hq i' Hi') as [Hi|[Hf _]].
    + eapply L6; eauto.
    + exfalso. eapply fresh_not_issued;
        [apply L4, (started_timer s h t Hh) | rewrite <- Hid; exact Hf].
  - intros x seen Hx. rewrite Ht in Hx. apply L7, Hx.
Qed.

(** A step that writes the status [st] on the item [x]. *)
Lemma Life_updateItem s s' x u st :
  Life randomUUID s ->
  uuids s' = uuids s ->
  queue s' = updateItem_map x u (queue s) ->
  u_status u = Some st ->
  analyses s' `sublist_of` analyses s ->
  (forall x, started s' x -> started s x) ->
  (forall e, e ∈ timeouts s' -> e ∈ timeouts s) ->
  (forall a i0, a ∈ analyses s' -> i0 ∈ queue s -> id i0 = x -> id a = x ->
     st = analyzing) ->
  (forall i0, started s' x -> i0 ∈ queue s -> id i0 = x -> st ∈ in_flight) ->
  (forall h t i0, intervals s' !! h = Some t -> t_itemId t = x ->
     i0 ∈ queue s -> id i0 = x -> st = downloading) ->
  (forall h t, intervals s' !! h = Some t -> t_itemId t <> x ->
     exists t0, intervals s !! h = Some t0 /\ t_itemId t0 = t_itemId t) ->
  Life randomUUID s'.
Proof.
  intros [L1 L2 L3 L4 L5 L6 L7] Hu Hq Hstat Han Hst Hti H3 H5 H6 H6'.
  assert (forall a, a ∈ analyses s' -> a ∈ analyses s) as Han'
    by (intros a; apply sublist_subseteq, Han).
  split.
  - eapply sublist_NoDup; [exact L1 | apply (fmap_sublist id), Han].
  - intros a Ha. rewrite Hu. auto.
  - intros a i' Ha Hi' Hid. rewrite Hq in Hi'.
    apply updateItem_map_elem in Hi' as [[Hi Hne]|(i0 & Hi0 & Hx & ->)].
    + eapply L3; eauto.
    + rewrite (assign_status i0 u st Hstat). eapply H3; eauto.
      simpl in Hid. congruence.
  - intros y Hy. rewrite Hu. auto.
  - intros y i' Hy Hi' Hid. rewrite Hq in Hi'.
    apply updateItem_map_elem in Hi' as [[Hi Hne]|(i0 & Hi0 & Hx & ->)].
    + eapply L5; eauto.
    + rewrite (assign_status i0 u st Hstat). simpl in Hid.
      apply (H5 i0); [|exact Hi0|exact Hx]. rewrite <- Hx, Hid. exact Hy.
  - intros h t i' Hh Hi' Hid. rewrite Hq in Hi'.
    apply updateItem_map_elem in Hi' as [[Hi Hne]|(i0 & Hi0 & Hx & ->)].
    + destruct (H6' h t Hh) as (t0 & Ht0 & Hsame); [congruence|].
      eapply L6; eauto. congruence.
    + rewrite (assign_status i0 u st Hstat). simpl in Hid.
      eapply (H6 h t i0); eauto. congruence.
  - intros y seen Hy. apply L7, Hti, Hy.
Qed.

(** A step that starts download machinery for items that are ready. *)
Lemma Life_start s s' :
  Life randomUUID s -> ids_inv randomUUID s ->
  uuids s' = uuids s -> queue s' = queue s -> analyses s' = analyses s ->
  intervals s' = intervals s ->
  (forall x, started s' x ->
     started s x \/ exists i, i ∈ queue s /\ id i = x /\ status i = ready) ->
  (forall x seen, (x, seen) ∈ timeouts s' ->
     (x, seen) ∈ timeouts s
     \/ exists i, i ∈ queue s /\ id i = x /\ status i = ready /\ seen = queue s) ->
  Life randomUUID s'.
Proof.
  intros [L1 L2 L3 L4 L5 L6 L7] [Hnd Hold] Hu Hq Han Hm Hst Hti.
  split; rewrite ?Hu, ?Hq, ?Han, ?Hm; auto.
  - intros x [Hx|(i & Hi & <- & _)]%Hst; [auto|].
    apply Hold, list_elem_of_fmap. eauto.
  - intros x j [Hx|(i & Hi & Hid & Hready)]%Hst Hj Hjx; [eauto|].
    assert (j = i) as -> by (eapply same_id_same_item; eauto; congruence).
    rewrite Hready. unfold in_flight. apply list_elem_of_here.
  - intros x seen [Hx|(i & Hi & <- & Hready & ->)]%Hti; [auto|].
    destruct (find_item_unique (queue s) i Hnd Hi) as [index Hfind]. eauto.
Qed.

Lemma Life_frame s s' :
  uuids s' = uuids s -> queue s' = queue s -> analyses s' = analyses s ->
  permissions s' = permissions s -> timeouts s' = timeouts s ->
  intervals s' = intervals s ->
  Life randomUUID s -> Life randomUUID s'.
Proof.
  intros Hu Hq Han Hp Ht Hm [L1 L2 L3 L4 L5 L6 L7].
  split; unfold started in *; rewrite ?Hu, ?Hq, ?Han, ?Hp, ?Ht, ?Hm; assumption.
Qed.

Lemma Life_mount st n : Life randomUUID (mount st n).
Proof.
  assert (forall x, ~ started (mount st n) x) as Hno.
  { intros x [H|[H|(h & t & H & _)]]; simpl in H;
      [inversion H | inversion H | rewrite lookup_empty in H; discriminate]. }
  split; simpl.
  - constructor.
  - intros a Ha. inversion Ha.
  - intros a i Ha. inversion Ha.
  - intros x Hx. destruct (Hno x Hx).
  - intros x i Hx. destruct (Hno x Hx).
  - intros h t i Hh. rewrite lookup_empty in Hh. discriminate.
  - intros x seen Hx. inversion Hx.
Qed.

Lemma analysisUpdates_status settled :
  exists st, u_status (analysisUpdates settled) = Some st
             /\ (st = ready \/ st = error).
Proof.
  destruct settled as [data|e]; simpl; [destruct (isValid data)|]; eauto.
Qed.

Lemma Life_selectType t s : Life randomUUID s -> Life randomUUID (selectType t s).
Proof.
  intros HL. apply (Life_same_status s _ HL).
  - reflexivity.
  - reflexivity.
  - intros x Hx. exact Hx.
  - intros h t0 Hh. exists t0. auto.
  - intros e He. exact He.
  - intros i' Hi'. unfold selectType in Hi'. simpl in Hi'.
    apply list_elem_of_fmap in Hi' as (i & -> & Hi). exists i.
    case_bool_decide; auto.
Qed.

Lemma Life_handleAnalyzeBatch s :
  ids_inv randomUUID s -> Life randomUUID s ->
  Life randomUUID (handleAnalyzeBatch randomUUID s).
Proof.
  intros HI HL.
  destruct (extractUrls (inputText s)) as [|u0 us] eqn:Hurls.
  { rewrite handleAnalyzeBatch_idle by exact Hurls. exact HL. }
  assert (extractUrls (inputText s) <> []) as Hne by (rewrite Hurls; discriminate).
  destruct (handleAnalyzeBatch_busy randomUUID s Hne) as (_ & Han & Hp & Ht & _).
  destruct (handleAnalyzeBatch_frame randomUUID s) as (Hm & _ & _).
  pose proof (handleAnalyzeBatch_uuids randomUUID s) as Hu.
  pose proof (batch_items_ids randomUUID s) as Hids.
  assert (forall b, b ∈ batch_items randomUUID s ->
            issued_in randomUUID (uuids s)
              (uuids (handleAnalyzeBatch randomUUID s)) (id b)) as Hnew.
  { intros b Hb.
    assert (id b ∈ map id (batch_items randomUUID s)) as Hin
      by (apply list_elem_of_fmap; eauto).
    rewrite Hids in Hin. apply list_elem_of_fmap in Hin as (k & -> & Hk).
    apply elem_of_seq in Hk. exists (uuids s + k). split; [lia | reflexivity]. }
  apply (Life_fresh s _ (batch_items randomUUID s) HL HI);
    [lia | exact Han | | exact Hnew | exact Hp | exact Ht | exact Hm |].
  - rewrite Hids. apply (drawn_NoDup randomUUID randomUUID_inj); [|apply NoDup_seq].
    intros a b _ _ Hab. lia.
  - intros i' Hi'. rewrite handleAnalyzeBatch_queue in Hi'.
    apply elem_of_app in Hi' as [Hi'|Hi']; [right | left; exact Hi'].
    apply list_elem_of_filter in Hi' as [_ Hi'].
    split; [apply Hnew, Hi'|]. right.
    apply (batch_items_created randomUUID s i' Hi').
Qed.

Lemma Life_analysisDone k api s :
  Life randomUUID s -> Life randomUUID (analysisDone JSON_parse k api s).
Proof.
  intros HL. destruct (analyses s !! k) as [a|] eqn:Hk;
    [|unfold analysisDone; rewrite Hk; exact HL].
  destruct (analysisDone_spec JSON_parse k api s a Hk) as (Hq & Hm & _ & _ & Hu).
  destruct (analysisDone_pending JSON_parse k api s a Hk) as (Han & Hp & Ht).
  destruct (analysisUpdates_status
              (Gemini.analyzeLink JSON_parse (fun _ => api) (url a)))
    as (st & Hst & _).
  assert (forall x, started (analysisDone JSON_parse k api s) x -> started s x)
    as Hsub by (intros x; unfold started; rewrite Hp, Ht, Hm; auto).
  assert (a ∈ analyses s) as Ha by (eapply list_elem_of_lookup_2, Hk).
  assert (forall i0, started s (id a) -> i0 ∈ queue s -> id i0 = id a -> False)
    as Hclash.
  { intros i0 Hs Hi0 Hid.
    eapply analyzing_not_in_flight;
      [eapply (life_analyzing _ _ HL a i0) | eapply (life_started _ _ HL)]; eauto. }
  apply (Life_updateItem s _ (id a) _ st HL Hu Hq Hst); [| exact Hsub | | | | |].
  - rewrite Han. apply sublist_delete.
  - intros e. rewrite Ht. auto.
  - intros a' i0 Ha' _ _ Hid. rewrite Han in Ha'.
    destruct (delete_other_id _ _ _ _ (life_nodup _ _ HL) Hk Ha') as [_ Hne].
    contradiction.
  - intros i0 Hs Hi0 Hid. destruct (Hclash i0); auto.
  - intros h t i0 Hh Hid Hi0 Hid'. rewrite Hm in Hh.
    destruct (Hclash i0); auto. rewrite <- Hid. eapply started_timer, Hh.
  - intros h t Hh _. rewrite Hm in Hh. eauto.
Qed.

Lemma Life_expandPlaylist itemId platform0 random s :
  ids_inv randomUUID s -> Life randomUUID s ->
  Life randomUUID (expandPlaylist randomUUID itemId platform0 random s).
Proof.
  intros HI HL.
  destruct (find_item itemId (queue s)) as [[index item]|] eqn:Hfind;
    [|rewrite expandPlaylist_absent by exact Hfind; exact HL].
  destruct (expandPlaylist_found randomUUID itemId platform0 random s index item Hfind)
    as [Hq Hu].
  destruct (expandPlaylist_pending randomUUID itemId platform0 random s)
    as (Han & Hp & Ht).
  destruct (expandPlaylist_frame randomUUID itemId platform0 random s) as (Hm & _ & _).
  apply (Life_fresh s _ [] HL HI);
    [lia | | constructor | | exact Hp | exact Ht | exact Hm |].
  - rewrite Han, app_nil_r. reflexivity.
  - intros b Hb. inversion Hb.
  - intros i' Hi'. rewrite Hq in Hi'.
    destruct (find_item_Some _ _ _ _ Hfind) as (Hsplit & _ & _).
    rewrite !elem_of_app in Hi'. destruct Hi' as [Hi'|[Hi'|Hi']].
    + left. rewrite Hsplit. apply elem_of_app. auto.
    + right. split; [|left; reflexivity].
      destruct (playlist_items_created randomUUID item platform0 random s i' Hi')
        as (_ & _ & (i & Hi & Hid & _) & _).
      exists (uuids s + (i - 1)). split; [lia | exact Hid].
    + left. rewrite Hsplit. apply elem_of_app. right.
      apply list_elem_of_further, Hi'.
Qed.

Lemma started_added s s' x item y :
  permissions s' = permissions s ++ [(x, item)] ->
  (forall e, e ∈ timeouts s' -> e ∈ timeouts s) ->
  intervals s' = intervals s ->
  started s' y -> started s y \/ y = x.
Proof.
  intros Hp Ht Hm [H|[H|(h & t & H & <-)]].
  - rewrite Hp, map_app in H. apply elem_of_app in H as [H|H]; [left; left; exact H|].
    right. simpl in H. apply list_elem_of_singleton in H. exact H.
  - left. right. left. apply list_elem_of_fmap in H as (e & -> & He).
    apply list_elem_of_fmap. eauto.
  - left. rewrite Hm in H. eapply started_timer, H.
Qed.

Lemma Life_startDownload itemId s :
  ids_inv randomUUID s -> Life randomUUID s ->
  Life randomUUID (startDownload (queue s) itemId s).
Proof.
  intros HI HL.
  destruct (startDownload_frame (queue s) itemId s) as (Hq & Hm & _ & _ & Hu & _).
  destruct (startDownload_pending (queue s) itemId s) as (Han & Ht & Hp).
  apply (Life_start s _ HL HI Hu Hq Han Hm).
  - intros x Hx. destruct Hp as [Hp|(index & item & Hfind & Hready & Hp)].
    + left. revert Hx. unfold started. rewrite Hp, Ht, Hm. auto.
    + assert (forall e, e ∈ timeouts (startDownload (queue s) itemId s) ->
                e ∈ timeouts s) as Hsub by (intros e; rewrite Ht; auto).
      destruct (started_added s _ itemId item x Hp Hsub Hm Hx) as [H| ->];
        [left; exact H|].
      right. destruct (find_item_in_queue _ _ _ _ Hfind) as [Hin Hid]. eauto.
  - intros x seen Hx. rewrite Ht in Hx. auto.
Qed.

Lemma Life_handleDownloadAll s :
  ids_inv randomUUID s -> Life randomUUID s -> Life randomUUID (handleDownloadAll s).
Proof.
  intros HI HL.
  assert (forall x seen, (x, seen) ∈ timeouts (handleDownloadAll s) ->
            (x, seen) ∈ timeouts s
            \/ exists i, i ∈ queue s /\ id i = x /\ status i = ready /\ seen = queue s)
    as Hti.
  { intros x seen Hx. unfold handleDownloadAll in Hx. simpl in Hx.
    apply elem_of_app in Hx as [Hx|Hx]; [auto|]. right.
    apply list_elem_of_fmap in Hx as (y & [= -> ->] & Hy).
    apply list_elem_of_fmap in Hy as (i & -> & Hi).
    apply list_elem_of_filter in Hi as [Hready Hi]. eauto. }
  apply (Life_start s _ HL HI); [reflexivity..| |exact Hti].
  intros x [H|[H|H]].
  - left. left. exact H.
  - apply list_elem_of_fmap in H as ([y seen] & -> & He).
    destruct (Hti y seen He) as [Hold|(i & Hi & Hid & Hready & _)].
    + left. eapply started_timeout, Hold.
    + right. eauto.
  - left. right. right. exact H.
Qed.

Lemma Life_timeoutFires k s :
  Life randomUUID s -> Life randomUUID (timeoutFires k s).
Proof.
  intros HL. unfold timeoutFires.
  destruct (timeouts s !! k) as [[x seen]|] eqn:Hk; [|exact HL].
  set (s0 := set_timeouts (delete k (timeouts s)) s).
  destruct (startDownload_frame seen x s0) as (Hq & Hm & _ & _ & Hu & _).
  destruct (startDownload_pending seen x s0) as (Han & Ht & Hp).
  change (queue s0) with (queue s) in Hq.
  change (intervals s0) with (intervals s) in Hm.
  change (uuids s0) with (uuids s) in Hu.
  change (analyses s0) with (analyses s) in Han.
  change (permissions s0) with (permissions s) in Hp.
  change (timeouts s0) with (delete k (timeouts s)) in Ht.
  assert ((x, seen) ∈ timeouts s) as Hin by (eapply list_elem_of_lookup_2, Hk).
  assert (forall e, e ∈ timeouts (startDownload seen x s0) -> e ∈ timeouts s) as Hsub.
  { intros e. rewrite Ht. apply delete_subset. }
  apply (Life_same_status s _ HL); [| | | | exact Hsub |].
  - rewrite Hu. reflexivity.
  - rewrite Han. reflexivity.
  - intros y Hy. destruct Hp as [Hp|(index & item & _ & _ & Hp)].
    + eapply started_sub; [| exact Hsub | | exact Hy].
      * intros e. rewrite Hp. auto.
      * intros h t. rewrite Hm. apply started_timer.
    + destruct (started_added s _ x item y Hp Hsub Hm Hy) as [H| ->]; [exact H|].
      eapply started_timeout, Hin.
  - intros h t. rewrite Hm. eauto.
  - intros i'. rewrite Hq. eauto.
Qed.

Lemma Life_removeItem id0 s :
  Life randomUUID s -> Life randomUUID (removeItem id0 s).
Proof.
  intros HL.
  destruct (removeItem_spec id0 s) as (Hq & Hm & _ & _ & Hu).
  destruct (removeItem_pending id0 s) as (Han & Ht & Hp).
  assert (forall h t, intervals (removeItem id0 s) !! h = Some t ->
            intervals s !! h = Some t) as Hsub.
  { intros h t. rewrite Hm. intros [H _]%cleared_lookup. exact H. }
  apply (Life_same_status s _ HL).
  - rewrite Hu. reflexivity.
  - rewrite Han. reflexivity.
  - intros x. apply started_sub.
    + intros e. rewrite Hp. auto.
    + intros e. rewrite Ht. auto.
    + intros h t Hh. eapply started_timer, Hsub, Hh.
  - intros h t Hh. eauto.
  - intros e. rewrite Ht. auto.
  - intros i'. rewrite Hq. intros [_ Hi]%list_elem_of_filter. eauto.
Qed.

Lemma Life_startDownload_resume k now1 now2 rand s :
  Life randomUUID s -> Life randomUUID (startDownload_resume k now1 now2 rand s).
Proof.
  intros HL. destruct (permissions s !! k) as [[x item]|] eqn:Hk;
    [|rewrite startDownload_resume_idle by exact Hk; exact HL].
  destruct (startDownload_resume_spec k now1 now2 rand s x item Hk)
    as (Hq & Hm & _ & _ & Hu).
  destruct (startDownload_resume_pending k now1 now2 rand s x item Hk)
    as (Han & Ht & Hp).
  pose proof (started_permission s k x item Hk) as Hx.
  assert (forall h t,
            intervals (startDownload_resume k now1 now2 rand s) !! h = Some t ->
            t_itemId t = x \/ intervals s !! h = Some t) as Hlook.
  { intros h t. rewrite Hm. intros [[_ <-]|[_ Hc]]%lookup_insert_Some.
    - left. reflexivity.
    - right. apply cleared_lookup in Hc as [Hc _]. exact Hc. }
  apply (Life_updateItem s _ x downloading_updates downloading HL Hu Hq eq_refl).
  - rewrite Han. reflexivity.
  - intros y. apply started_sub.
    + intros e. rewrite Hp. apply delete_subset.
    + intros e. rewrite Ht. auto.
    + intros h t Hh. destruct (Hlook h t Hh) as [-> | Hold];
        [exact Hx | eapply started_timer, Hold].
  - intros e. rewrite Ht. auto.
  - intros a i0 Ha Hi0 Hid Hida. rewrite Han in Ha. exfalso.
    eapply analyzing_not_in_flight;
      [eapply (life_analyzing _ _ HL a i0) | eapply (life_started _ _ HL x i0)];
      eauto; congruence.
  - intros i0 _ _ _. unfold in_flight.
    apply list_elem_of_further, list_elem_of_here.
  - reflexivity.
  - intros h t Hh Hne. destruct (Hlook h t Hh) as [Heq | Hold];
      [contradiction | eauto].
Qed.

Lemma Life_tick h random1 random2 s :
  Inv s -> Life randomUUID s -> Life randomUUID (tick h random1 random2 s).
Proof.
  intros (_ & (Hreg & _) & _) HL.
  destruct (intervals s !! h) as [t|] eqn:Hh;
    [|rewrite tick_idle by exact Hh; exact HL].
  destruct (tick_spec h random1 random2 s t Hh) as (_ & Hu & Hspec).
  destruct (tick_pending h random1 random2 s) as (Han & Ht & Hp).
  pose proof (started_timer s h t Hh) as Hx.
  destruct (Qle_bool 100 (advanced t random1)); destruct Hspec as (Hq & Hm & _).
  - assert (forall h' t',
              intervals (tick h random1 random2 s) !! h' = Some t' ->
              intervals s !! h' = Some t' /\ t_itemId t' <> t_itemId t) as Hlook.
    { intros h' t'. rewrite Hm. intros [Hc Hne]%cleared_lookup.
      rewrite (Hreg h t Hh) in Hne.
      apply lookup_insert_Some in Hc as [[-> _]|[Hh' Hc]]; [congruence|].
      split; [exact Hc|]. intros Heq. pose proof (Hreg h' t' Hc) as Hr.
      rewrite Heq, (Hreg h t Hh) in Hr. congruence. }
    apply (Life_updateItem s _ (t_itemId t) completed_updates completed HL Hu Hq
             eq_refl).
    + rewrite Han. reflexivity.
    + intros y. apply started_sub.
      * intros e. rewrite Hp. auto.
      * intros e. rewrite Ht. auto.
      * intros h' t' Hh'. eapply started_timer, Hlook, Hh'.
    + intros e. rewrite Ht. auto.
    + intros a i0 Ha Hi0 Hid Hida. rewrite Han in Ha. exfalso.
      eapply analyzing_not_in_flight;
        [eapply (life_analyzing _ _ HL a i0)
        | eapply (life_started _ _ HL (t_itemId t) i0)];
        eauto; congruence.
    + intros i0 _ _ _. unfold in_flight.
      do 2 apply list_elem_of_further. apply list_elem_of_here.
    + intros h' t' i0 Hh' Heq. destruct (Hlook h' t' Hh') as [_ Hne]. contradiction.
    + intros h' t' Hh' _. destruct (Hlook h' t' Hh') as [Hold _]. eauto.
  - assert (forall h' t',
              intervals (tick h random1 random2 s) !! h' = Some t' ->
              exists t0, intervals s !! h' = Some t0 /\ t_itemId t0 = t_itemId t')
      as Hlook.
    { intros h' t'. rewrite Hm. intros [[<- <-]|[_ Hc]]%lookup_insert_Some; eauto. }
    apply (Life_same_status s _ HL).
    + rewrite Hu. reflexivity.
    + rewrite Han. reflexivity.
    + intros y. apply started_sub.
      * intros e. rewrite Hp. auto.
      * intros e. rewrite Ht. auto.
      * intros h' t' Hh'. destruct (Hlook h' t' Hh') as (t0 & Ht0 & <-).
        eapply started_timer, Ht0.
    + exact Hlook.
    + intros e. rewrite Ht. auto.
    + intros i'. rewrite Hq.
      intros [[Hi _]|(i0 & Hi0 & _ & ->)]%updateItem_map_elem; [eauto|].
      exists i0. split_and!; auto.
Qed.

Lemma step_Life s e :
  Inv s -> ids_inv randomUUID s -> Life randomUUID s ->
  Life randomUUID (step randomUUID JSON_parse s e).
Proof.
  intros HV HI HL. destruct e; simpl.
  - eapply Life_frame; [..|exact HL]; reflexivity.
  - unfold handlePaste. destruct clipboard; [exact HL|].
    eapply Life_frame; [..|exact HL]; reflexivity.
  - apply Life_selectType, HL.
  - apply Life_handleAnalyzeBatch; assumption.
  - apply Life_analysisDone, HL.
  - apply Life_expandPlaylist; assumption.
  - apply Life_startDownload; assumption.
  - apply Life_startDownload_resume, HL.
  - apply Life_tick; assumption.
  - apply Life_handleDownloadAll; assumption.
  - apply Life_timeoutFires, HL.
  - apply Life_removeItem, HL.
  - eapply Life_frame; [..|exact HL]; reflexivity.
  - apply Life_mount.
Qed.

Lemma reachable_Life s :
  reachable randomUUID JSON_parse s -> Life randomUUID s.
Proof.
  induction 1 as [|s e Hreach IH Hvalid]; [apply Life_mount|].
  apply step_Life; [| |exact IH].
  - eapply reachable_Inv, Hreach.
  - eapply reachable_ids_inv; [exact randomUUID_inj | exact Hreach].
Qed.

Lemma allowed_same (i i' : BatchItem) : status i = status i' -> allowed (status i) (status i').
Proof. intros H. left. exact H. Qed.

(** Where each item of the next queue comes from. *)
Lemma step_statuses s e i' :
  Life randomUUID s ->
  i' ∈ queue (step randomUUID JSON_parse s e) ->
  (issued_in randomUUID (uuids s) (uuids (step randomUUID JSON_parse s e)) (id i')
   /\ (status i' = analyzing \/ status i' = ready))
  \/ exists i, i ∈ queue s /\ id i = id i' /\ allowed (status i) (status i').
Proof.
  intros HL.
  assert (i' ∈ queue s ->
          exists i, i ∈ queue s /\ id i = id i' /\ allowed (status i) (status i'))
    as Hold by (intros H; exists i'; split_and!; [exact H | reflexivity | left; reflexivity]).
  destruct e; cbn [step].
  - auto.
  - unfold handlePaste. destruct clipboard; auto.
  - unfold selectType. simpl.
    intros (i & -> & Hi)%list_elem_of_fmap. right. exists i.
    case_bool_decide; split_and!; auto; left; reflexivity.
  - rewrite handleAnalyzeBatch_queue, handleAnalyzeBatch_uuids.
    intros [Hi'|Hi']%elem_of_app; [left | auto].
    apply list_elem_of_filter in Hi' as [_ Hi'].
    split; [|left; apply (batch_items_created randomUUID s i' Hi')].
    assert (id i' ∈ map id (batch_items randomUUID s)) as Hin
      by (apply list_elem_of_fmap; eauto).
    rewrite batch_items_ids in Hin. apply list_elem_of_fmap in Hin as (k & -> & Hk).
    apply elem_of_seq in Hk. exists (uuids s + k). split; [lia | reflexivity].
  - destruct (analyses s !! k) as [a|] eqn:Hk;
      [|unfold analysisDone; rewrite Hk; auto].
    destruct (analysisDone_spec JSON_parse k api s a Hk) as (Hq & _).
    rewrite Hq.
    intros [[Hi _]|(i0 & Hi0 & Hid & ->)]%updateItem_map_elem; [auto|].
    right. exists i0. split_and!; [exact Hi0 | reflexivity |].
    destruct (analysisUpdates_status
                (Gemini.analyzeLink JSON_parse (fun _ => api) (url a)))
      as (st & Hst & Hcase).
    rewrite (assign_status i0 _ st Hst).
    rewrite (life_analyzing _ _ HL a i0 (list_elem_of_lookup_2 _ _ _ Hk) Hi0 Hid).
    right. unfold transitions. destruct Hcase as [-> | ->].
    + apply list_elem_of_here.
    + apply list_elem_of_further, list_elem_of_here.
  - destruct (find_item itemId (queue s)) as [[index item]|] eqn:Hfind;
      [|rewrite expandPlaylist_absent by exact Hfind; auto].
    destruct (expandPlaylist_found randomUUID itemId platform0 random s index item Hfind)
      as [Hq Hu].
    rewrite Hq, Hu. destruct (find_item_Some _ _ _ _ Hfind) as (Hsplit & _ & _).
    rewrite !elem_of_app. intros [Hi'|[Hi'|Hi']].
    + right. apply Hold. rewrite Hsplit. apply elem_of_app. auto.
    + left.
      destruct (playlist_items_created randomUUID item platform0 random s i' Hi')
        as (Hready & _ & (i & Hi & Hid & _) & _).
      split; [|right; exact Hready].
      exists (uuids s + (i - 1)). split; [lia | exact Hid].
    + right. apply Hold. rewrite Hsplit. apply elem_of_app. right.
      apply list_elem_of_further, Hi'.
  - destruct (startDownload_frame (queue s) itemId s) as (Hq & _). rewrite Hq. auto.
  - destruct (permissions s !! k) as [[x item]|] eqn:Hk;
      [|rewrite startDownload_resume_idle by exact Hk; auto].
    destruct (startDownload_resume_spec k now1 now2 rand s x item Hk) as (Hq & _).
    rewrite Hq.
    intros [[Hi _]|(i0 & Hi0 & Hid & ->)]%updateItem_map_elem; [auto|].
    right. exists i0. split_and!; [exact Hi0 | reflexivity |].
    rewrite (assign_status i0 downloading_updates downloading eq_refl).
    apply in_flight_to_downloading.
    apply (life_started _ _ HL x i0 (started_permission s k x item Hk) Hi0 Hid).
  - destruct (intervals s !! h) as [t|] eqn:Hh;
      [|rewrite tick_idle by exact Hh; auto].
    destruct (tick_spec h random1 random2 s t Hh) as (_ & _ & Hspec).
    destruct (Qle_bool 100 (advanced t random1)); destruct Hspec as (Hq & _);
      rewrite Hq;
      (intros [[Hi _]|(i0 & Hi0 & Hid & ->)]%updateItem_map_elem; [auto|]);
      right; exists i0; (split_and!; [exact Hi0 | reflexivity |]).
    + rewrite (assign_status i0 completed_updates completed eq_refl).
      rewrite (life_timer _ _ HL h t i0 Hh Hi0 Hid).
      right. unfold transitions. do 3 apply list_elem_of_further.
      apply list_elem_of_here.
    + left. symmetry. apply assign_status_kept. reflexivity.
  - auto.
  - unfold timeoutFires. destruct (timeouts s !! k) as [[x seen]|]; [|auto].
    destruct (startDownload_frame seen x (set_timeouts (delete k (timeouts s)) s))
      as (Hq & _).
    rewrite Hq. auto.
  - destruct (removeItem_spec id0 s) as (Hq & _). rewrite Hq.
    intros [_ Hi]%list_elem_of_filter. auto.
  - auto.
  - simpl. intros H. inversion H.
Qed.

(** X12. How the status of an item moves.  After any event in a state
    the downloader can reach, an item of the queue is either new there
    (no item had its id before) and then analyzing or ready, or it keeps
    an id of the queue before and its status has stayed the same or made
    one of five moves: analyzing to ready or error, ready to downloading,
    downloading to completed, completed to downloading again. *)
Theorem status_moves s e i' :
  reachable randomUUID JSON_parse s ->
  i' ∈ queue (step randomUUID JSON_parse s e) ->
  ((forall i, i ∈ queue s -> id i <> id i')
   /\ (status i' = analyzing \/ status i' = ready))
  \/ (exists i, i ∈ queue s /\ id i = id i'
        /\ (forall j, j ∈ queue s -> id j = id i' -> j = i)
        /\ allowed (status i) (status i')).
Proof.
  intros Hreach Hi'.
  pose proof (reachable_Life s Hreach) as HL.
  destruct (reachable_ids_inv randomUUID JSON_parse randomUUID_inj s Hreach)
    as [Hnd Hissued].
  destruct (step_statuses s e i' HL Hi') as [[Hfresh Hst]|(i & Hi & Hid & Hmove)].
  - left. split; [|exact Hst]. intros i Hi Hid.
    eapply fresh_not_issued; [|exact Hfresh]. rewrite <- Hid.
    apply Hissued, list_elem_of_fmap. eauto.
  - right. exists i. split_and!; auto.
    intros j Hj Hjid. eapply same_id_same_item; eauto. congruence.
Qed.

(** A set of statuses no move leaves. *)
Definition closed (P : Status -> Prop) : Prop :=
  forall a b, P a -> allowed a b -> P b.

Lemma closed_error : closed (fun st => st = error).
Proof.
  intros a b -> [<-|H]; [reflexivity|]. unfold transitions in H.
  repeat (apply elem_of_cons in H as [H|H]; [discriminate|]). inversion H.
Qed.

Lemma closed_in_flight : closed (fun st => st ∈ in_flight).
Proof.
  intros a b Ha [<-|H]; [exact Ha|]. unfold transitions in H. unfold in_flight.
  repeat (apply elem_of_cons in H as [[= -> ->]|H]);
    try (inversion H; fail);
    try (repeat (apply elem_of_cons in Ha as [Ha|Ha]; [discriminate|]); inversion Ha; fail);
    repeat first [apply list_elem_of_here | apply list_elem_of_further].
Qed.

Lemma closed_begun : closed (fun st => st = downloading \/ st = completed).
Proof.
  intros a b Ha [<-|H]; [exact Ha|]. unfold transitions in H.
  repeat (apply elem_of_cons in H as [[= -> ->]|H]);
    try (inversion H; fail); try (destruct Ha; discriminate); auto.
Qed.

Lemma run_closed (P : Status -> Prop) x es s :
  closed P ->
  reachable randomUUID JSON_parse s -> Forall valid_event es ->
  issued_in randomUUID 0 (uuids s) x ->
  (forall j, j ∈ queue s -> id j = x -> P (status j)) ->
  forall j, j ∈ queue (run randomUUID JSON_parse s es) -> id j = x -> P (status j).
Proof.
  intros HP Hreach Hes. revert s Hreach.
  induction Hes as [|e es He _ IH]; intros s Hreach Hx HQ; [exact HQ|].
  simpl. apply IH.
  - apply reachable_step; assumption.
  - destruct (ids_step_step randomUUID JSON_parse randomUUID_inj s e) as [Hu _].
    eapply issued_in_mono; eassumption.
  - intros j Hj Hid.
    destruct (step_statuses s e j (reachable_Life s Hreach) Hj)
      as [[Hfresh _]|(i & Hi & Hid' & Hmove)].
    + exfalso. eapply fresh_not_issued; [exact Hx | rewrite <- Hid; exact Hfresh].
    + eapply HP; [|exact Hmove]. apply HQ; [exact Hi | congruence].
Qed.

(** X13. What a status never does, over any run of events from a state
    the downloader can reach: an item in error stays in error for as
    long as it is in the queue; an item that is ready, downloading or
    completed never shows analyzing or error again; and an item whose
    download has begun never goes back to ready. *)
Theorem status_never_goes_back s es i i' :
  reachable randomUUID JSON_parse s -> Forall valid_event es ->
  i ∈ queue s -> i' ∈ queue (run randomUUID JSON_parse s es) -> id i' = id i ->
  (status i = error -> status i' = error)
  /\ (status i ∈ in_flight -> status i' ∈ in_flight)
  /\ (status i = downloading \/ status i = completed ->
      status i' = downloading \/ status i' = completed).
Proof.
  intros Hreach Hes Hi Hi' Hid.
  destruct (reachable_ids_inv randomUUID JSON_parse randomUUID_inj s Hreach)
    as [Hnd Hissued].
  assert (issued_in randomUUID 0 (uuids s) (id i)) as Hx
    by (apply Hissued, list_elem_of_fmap; eauto).
  assert (forall P : Status -> Prop, P (status i) ->
            forall j, j ∈ queue s -> id j = id i -> P (status j)) as Honly.
  { intros P HPi j Hj Hjid.
    rewrite (same_id_same_item (queue s) j i Hnd Hj Hi Hjid). exact HPi. }
  split_and!; intros Hst.
  - apply (run_closed (fun st => st = error) (id i) es s closed_error Hreach Hes Hx
             (Honly _ Hst) i' Hi' Hid).
  - apply (run_closed (fun st => st ∈ in_flight) (id i) es s closed_in_flight Hreach
             Hes Hx (Honly _ Hst) i' Hi' Hid).
  - apply (run_closed (fun st => st = downloading \/ st = completed) (id i) es s
             closed_begun Hreach Hes Hx (Honly _ Hst) i' Hi' Hid).
Qed.

(** X15. A timeout of the download-all button always gets past the guard
    of [startDownload] when it fires: the closure it holds reads the
    queue of the click, where the item was ready, so it asks for the
    notification permission whatever has become of the item since. *)
Theorem download_all_timeout_passes_guard s k x seen :
  reachable randomUUID JSON_parse s ->
  timeouts s !! k = Some (x, seen) ->
  exists item,
    item ∈ seen /\ id item = x /\ status item = ready
    /\ permissions (timeoutFires k s) = permissions s ++ [(x, item)]
    /\ timeouts (timeoutFires k s) = delete k (timeouts s)
    /\ queue (timeoutFires k s) = queue s.
Proof.
  intros Hreach Hk.
  destruct (life_timeouts _ _ (reachable_Life s Hreach) x seen
              (list_elem_of_lookup_2 _ _ _ Hk)) as (index & item & Hfind & Hready).
  destruct (find_item_in_queue _ _ _ _ Hfind) as [Hin Hid].
  exists item. unfold timeoutFires. rewrite Hk. unfold startDownload.
  rewrite Hfind. rewrite (bool_decide_eq_true_2 _ Hready).
  split_and!; auto.
Qed.

(** Every item shown as downloading has an interval that drives it. *)
Definition driven (s : State) : Prop :=
  forall i, i ∈ queue s -> status i = downloading ->
    exists h t, intervals s !! h = Some t /\ t_itemId t = id i.

Lemma driven_kept s s' :
  (forall i', i' ∈ queue s' -> status i' = downloading ->
     exists i, i ∈ queue s /\ id i = id i' /\ status i = downloading) ->
  (forall h t, intervals s !! h = Some t ->
     exists h' t', intervals s' !! h' = Some t' /\ t_itemId t' = t_itemId t) ->
  driven s -> driven s'.
Proof.
  intros Hq Hm HD i' Hi' Hst.
  destruct (Hq i' Hi' Hst) as (i & Hi & Hid & Hst').
  destruct (HD i Hi Hst') as (h & t & Hh & Ht).
  destruct (Hm h t Hh) as (h' & t' & Hh' & Ht'). exists h', t'.
  split; [exact Hh' | congruence].
Qed.

Lemma driven_frame s s' :
  queue s' = queue s -> intervals s' = intervals s -> driven s -> driven s'.
Proof.
  intros Hq Hm. apply driven_kept.
  - intros i'. rewrite Hq. eauto.
  - intros h t. rewrite Hm. eauto.
Qed.

Lemma step_driven s e :
  Inv s -> driven s -> driven (step randomUUID JSON_parse s e).
Proof.
  intros (_ & (Hreg & Hown & Hfresh & _) & _) HD. destruct e; cbn [step].
  - apply (driven_frame s); auto.
  - unfold handlePaste. destruct clipboard; [exact HD|].
    apply (driven_frame s); auto.
  - apply (driven_kept s); [|eauto|exact HD].
    unfold selectType. simpl. intros i' (i & -> & Hi)%list_elem_of_fmap Hst.
    exists i. revert Hst. case_bool_decide; simpl; auto.
  - destruct (handleAnalyzeBatch_frame randomUUID s) as (Hm & _).
    apply (driven_kept s); [|intros h t; rewrite Hm; eauto|exact HD].
    intros i'. rewrite handleAnalyzeBatch_queue.
    intros [Hi'|Hi']%elem_of_app Hst; [|eauto].
    apply list_elem_of_filter in Hi' as [_ Hi'].
    destruct (batch_items_created randomUUID s i' Hi') as [Hcr _]. congruence.
  - destruct (analyses s !! k) as [a|] eqn:Hk;
      [|unfold analysisDone; rewrite Hk; exact HD].
    destruct (analysisDone_spec JSON_parse k api s a Hk) as (Hq & Hm & _).
    apply (driven_kept s); [|intros h t; rewrite Hm; eauto|exact HD].
    intros i'. rewrite Hq.
    intros [[Hi _]|(i0 & Hi0 & Hid & ->)]%updateItem_map_elem Hst; [eauto|].
    destruct (analysisUpdates_status
                (Gemini.analyzeLink JSON_parse (fun _ => api) (url a)))
      as (st & Hu & Hcase).
    rewrite (assign_status i0 _ st Hu) in Hst. destruct Hcase; congruence.
  - destruct (expandPlaylist_frame randomUUID itemId platform0 random s) as (Hm & _).
    destruct (find_item itemId (queue s)) as [[index item]|] eqn:Hfind;
      [|rewrite expandPlaylist_absent by exact Hfind; exact HD].
    destruct (expandPlaylist_found randomUUID itemId platform0 random s index item Hfind)
      as [Hq _].
    destruct (find_item_Some _ _ _ _ Hfind) as (Hsplit & _ & _).
    apply (driven_kept s); [|intros h t; rewrite Hm; eauto|exact HD].
    intros i'. rewrite Hq, !elem_of_app. intros [Hi'|[Hi'|Hi']] Hst.
    + exists i'. split_and!; auto. rewrite Hsplit. apply elem_of_app. auto.
    + destruct (playlist_items_created randomUUID item platform0 random s i' Hi')
        as (Hready & _). congruence.
    + exists i'. split_and!; auto. rewrite Hsplit. apply elem_of_app. right.
      apply list_elem_of_further, Hi'.
  - destruct (startDownload_frame (queue s) itemId s) as (Hq & Hm & _).
    apply (driven_frame s); auto.
  - destruct (permissions s !! k) as [[x item]|] eqn:Hk;
      [|rewrite startDownload_resume_idle by exact Hk; exact HD].
    destruct (startDownload_resume_spec k now1 now2 rand s x item Hk)
      as (Hq & Hm & _).
    intros i'. rewrite Hq, Hm.
    intros [[Hi Hne]|(i0 & Hi0 & Hid & ->)]%updateItem_map_elem Hst.
    + destruct (HD i' Hi Hst) as (h & t & Hh & Ht). exists h, t.
      split; [|exact Ht]. pose proof (Hreg h t Hh) as Hr.
      rewrite lookup_insert_ne.
      * apply cleared_lookup. split; [exact Hh|]. intros Hc.
        apply Hne. rewrite <- Ht. eapply Hown; eassumption.
      * intros <-. pose proof (Hfresh _ _ Hr). lia.
    + eexists _, _. rewrite lookup_insert_eq. split; [reflexivity|]. simpl.
      symmetry. exact Hid.
  - destruct (intervals s !! h) as [t|] eqn:Hh;
      [|rewrite tick_idle by exact Hh; exact HD].
    destruct (tick_spec h random1 random2 s t Hh) as (_ & _ & Hspec).
    destruct (Qle_bool 100 (advanced t random1)); destruct Hspec as (Hq & Hm & _).
    + intros i'. rewrite Hq, Hm.
      intros [[Hi Hne]|(i0 & Hi0 & Hid & ->)]%updateItem_map_elem Hst.
      * destruct (HD i' Hi Hst) as (h' & t' & Hh' & Ht'). exists h', t'.
        split; [|exact Ht'].
        assert (h' <> h) as Hd by (intros ->; congruence).
        apply cleared_lookup. rewrite (Hreg h t Hh).
        split; [rewrite lookup_insert_ne by auto; exact Hh' | congruence].
      * rewrite (assign_status i0 completed_updates completed eq_refl) in Hst.
        discriminate.
    + apply (driven_kept s).
      * intros i'. rewrite Hq.
        intros [[Hi _]|(i0 & Hi0 & Hid & ->)]%updateItem_map_elem Hst; [eauto|].
        rewrite assign_status_kept in Hst by reflexivity. eauto.
      * intros h' t' Hh'. rewrite Hm. destruct (decide (h' = h)) as [->|Hd].
        -- eexists _, _. rewrite lookup_insert_eq. split; [reflexivity|].
           simpl. congruence.
        -- exists h', t'. rewrite lookup_insert_ne by auto. auto.
      * exact HD.
  - apply (driven_frame s); auto.
  - unfold timeoutFires. destruct (timeouts s !! k) as [[x seen]|]; [|exact HD].
    destruct (startDownload_frame seen x (set_timeouts (delete k (timeouts s)) s))
      as (Hq & Hm & _).
    apply (driven_frame s); auto.
  - destruct (removeItem_spec id0 s) as (Hq & Hm & _).
    intros i'. rewrite Hq, Hm. intros [Hne Hi]%list_elem_of_filter Hst.
    destruct (HD i' Hi Hst) as (h & t & Hh & Ht). exists h, t.
    split; [|exact Ht]. apply cleared_lookup. split; [exact Hh|].
    intros Hc. apply Hne. rewrite <- Ht. eapply Hown; eassumption.
  - apply (driven_frame s); auto.
  - simpl. intros i Hi. inversion Hi.
Qed.

Lemma reachable_driven s : reachable randomUUID JSON_parse s -> driven s.
Proof.
  induction 1 as [|s e Hreach IH _].
  - intros i Hi. inversion Hi.
  - apply step_driven; [eapply reachable_Inv, Hreach | exact IH].
Qed.

(** X14. An item of the queue shows downloading exactly when an interval
    runs for it: no download stands still without a timer, and no timer
    advances an item that is analyzing, ready, completed or in error. *)
Theorem downloading_iff_interval s i :
  reachable randomUUID JSON_parse s -> i ∈ queue s ->
  status i = downloading
  <-> exists h t, intervals s !! h = Some t /\ t_itemId t = id i.
Proof.
  intros Hreach Hi. split.
  - apply (reachable_driven s Hreach i Hi).
  - intros (h & t & Hh & Ht).
    apply (life_timer _ _ (reachable_Life s Hreach) h t i Hh Hi). congruence.
Qed.

End LifeCycle.

(** ** The properties above at concrete runs *)

(** The analysed link is expanded as a playlist and the download of its
    first sub-item is asked for. *)
Definition events_sub_item : list Event :=
  events_ready ++ [ExpandPlaylist (demo_uuid 0) (js "YouTube") (1 # 2);
                   StartDownload (demo_uuid 1)].

Definition demo_sub : BatchItem :=
  playlistItem demo_uuid (demo_head events_ready) (js "YouTube")
    (downloadType (demo_run events_ready)) (uuids (demo_run events_ready)) 1.

Lemma sub_item_download_keeps_history_witness :
  history (startDownload_resume 0 1000 1001 (js "0.5") (demo_run events_sub_item))
  = history (demo_run events_sub_item)
  /\ localStorage (startDownload_resume 0 1000 1001 (js "0.5")
                     (demo_run events_sub_item))
     = localStorage (demo_run events_sub_item).
Proof.
  apply (sub_item_download_keeps_history demo_uuid 0 1000 1001 (js "0.5")
           (demo_run events_sub_item) (demo_uuid 1) demo_sub
           (demo_head events_ready) (js "YouTube") (1 # 2) (demo_run events_ready)).
  - vm_compute; reflexivity.
  - unfold playlist_items. apply list_elem_of_fmap. exists 1.
    split; [reflexivity|]. apply elem_of_seq.
    replace (mockCount (1 # 2)) with 5 by (vm_compute; reflexivity). lia.
Defined.

Definition demo_timer : Timer :=
  {| t_itemId := demo_uuid 0; t_isAudio := false; t_progress := 0 |}.

Lemma demo_timer_runs : intervals (demo_run events_downloading) !! 1%positive = Some demo_timer.
Proof. vm_compute; reflexivity. Qed.

Lemma one_interval_per_item_witness :
  1%positive = 1%positive
  /\ intervalsRef (demo_run events_downloading) !! t_itemId demo_timer
     = Some 1%positive.
Proof.
  apply (one_interval_per_item demo_uuid demo_parse (demo_run events_downloading)
           1%positive demo_timer 1%positive demo_timer).
  - apply reachable_demo, valid_downloading.
  - exact demo_timer_runs.
  - exact demo_timer_runs.
  - reflexivity.
Defined.




Lemma status_moves_witness :
  ((forall i, i ∈ queue (demo_run events_analyzing) ->
      id i <> id (demo_head events_ready))
   /\ (status (demo_head events_ready) = analyzing
       \/ status (demo_head events_ready) = ready))
  \/ (exists i, i ∈ queue (demo_run events_analyzing)
        /\ id i = id (demo_head events_ready)
        /\ (forall j, j ∈ queue (demo_run events_analyzing) ->
              id j = id (demo_head events_ready) -> j = i)
        /\ allowed (status i) (status (demo_head events_ready))).
Proof.
  apply (status_moves demo_uuid demo_parse demo_uuid_inj
           (demo_run events_analyzing) (AnalysisDone 0 demo_answer)
           (demo_head events_ready)).
  - apply reachable_demo, valid_analyzing.
  - replace (queue (step demo_uuid demo_parse (demo_run events_analyzing)
                      (AnalysisDone 0 demo_answer)))
      with [demo_head events_ready] by (vm_compute; reflexivity).
    apply list_elem_of_here.
Defined.

(** What is tried on an item in error: the download button, the
    download-all button, its timeout and a settled permission. *)
Definition events_retry : list Event :=
  [StartDownload (demo_uuid 0); DownloadAll; TimeoutFires 0;
   PermissionSettled 0 1000 1001 (js "0.5"); SelectType audio].

Lemma status_never_goes_back_witness :
  status (demo_head (events_error ++ events_retry)) = error.
Proof.
  apply (status_never_goes_back demo_uuid demo_parse demo_uuid_inj
           (demo_run events_error) events_retry
           (demo_head events_error) (demo_head (events_error ++ events_retry))).
  - apply reachable_demo, valid_error.
  - repeat constructor.
  - replace (queue (demo_run events_error)) with [demo_head events_error]
      by (vm_compute; reflexivity).
    apply list_elem_of_here.
  - replace (queue (run demo_uuid demo_parse (demo_run events_error) events_retry))
      with [demo_head (events_error ++ events_retry)] by (vm_compute; reflexivity).
    apply list_elem_of_here.
  - vm_compute; reflexivity.
  - vm_compute; reflexivity.
Defined.

Lemma downloading_iff_interval_witness :
  status (demo_head events_downloading) = downloading
  <-> exists h t, intervals (demo_run events_downloading) !! h = Some t
                  /\ t_itemId t = id (demo_head events_downloading).
Proof.
  apply (downloading_iff_interval demo_uuid demo_parse demo_uuid_inj
           (demo_run events_downloading) (demo_head events_downloading)).
  - apply reachable_demo, valid_downloading.
  - replace (queue (demo_run events_downloading))
      with [demo_head events_downloading] by (vm_compute; reflexivity).
    apply list_elem_of_here.
Defined.

(** The item is removed between the click on the download-all button and
    its timeout. *)
Definition events_stale : list Event :=
  events_ready ++ [DownloadAll; RemoveItem (demo_uuid 0)].

Lemma download_all_timeout_passes_guard_witness :
  exists item,
    item ∈ queue (demo_run events_ready) /\ id item = demo_uuid 0
    /\ status item = ready
    /\ permissions (timeoutFires 0 (demo_run events_stale))
       = permissions (demo_run events_stale) ++ [(demo_uuid 0, item)]
    /\ timeouts (timeoutFires 0 (demo_run events_stale))
       = delete 0 (timeouts (demo_run events_stale))
    /\ queue (timeoutFires 0 (demo_run events_stale)) = queue (demo_run events_stale).
Proof.
  apply (download_all_timeout_passes_guard demo_uuid demo_parse demo_uuid_inj
           (demo_run events_stale) 0 (demo_uuid 0) (queue (demo_run events_ready))).
  - apply reachable_demo. apply Forall_app.
    split; [apply valid_ready | repeat constructor].
  - vm_compute; reflexivity.
Defined.

(** ** The polling loop of [generateVideo] *)

(** An answer of the video service that keeps the loop going: an
    operation that is not done. *)
Definition still_running (o : Outcome JsError Gemini.Operation) : Prop :=
  match o with
  | Returned op => Gemini.done op = false
  | Thrown _ => False
  end.

(** [d] is the first answer of [l] that ends the loop. *)
Definition first_decisive (l : list (Outcome JsError Gemini.Operation))
    (d : Outcome JsError Gemini.Operation) : Prop :=
  exists before after,
    l = before ++ d :: after /\ Forall still_running before /\ ~ still_running d.

(** What the loop of [generateVideo] ends with, the call of
    [generateVideos] included. *)
Definition polled (first : Outcome JsError Gemini.Operation)
    (answers : list (Outcome JsError Gemini.Operation))
    : option (Outcome JsError Gemini.Operation) :=
  match first with
  | Thrown e => Some (Thrown e)
  | Returned operation => Gemini.poll operation answers
  end.

Lemma poll_done op answers :
  Gemini.done op = true -> Gemini.poll op answers = Some (Returned op).
Proof. intros H. destruct answers; simpl; rewrite H; reflexivity. Qed.

Lemma poll_next op a answers :
  Gemini.done op = false ->
  Gemini.poll op (a :: answers) = polled a answers.
Proof. intros H. simpl. rewrite H. destruct a; reflexivity. Qed.

Lemma poll_out op : Gemini.done op = false -> Gemini.poll op [] = None.
Proof. intros H. simpl. rewrite H. reflexivity. Qed.

Lemma polled_pending first answers :
  polled first answers = None <-> Forall still_running (first :: answers).
Proof.
  revert first. induction answers as [|a answers IH]; intros [op|e]; simpl.
  - destruct (Gemini.done op) eqn:Hd.
    + split; [discriminate|]. intros H. inversion H as [|? ? H1 _]. simpl in H1.
      congruence.
    + split; [|reflexivity]. intros _. repeat constructor. exact Hd.
  - split; [discriminate|]. intros H. inversion H as [|? ? H1 _]. destruct H1.
  - destruct (Gemini.done op) eqn:Hd.
    + split; [discriminate|]. intros H. inversion H as [|? ? H1 _]. simpl in H1.
      congruence.
    + change (match a with
              | Returned operation' => Gemini.poll operation' answers
              | Thrown e => Some (Thrown e)
              end) with (polled a answers).
      rewrite IH. split.
      * intros H. constructor; [exact Hd | exact H].
      * intros H. inversion H. assumption.
  - split; [discriminate|]. intros H. inversion H as [|? ? H1 _]. destruct H1.
Qed.

Lemma polled_first first answers d :
  first_decisive (first :: answers) d -> polled first answers = Some d.
Proof.
  intros (before & after & Hl & Hrun & Hd). revert first answers Hl.
  induction Hrun as [|b before Hb _ IH]; intros first answers Hl.
  - simpl in Hl. injection Hl as -> ->. destruct d as [op|e]; simpl.
    + apply poll_done. simpl in Hd. destruct (Gemini.done op); [reflexivity|].
      destruct Hd. reflexivity.
    + reflexivity.
  - simpl in Hl. injection Hl as -> Hl. destruct b as [op|e]; [|destruct Hb].
    simpl in Hb. destruct answers as [|a answers].
    + destruct before; discriminate.
    + unfold polled at 1. rewrite (poll_next op a answers Hb). apply IH, Hl.
Qed.

Lemma polled_cases first answers :
  Forall still_running (first :: answers)
  \/ exists d, first_decisive (first :: answers) d.
Proof.
  revert first. induction answers as [|a answers IH]; intros first.
  - destruct first as [op|e].
    + destruct (Gemini.done op) eqn:Hd.
      * right. exists (Returned op), [], []. split_and!; [reflexivity | constructor |].
        simpl. congruence.
      * left. repeat constructor. exact Hd.
    + right. exists (Thrown e), [], []. split_and!; [reflexivity | constructor | auto].
  - destruct first as [op|e].
    + destruct (Gemini.done op) eqn:Hd.
      * right. exists (Returned op), [], (a :: answers).
        split_and!; [reflexivity | constructor |]. simpl. congruence.
      * destruct (IH a) as [Hall|(d & before & after & Hl & Hrun & Hdec)].
        -- left. constructor; [exact Hd | exact Hall].
        -- right. exists d, (Returned op :: before), after.
           split_and!; [simpl; rewrite Hl; reflexivity | | exact Hdec].
           constructor; [exact Hd | exact Hrun].
    + right. exists (Thrown e), [], (a :: answers).
      split_and!; [reflexivity | constructor | auto].
Qed.

Lemma polled_decisive first answers d :
  polled first answers = Some d <-> first_decisive (first :: answers) d.
Proof.
  split; [|apply polled_first]. intros Hp.
  destruct (polled_cases first answers) as [Hall|(d' & Hd')].
  - apply polled_pending in Hall. congruence.
  - pose proof (polled_first first answers d' Hd') as Hp'.
    assert (d = d') as -> by congruence. exact Hd'.
Qed.

Lemma generateVideo_polled API_KEY first answers :
  Gemini.generateVideo API_KEY first answers
  = match polled first answers with
    | None => None
    | Some (Thrown e) => Some (Thrown e)
    | Some (Returned op) =>
      match Gemini.uri op with
      | Some (c :: t) => Some (Returned (Some ((c :: t) ++ js "&key=" ++ API_KEY)))
      | _ => Some (Returned None)
      end
    end.
Proof.
  unfold Gemini.generateVideo, Gemini.generateVideo_try, polled.
  destruct first as [op|e]; [|reflexivity].
  destruct (Gemini.poll op answers) as [[op'|e]|]; try reflexivity.
  destruct (Gemini.uri op') as [[|c t]|]; reflexivity.
Qed.

Lemma first_decisive_more l d more :
  first_decisive l d -> first_decisive (l ++ more) d.
Proof.
  intros (before & after & -> & Hrun & Hd). exists before, (after ++ more).
  split_and!; [rewrite <- app_assoc; reflexivity | exact Hrun | exact Hd].
Qed.

(** X16. Once [generateVideo] has settled, with a link, with null or
    with an error, nothing the service answers afterwards changes the
    outcome: the loop stops polling at the first operation that is done
    or the first call that fails. *)
Theorem generateVideo_settled API_KEY first answers more r :
  Gemini.generateVideo API_KEY first answers = Some r ->
  Gemini.generateVideo API_KEY first (answers ++ more) = Some r.
Proof.
  rewrite !generateVideo_polled. intros H.
  destruct (polled first answers) as [d|] eqn:Hp; [|discriminate].
  apply polled_decisive in Hp.
  apply (first_decisive_more _ _ more) in Hp.
  change ((first :: answers) ++ more) with (first :: (answers ++ more)) in Hp.
  apply polled_decisive in Hp. rewrite Hp. exact H.
Qed.

(** X17. The link [generateVideo] returns is the uri of the first
    operation that is done, every answer before it being an operation
    still running, with the key appended after [&key=]; and a link is
    returned exactly in that case, when the uri is there and not
    empty. *)
Theorem generateVideo_link API_KEY first answers link :
  Gemini.generateVideo API_KEY first answers = Some (Returned (Some link))
  <-> exists op base,
        first_decisive (first :: answers) (Returned op)
        /\ Gemini.uri op = Some base /\ base <> []
        /\ link = base ++ js "&key=" ++ API_KEY.
Proof.
  rewrite generateVideo_polled. split.
  - destruct (polled first answers) as [[op|e]|] eqn:Hp; try discriminate.
    apply polled_decisive in Hp.
    destruct (Gemini.uri op) as [[|c t]|] eqn:Hu; try discriminate.
    intros [= <-]. exists op, (c :: t). split_and!; auto; discriminate.
  - intros (op & base & Hd & Hu & Hne & ->).
    apply polled_decisive in Hd. rewrite Hd, Hu.
    destruct base; [contradiction | reflexivity].
Qed.

(** X18. [generateVideo] is still waiting exactly when every answer so
    far is an operation that is not done, and it throws exactly the
    error of the first failing call, provided no operation before it was
    done: an error is never swallowed and never invented. *)
Theorem generateVideo_waits_or_throws API_KEY first answers :
  (Gemini.generateVideo API_KEY first answers = None
   <-> Forall still_running (first :: answers))
  /\ (forall e, Gemini.generateVideo API_KEY first answers = Some (Thrown e)
                <-> first_decisive (first :: answers) (Thrown e)).
Proof.
  rewrite generateVideo_polled. split.
  - rewrite <- polled_pending.
    destruct (polled first answers) as [[op|e]|]; [|split; discriminate|tauto].
    destruct (Gemini.uri op) as [[|c t]|]; split; discriminate.
  - intros e. rewrite <- polled_decisive.
    destruct (polled first answers) as [[op|e']|].
    + destruct (Gemini.uri op) as [[|c t]|]; split; discriminate.
    + split; intros [= ->]; reflexivity.
    + split; discriminate.
Qed.

(** * The notification helpers *)

Module Notifications.

(** [Notification.permission] *)
Inductive Permission : Type := p_default | p_granted | p_denied.

(** The browser, as far as notifications go: whether [window] has a
    [Notification] at all, the permission it holds, how many times it
    has put the permission question to the user, and the notifications
    it has displayed, each with its title and body. *)
Record Browser : Type := {
  supported : bool;
  permission : Permission;
  prompts : nat;
  shown : list (jsstring * jsstring)
}.

Definition is_granted (p : Permission) : bool :=
  match p with p_granted => true | _ => false end.

(** [requestNotificationPermission]; [answer] is what
    [Notification.requestPermission()] resolves to, should it be
    called. *)
Definition requestNotificationPermission (answer : Permission) (b : Browser)
    : bool * Browser :=
  if negb (supported b) then (false, b)
  else
    match permission b with
    | p_granted => (true, b)
    | p_denied => (false, b)
    | p_default =>
      (is_granted answer,
       {| supported := supported b; permission := answer;
          prompts := S (prompts b); shown := shown b |})
    end.

(** Whether [requestNotificationPermission] would put the question. *)
Definition prompting (b : Browser) : bool :=
  supported b && match permission b with p_default => true | _ => false end.

(** [sendNotification]. Reading [Notification.permission] where there is
    no [Notification] throws a ReferenceError; [constructs] tells whether
    [new Notification] goes through, its exception being caught here. *)
Definition sendNotification (title body : jsstring) (constructs : bool)
    (b : Browser) : Outcome JsError Browser :=
  if negb (supported b)
  then Thrown (newError (js "Notification is not defined"))
  else
    match permission b with
    | p_granted =>
      if constructs
      then Returned {| supported := supported b; permission := permission b;
                       prompts := prompts b;
                       shown := shown b ++ [(title, body)] |}
      else Returned b
    | _ => Returned b
    end.

End Notifications.

(** * The generator view as a whole *)

Module GeneratorView.

Import Notifications.

Definition setPrompt (v : jsstring) (s : Generator.State) : Generator.State :=
  {| Generator.prompt := v; Generator.isGenerating := Generator.isGenerating s;
     Generator.videoUri := Generator.videoUri s; Generator.error := Generator.error s;
     Generator.hasKey := Generator.hasKey s;
     Generator.resolution := Generator.resolution s;
     Generator.aspectRatio := Generator.aspectRatio s |}.

Definition setIsGenerating (g : bool) (s : Generator.State) : Generator.State :=
  {| Generator.prompt := Generator.prompt s; Generator.isGenerating := g;
     Generator.videoUri := Generator.videoUri s; Generator.error := Generator.error s;
     Generator.hasKey := Generator.hasKey s;
     Generator.resolution := Generator.resolution s;
     Generator.aspectRatio := Generator.aspectRatio s |}.

Definition setVideoUri (u : option jsstring) (s : Generator.State) : Generator.State :=
  {| Generator.prompt := Generator.prompt s;
     Generator.isGenerating := Generator.isGenerating s;
     Generator.videoUri := u; Generator.error := Generator.error s;
     Generator.hasKey := Generator.hasKey s;
     Generator.resolution := Generator.resolution s;
     Generator.aspectRatio := Generator.aspectRatio s |}.

Definition setError (e : option jsstring) (s : Generator.State) : Generator.State :=
  {| Generator.prompt := Generator.prompt s;
     Generator.isGenerating := Generator.isGenerating s;
     Generator.videoUri := Generator.videoUri s; Generator.error := e;
     Generator.hasKey := Generator.hasKey s;
     Generator.resolution := Generator.resolution s;
     Generator.aspectRatio := Generator.aspectRatio s |}.

Definition setHasKey (k : bool) (s : Generator.State) : Generator.State :=
  {| Generator.prompt := Generator.prompt s;
     Generator.isGenerating := Generator.isGenerating s;
     Generator.videoUri := Generator.videoUri s; Generator.error := Generator.error s;
     Generator.hasKey := k;
     Generator.resolution := Generator.resolution s;
     Generator.aspectRatio := Generator.aspectRatio s |}.

Definition setResolution (r : jsstring) (s : Generator.State) : Generator.State :=
  {| Generator.prompt := Generator.prompt s;
     Generator.isGenerating := Generator.isGenerating s;
     Generator.videoUri := Generator.videoUri s; Generator.error := Generator.error s;
     Generator.hasKey := Generator.hasKey s;
     Generator.resolution := r;
     Generator.aspectRatio := Generator.aspectRatio s |}.

Definition setAspectRatio (a : jsstring) (s : Generator.State) : Generator.State :=
  {| Generator.prompt := Generator.prompt s;
     Generator.isGenerating := Generator.isGenerating s;
     Generator.videoUri := Generator.videoUri s; Generator.error := Generator.error s;
     Generator.hasKey := Generator.hasKey s;
     Generator.resolution := Generator.resolution s;
     Generator.aspectRatio := a |}.

(** The values of the [useState] calls. *)
Definition initial : Generator.State :=
  {| Generator.prompt := []; Generator.isGenerating := false;
     Generator.videoUri := None; Generator.error := None;
     Generator.hasKey := false; Generator.resolution := js "720p";
     Generator.aspectRatio := js "16:9" |}.

(** The two rows of setting buttons. *)
Definition resolutions : list jsstring := [js "720p"; js "1080p"].
Definition aspectRatios : list jsstring := [js "16:9"; js "9:16"].

(** The component with the browser and the calls it is waiting for:
    [checking], the [checkApiKey] of the mount effect awaits
    [hasSelectedApiKey]; [selecting], calls of [handleSelectKey] that
    await [openSelectKey]; [asking], calls of [handleGenerate] that await
    the answer to the permission question; [generating], calls of
    [handleGenerate] that await [generateVideo]. *)
Record Machine : Type := {
  view : Generator.State;
  browser : Browser;
  checking : bool;
  selecting : nat;
  asking : nat;
  generating : nat
}.

Definition setView (f : Generator.State -> Generator.State) (m : Machine) : Machine :=
  {| view := f (view m); browser := browser m; checking := checking m;
     selecting := selecting m; asking := asking m; generating := generating m |}.

(** [if (process.env.API_KEY)] *)
Definition truthy (o : option jsstring) : bool :=
  match o with Some (_ :: _) => true | _ => false end.

(** The early return of the render: the key screen. *)
Definition key_screen (s : Generator.State) : bool := negb (Generator.hasKey s).

(** [disabled={isGenerating || !prompt}] *)
Definition button_disabled (s : Generator.State) : bool :=
  Generator.isGenerating s
  || match Generator.prompt s with [] => true | _ :: _ => false end.

Definition notice_title : jsstring := js "¡Video Generado!".
Definition notice_body : jsstring := js "Tu video creado con IA está listo para ver.".

Section View.

(** Whether [window.aistudio] is there, and [process.env.API_KEY]. *)
Variable aistudio : bool.
Variable env_API_KEY : option jsstring.

(** [checkApiKey] up to its [await]. *)
Definition checkApiKey (m : Machine) : Machine :=
  if aistudio
  then {| view := view m; browser := browser m; checking := true;
          selecting := selecting m; asking := asking m;
          generating := generating m |}
  else if truthy env_API_KEY then setView (setHasKey true) m else m.

(** [hasSelectedApiKey] has resolved to [selected]. *)
Definition checkApiKey_resume (selected : bool) (m : Machine) : Machine :=
  if checking m
  then {| view := setHasKey selected (view m); browser := browser m;
          checking := false; selecting := selecting m; asking := asking m;
          generating := generating m |}
  else m.

(** [handleSelectKey] up to its [await]. *)
Definition handleSelectKey (m : Machine) : Machine :=
  if aistudio
  then {| view := view m; browser := browser m; checking := checking m;
          selecting := S (selecting m); asking := asking m;
          generating := generating m |}
  else m.

(** [openSelectKey] has resolved. *)
Definition handleSelectKey_resume (m : Machine) : Machine :=
  match selecting m with
  | 0 => m
  | S n =>
    {| view := setHasKey true (view m); browser := browser m;
       checking := checking m; selecting := n; asking := asking m;
       generating := generating m |}
  end.

(** [handleGenerate] from the three setters before the [try] up to the
    [await] of [generateVideo]. *)
Definition handleGenerate_resume (m : Machine) : Machine :=
  {| view := setVideoUri None (setError None (setIsGenerating true (view m)));
     browser := browser m; checking := checking m; selecting := selecting m;
     asking := asking m; generating := S (generating m) |}.

(** [handleGenerate] up to the [await] of the permission request: where
    the request puts no question it settles before any other event. *)
Definition handleGenerate (m : Machine) : Machine :=
  match trim (Generator.prompt (view m)) with
  | [] => m
  | _ :: _ =>
    if prompting (browser m)
    then {| view := view m; browser := browser m; checking := checking m;
            selecting := selecting m; asking := S (asking m);
            generating := generating m |}
    else handleGenerate_resume m
  end.

(** The permission question of a waiting call is answered. *)
Definition permissionSettled (answer : Permission) (m : Machine) : Machine :=
  match asking m with
  | 0 => m
  | S n =>
    handleGenerate_resume
      {| view := view m;
         browser := snd (requestNotificationPermission answer (browser m));
         checking := checking m; selecting := selecting m; asking := n;
         generating := generating m |}
  end.

(** The [catch] block of [handleGenerate]. *)
Definition catch (err : JsError) (s : Generator.State) : Generator.State :=
  let '(errorMessage, resetKey) := Generator.errorMessage err in
  setError (Some errorMessage) (if resetKey then setHasKey false s else s).

(** The rest of [handleGenerate], once [generateVideo] has settled. *)
Definition settle (generated : Outcome JsError (option jsstring))
    (constructs : bool) (s : Generator.State) (b : Browser)
    : Generator.State * Browser :=
  match generated with
  | Returned uri =>
    match sendNotification notice_title notice_body constructs b with
    | Returned b' => (setIsGenerating false (setVideoUri uri s), b')
    | Thrown err => (setIsGenerating false (catch err (setVideoUri uri s)), b)
    end
  | Thrown err => (setIsGenerating false (catch err s), b)
  end.

Definition videoSettled (generated : Outcome JsError (option jsstring))
    (constructs : bool) (m : Machine) : Machine :=
  match generating m with
  | 0 => m
  | S n =>
    let '(s, b) := settle generated constructs (view m) (browser m) in
    {| view := s; browser := b; checking := checking m;
       selecting := selecting m; asking := asking m; generating := n |}
  end.

Inductive Event : Type :=
| KeyChecked (selected : bool)
| SelectKeyClicked
| KeySelected
| PromptChanged (value : jsstring)
| ResolutionClicked (i : nat)
| AspectClicked (i : nat)
| GenerateClicked
| PermissionSettled (answer : Permission)
| VideoSettled (generated : Outcome JsError (option jsstring)) (constructs : bool).

(** What the screen offers decides which handlers can run, each state
    being rendered before the next event: the key screen has the key
    button only, the main screen has no key button, and a disabled
    button does not click. *)
Definition step (m : Machine) (e : Event) : Machine :=
  match e with
  | KeyChecked selected => checkApiKey_resume selected m
  | SelectKeyClicked => if key_screen (view m) then handleSelectKey m else m
  | KeySelected => handleSelectKey_resume m
  | PromptChanged value =>
    if key_screen (view m) then m else setView (setPrompt value) m
  | ResolutionClicked i =>
    if key_screen (view m) then m else
    match resolutions !! i with
    | Some res => setView (setResolution res) m
    | None => m
    end
  | AspectClicked i =>
    if key_screen (view m) then m else
    match aspectRatios !! i with
    | Some a => setView (setAspectRatio a) m
    | None => m
    end
  | GenerateClicked =>
    if key_screen (view m) || button_disabled (view m) then m
    else handleGenerate m
  | PermissionSettled answer => permissionSettled answer m
  | VideoSettled generated constructs => videoSettled generated constructs m
  end.

(** The component after its first render and the start of its effect. *)
Definition mount (b : Browser) : Machine :=
  checkApiKey {| view := initial; browser := b; checking := false;
                 selecting := 0; asking := 0; generating := 0 |}.

Definition run (m : Machine) (es : list Event) : Machine := fold_left step es m.

Inductive reachable (b : Browser) : Machine -> Prop :=
| reached_mount : reachable b (mount b)
| reached_step m e : reachable b m -> reachable b (step m e).

End View.

End GeneratorView.

(** ** Asking for the permission and notifying *)

(** X19. [requestNotificationPermission] returns true exactly when the
    browser has notifications and holds the granted permission
    afterwards; it leaves the browser alone unless the permission was
    still open; an answer that grants or denies is never asked for
    again; and the [sendNotification] that follows displays its
    notification exactly when the request returned true, while in a
    browser without notifications the request returns false and
    [sendNotification] throws. *)
Theorem ask_then_notify answer title body b :
  let asked := Notifications.requestNotificationPermission answer b in
  (fst asked = true
   <-> Notifications.supported (snd asked) = true
       /\ Notifications.permission (snd asked) = Notifications.p_granted)
  /\ (Notifications.prompting b = false -> snd asked = b)
  /\ (answer <> Notifications.p_default ->
      Notifications.prompting (snd asked) = false)
  /\ match Notifications.sendNotification title body true (snd asked) with
     | Returned b' =>
       Notifications.supported b = true
       /\ Notifications.shown b'
          = Notifications.shown b ++ (if fst asked then [(title, body)] else [])
     | Thrown _ => Notifications.supported b = false /\ fst asked = false
     end.
Proof.
  destruct b as [sup perm n l].
  unfold Notifications.requestNotificationPermission, Notifications.prompting,
    Notifications.sendNotification.
  destruct sup, perm, answer; cbn;
    rewrite ?app_nil_r; split_and!; try tauto; try congruence;
    try (split; [discriminate | intros [_ H]; discriminate]);
    try (split; [auto | reflexivity]).
Qed.

(** ** The key screen and the generations in flight *)

Section ViewProps.

Import GeneratorView.

Variable aistudio : bool.
Variable env_API_KEY : option jsstring.

Lemma catch_fields err s :
  Generator.prompt (catch err s) = Generator.prompt s
  /\ Generator.isGenerating (catch err s) = Generator.isGenerating s
  /\ Generator.videoUri (catch err s) = Generator.videoUri s
  /\ (exists msg, Generator.error (catch err s) = Some msg)
  /\ (Generator.hasKey (catch err s) = true -> Generator.hasKey s = true).
Proof.
  unfold catch. destruct (Generator.errorMessage err) as [msg [|]]; simpl;
    split_and!; eauto. discriminate.
Qed.

Lemma errorMessage_no_notification :
  Generator.errorMessage (newError (js "Notification is not defined"))
  = (Generator.msg_generic, false).
Proof. vm_compute; reflexivity. Qed.

(** The two-phase reading of [handleGenerate] gives the state
    [Generator.handleGenerate] gives. *)
Lemma settle_handleGenerate generated constructs m :
  trim (Generator.prompt (view m)) <> [] ->
  fst (settle generated constructs (view (handleGenerate_resume m)) (browser m))
  = Generator.handleGenerate (Notifications.supported (browser m))
      (Some generated) (view m).
Proof.
  intros Hp. unfold Generator.handleGenerate.
  destruct (trim (Generator.prompt (view m))) as [|c t]; [contradiction|].
  destruct generated as [uri|err].
  - unfold settle, Notifications.sendNotification, Generator.sendNotification.
    change (browser (handleGenerate_resume m)) with (browser m).
    destruct (Notifications.supported (browser m)); cbn [negb].
    + destruct (Notifications.permission (browser m)), constructs; reflexivity.
    + unfold catch. rewrite errorMessage_no_notification. reflexivity.
  - unfold settle, catch.
    destruct (Generator.errorMessage err) as [msg [|]]; reflexivity.
Qed.

(** Without [window.aistudio] nothing ever awaits a key. *)
Definition no_key_calls (m : Machine) : Prop :=
  checking m = false /\ selecting m = 0.

Lemma settle_hasKey generated constructs s b :
  Generator.hasKey (fst (settle generated constructs s b)) = true ->
  Generator.hasKey s = true.
Proof.
  unfold settle. destruct generated as [uri|err].
  - destruct (Notifications.sendNotification _ _ _ _) as [b'|err]; simpl; [auto|].
    intros H. apply catch_fields in H. exact H.
  - simpl. intros H. apply catch_fields in H. exact H.
Qed.

Lemma step_no_key_calls m e :
  no_key_calls m -> no_key_calls (step false m e).
Proof.
  intros [Hc Hs]. unfold no_key_calls.
  destruct e; simpl.
  - unfold checkApiKey_resume. rewrite Hc. auto.
  - destruct (key_screen (view m)); auto.
  - unfold handleSelectKey_resume. rewrite Hs. auto.
  - destruct (key_screen (view m)); auto.
  - destruct (key_screen (view m)); [auto|]. destruct (resolutions !! i); auto.
  - destruct (key_screen (view m)); [auto|]. destruct (aspectRatios !! i); auto.
  - destruct (key_screen (view m) || button_disabled (view m)); [auto|].
    unfold handleGenerate. destruct (trim _); [auto|].
    destruct (Notifications.prompting _); auto.
  - unfold permissionSettled. destruct (asking m); auto.
  - unfold videoSettled. destruct (generating m); [auto|].
    destruct (settle _ _ _ _); auto.
Qed.

Lemma mount_no_key_calls key b : no_key_calls (mount false key b).
Proof. unfold mount, checkApiKey. destruct (truthy key); split; reflexivity. Qed.

Lemma reachable_no_key_calls key b m :
  reachable false key b m -> no_key_calls m.
Proof.
  induction 1; [apply mount_no_key_calls | apply step_no_key_calls; assumption].
Qed.

Lemma step_key_screen m e :
  no_key_calls m -> Generator.hasKey (view m) = false ->
  Generator.hasKey (view (step false m e)) = false
  /\ asking (step false m e) + generating (step false m e)
     <= asking m + generating m.
Proof.
  intros [Hc Hs] Hk.
  assert (key_screen (view m) = true) as Hscreen by (unfold key_screen; rewrite Hk; auto).
  destruct e; simpl; rewrite ?Hscreen; simpl; auto.
  - unfold checkApiKey_resume. rewrite Hc. auto.
  - unfold handleSelectKey_resume. rewrite Hs. auto.
  - unfold permissionSettled.
    destruct (asking m) as [|n] eqn:Ha; [split; [exact Hk | simpl; lia]|].
    unfold handleGenerate_resume. simpl. split; [exact Hk | lia].
  - unfold videoSettled.
    destruct (generating m) as [|n] eqn:Hg; [split; [exact Hk | simpl; lia]|].
    destruct (settle generated constructs (view m) (browser m)) as [s b] eqn:Hset.
    simpl. split; [|lia].
    destruct (Generator.hasKey s) eqn:Hs'; [|reflexivity].
    pose proof (settle_hasKey generated constructs (view m) (browser m)) as H.
    rewrite Hset in H. simpl in H. rewrite (H Hs') in Hk. discriminate.
Qed.

Lemma run_key_screen es m :
  no_key_calls m -> Generator.hasKey (view m) = false ->
  Generator.hasKey (view (run false m es)) = false
  /\ asking (run false m es) + generating (run false m es)
     <= asking m + generating m.
Proof.
  revert m. induction es as [|e es IH]; intros m Hn Hk; [auto|].
  simpl. destruct (step_key_screen m e Hn Hk) as [Hk' Hle].
  destruct (IH (step false m e) (step_no_key_calls m e Hn) Hk') as [H1 H2].
  split; [exact H1 | lia].
Qed.

Lemma reachable_unusable key b m :
  truthy key = false -> reachable false key b m ->
  m = {| view := initial; browser := b; checking := false; selecting := 0;
         asking := 0; generating := 0 |}.
Proof.
  intros Hkey. induction 1 as [|m e _ IH].
  - unfold mount, checkApiKey. rewrite Hkey. reflexivity.
  - rewrite IH. destruct e; try reflexivity.
Qed.

(** X20. Where the page has no [window.aistudio], the key screen is
    final: once it shows, no event brings the generator back, the key
    button included, and no call of [generateVideo] is started from
    then on. Where there is no API key in the environment either, the
    component never leaves the state it mounts in. *)
Theorem key_screen_is_final b m :
  reachable false env_API_KEY b m ->
  (truthy env_API_KEY = false ->
   view m = initial /\ asking m = 0 /\ generating m = 0)
  /\ (forall es,
        Generator.hasKey (view m) = false ->
        Generator.hasKey (view (run false m es)) = false
        /\ asking (run false m es)
           + generating (run false m es)
           <= asking m + generating m).
Proof.
  intros Hreach. split.
  - intros Hkey. rewrite (reachable_unusable env_API_KEY b m Hkey Hreach).
    repeat split.
  - intros es Hk. apply run_key_screen; [|exact Hk].
    eapply reachable_no_key_calls, Hreach.
Qed.

(** The browser puts no question, and at most one call awaits
    [generateVideo], the button showing it. *)
Definition single_flight (b : Notifications.Browser) (m : Machine) : Prop :=
  Notifications.supported (browser m) = Notifications.supported b
  /\ Notifications.permission (browser m) = Notifications.permission b
  /\ Notifications.prompts (browser m) = Notifications.prompts b
  /\ asking m = 0
  /\ ((generating m = 0 /\ Generator.isGenerating (view m) = false
       /\ (Generator.error (view m) <> None ->
           Generator.videoUri (view m) <> None ->
           Notifications.supported b = false))
      \/ (generating m = 1 /\ Generator.isGenerating (view m) = true
          /\ Generator.error (view m) = None
          /\ Generator.videoUri (view m) = None)).

Lemma single_flight_view b m f :
  (forall s, Generator.isGenerating (f s) = Generator.isGenerating s
             /\ Generator.error (f s) = Generator.error s
             /\ Generator.videoUri (f s) = Generator.videoUri s) ->
  single_flight b m -> single_flight b (setView f m).
Proof.
  intros Hf (H1 & H2 & H3 & H4 & H5). unfold single_flight. simpl.
  destruct (Hf (view m)) as (-> & -> & ->). auto.
Qed.

Lemma prompting_same b b' :
  Notifications.supported b' = Notifications.supported b ->
  Notifications.permission b' = Notifications.permission b ->
  Notifications.prompting b' = Notifications.prompting b.
Proof. unfold Notifications.prompting. intros -> ->. reflexivity. Qed.

Lemma settle_fields generated constructs s b :
  let r := settle generated constructs s b in
  Notifications.supported (snd r) = Notifications.supported b
  /\ Notifications.permission (snd r) = Notifications.permission b
  /\ Notifications.prompts (snd r) = Notifications.prompts b
  /\ Generator.isGenerating (fst r) = false
  /\ (Generator.error s = None -> Generator.videoUri s = None ->
      Generator.error (fst r) <> None -> Generator.videoUri (fst r) <> None ->
      Notifications.supported b = false).
Proof.
  destruct generated as [uri|err]; unfold settle.
  - unfold Notifications.sendNotification.
    destruct (Notifications.supported b) eqn:Hb; cbn [negb].
    + assert (forall b', Notifications.supported b' = true ->
                Notifications.permission b' = Notifications.permission b ->
                Notifications.prompts b' = Notifications.prompts b ->
                let r := (setIsGenerating false (setVideoUri uri s), b') in
                Notifications.supported (snd r) = true
                /\ Notifications.permission (snd r) = Notifications.permission b
                /\ Notifications.prompts (snd r) = Notifications.prompts b
                /\ Generator.isGenerating (fst r) = false
                /\ (Generator.error s = None -> Generator.videoUri s = None ->
                    Generator.error (fst r) <> None ->
                    Generator.videoUri (fst r) <> None -> true = false)) as Hok.
      { intros b' H1 H2 H3. simpl. split_and!; auto.
        intros He _ Hne. contradiction. }
      destruct (Notifications.permission b) eqn:Hp; [| destruct constructs |];
        apply Hok; auto.
    + simpl. split_and!; auto.
  - simpl. destruct (catch_fields err s) as (_ & _ & Hv & _ & _).
    split_and!; auto. intros _ Hvid _ Hne. rewrite Hv in Hne. contradiction.
Qed.

Lemma step_single_flight b m e :
  Notifications.prompting b = false ->
  single_flight b m -> single_flight b (step aistudio m e).
Proof.
  intros Hquiet HS. pose proof HS as (Hsup & Hperm & Hpr & Hask & Hgen).
  destruct e; simpl.
  - unfold checkApiKey_resume. destruct (checking m); [|exact HS].
    unfold single_flight. simpl. auto.
  - destruct (key_screen (view m)); [|exact HS].
    unfold handleSelectKey. destruct aistudio; [|exact HS].
    unfold single_flight. simpl. auto.
  - unfold handleSelectKey_resume. destruct (selecting m); [exact HS|].
    unfold single_flight. simpl. auto.
  - destruct (key_screen (view m)); [exact HS|].
    apply single_flight_view; [|exact HS]. intros s. repeat split.
  - destruct (key_screen (view m)); [exact HS|].
    destruct (resolutions !! i); [|exact HS].
    apply single_flight_view; [|exact HS]. intros s. repeat split.
  - destruct (key_screen (view m)); [exact HS|].
    destruct (aspectRatios !! i); [|exact HS].
    apply single_flight_view; [|exact HS]. intros s. repeat split.
  - destruct (key_screen (view m) || button_disabled (view m)) eqn:Hguard;
      [exact HS|].
    apply orb_false_iff in Hguard as [_ Hdis]. unfold button_disabled in Hdis.
    apply orb_false_iff in Hdis as [Hidle _].
    unfold handleGenerate. destruct (trim _); [exact HS|].
    rewrite (prompting_same b (browser m) Hsup Hperm), Hquiet.
    destruct Hgen as [(Hg & _)|(_ & Hbusy & _)]; [|congruence].
    unfold single_flight, handleGenerate_resume. simpl. rewrite Hg.
    split_and!; auto.
  - unfold permissionSettled. rewrite Hask. exact HS.
  - unfold videoSettled. destruct Hgen as [(Hg & _)|(Hg & Hbusy & Herr & Hvid)];
      rewrite Hg; [exact HS|].
    pose proof (settle_fields generated constructs (view m) (browser m)) as Hset.
    destruct (settle generated constructs (view m) (browser m)) as [s' b'].
    simpl in Hset. destruct Hset as (H1 & H2 & H3 & H4 & H5).
    unfold single_flight. simpl.
    split_and!; [congruence | congruence | congruence | exact Hask |].
    left. split_and!; [reflexivity | exact H4 |].
    intros He Hv. rewrite <- Hsup. apply H5; assumption.
Qed.

Lemma mount_single_flight b : single_flight b (mount aistudio env_API_KEY b).
Proof.
  unfold mount, checkApiKey.
  destruct aistudio; [|destruct (truthy env_API_KEY)];
    unfold single_flight; simpl; split_and!; auto; left; split_and!; auto;
    intros H; destruct H; reflexivity.
Qed.

(** X21. In a browser that puts no permission question (the permission
    is granted or denied already, or there are no notifications), at
    most one call of [generateVideo] is in flight, the button showing
    the spinner exactly while it is; nothing of an earlier attempt is on
    screen while it runs; and an error is shown together with a video
    only where the browser has no notifications. *)
Theorem one_generation_at_a_time b m :
  Notifications.prompting b = false ->
  reachable aistudio env_API_KEY b m ->
  asking m = 0 /\ generating m <= 1
  /\ (Generator.isGenerating (view m) = true <-> generating m = 1)
  /\ (Generator.isGenerating (view m) = true ->
      Generator.error (view m) = None /\ Generator.videoUri (view m) = None)
  /\ (Generator.error (view m) <> None -> Generator.videoUri (view m) <> None ->
      Notifications.supported b = false)
  /\ Notifications.prompts (browser m) = Notifications.prompts b.
Proof.
  intros Hquiet Hreach.
  assert (single_flight b m) as (_ & _ & Hpr & Hask & Hgen).
  { induction Hreach; [apply mount_single_flight|].
    apply step_single_flight; assumption. }
  destruct Hgen as [(Hg & Hidle & Hboth)|(Hg & Hbusy & Herr & Hvid)].
  - rewrite Hg, Hidle. split; [exact Hask|]. split; [lia|].
    split; [split; intros H; discriminate H|].
    split; [intros H; discriminate H|]. split; [exact Hboth | exact Hpr].
  - rewrite Hg, Hbusy, Herr, Hvid. split; [exact Hask|]. split; [lia|].
    split; [split; reflexivity|]. split; [split; reflexivity|].
    split; [|exact Hpr]. intros H. destruct H. reflexivity.
Qed.

End ViewProps.

(** * The application shell: themes and their menu *)

Module App.

Record ThemeConfig : Type := {
  id : jsstring;
  name : jsstring;
  primary : jsstring;
  secondary : jsstring;
  bgGradient : jsstring;
  accentGlow : jsstring
}.

Definition neon : ThemeConfig := {|
  id := js "neon"; name := js "Neon Cyber"; primary := js "cyan";
  secondary := js "blue"; bgGradient := js "from-cyan-400 to-blue-600";
  accentGlow := js "#06b6d4" |}.

Definition sunset : ThemeConfig := {|
  id := js "sunset"; name := js "Sunset Drive"; primary := js "fuchsia";
  secondary := js "orange"; bgGradient := js "from-fuchsia-500 to-orange-500";
  accentGlow := js "#d946ef" |}.

Definition forest : ThemeConfig := {|
  id := js "forest"; name := js "Forest Rain"; primary := js "emerald";
  secondary := js "lime"; bgGradient := js "from-emerald-400 to-lime-600";
  accentGlow := js "#10b981" |}.

Definition royal : ThemeConfig := {|
  id := js "royal"; name := js "Royal Velvet"; primary := js "violet";
  secondary := js "rose"; bgGradient := js "from-violet-500 to-rose-500";
  accentGlow := js "#8b5cf6" |}.

Definition ocean : ThemeConfig := {|
  id := js "ocean"; name := js "Ocean Deep"; primary := js "blue";
  secondary := js "teal"; bgGradient := js "from-blue-500 to-teal-400";
  accentGlow := js "#3b82f6" |}.

Definition cosmic : ThemeConfig := {|
  id := js "cosmic"; name := js "Cosmic Dust"; primary := js "purple";
  secondary := js "pink"; bgGradient := js "from-purple-500 to-pink-500";
  accentGlow := js "#a855f7" |}.

Definition themes : list ThemeConfig :=
  [neon; sunset; forest; royal; ocean; cosmic].

Record State : Type := {
  currentTheme : ThemeConfig;
  showMenu : bool
}.

(** [useState(themes[0])] and [useState(false)] *)
Definition init : State := {| currentTheme := neon; showMenu := false |}.

(** The [onClick] of the logo. *)
Definition toggleMenu (s : State) : State :=
  {| currentTheme := currentTheme s; showMenu := negb (showMenu s) |}.

(** The [onClick] of a menu entry. *)
Definition selectTheme (theme : ThemeConfig) (s : State) : State :=
  {| currentTheme := theme; showMenu := false |}.

(** [handleClickOutside]; [inside] tells whether the header holds the
    target of the event. *)
Definition handleClickOutside (inside : bool) (s : State) : State :=
  if negb inside then {| currentTheme := currentTheme s; showMenu := false |}
  else s.


Inductive Event : Type :=
| LogoClicked
| EntryClicked (i : nat)
| MouseDown (inside : bool).

(** The entries are there only while the menu shows. *)
Definition step (s : State) (e : Event) : State :=
  match e with
  | LogoClicked => toggleMenu s
  | EntryClicked i =>
    if showMenu s then
      match themes !! i with
      | Some theme => selectTheme theme s
      | None => s
      end
    else s
  | MouseDown inside => handleClickOutside inside s
  end.

Inductive reachable : State -> Prop :=
| reached_init : reachable init
| reached_next s e : reachable s -> reachable (step s e).

End App.





(** ** The progress bar and the interval behind it *)








Section Progress.

Variable randomUUID : nat -> jsstring.
Variable JSON_parse : jsstring -> option AnalysisResult.
Hypothesis randomUUID_inj : forall m n, randomUUID m = randomUUID n -> m = n.




(** X24. An item that has been removed never comes back: whatever
    happens afterwards, analyses that settle late, timeouts of the
    download-all button or intervals that still run for it included, no
    item of the queue carries its id again. *)
Theorem removed_item_never_returns s i es :
  reachable randomUUID JSON_parse s -> i ∈ queue s ->
  Forall valid_event es ->
  Forall (fun j => id j <> id i)
         (queue (run randomUUID JSON_parse (removeItem (id i) s) es)).
Proof.
  intros Hreach Hi Hes. apply Forall_forall. intros j Hj Hid.
  destruct (reachable_ids_inv randomUUID JSON_parse randomUUID_inj s Hreach)
    as [_ Hissued].
  assert (reachable randomUUID JSON_parse (removeItem (id i) s)) as Hreach'
    by (apply (reachable_step randomUUID JSON_parse s (RemoveItem (id i)) Hreach); exact I).
  destruct (removeItem_spec (id i) s) as (Hq & _ & _ & _ & Hu).
  apply (run_closed randomUUID JSON_parse randomUUID_inj (fun _ => False) (id i) es
           (removeItem (id i) s)) with (j := j); auto.
  - intros a b [].
  - rewrite Hu. apply Hissued, list_elem_of_fmap. eauto.
  - intros j0. rewrite Hq. intros [Hne _]%list_elem_of_filter Heq. contradiction.
Qed.

End Progress.


(** What happens after an item is removed with its timeout pending: the
    timeout fires, the permission settles, the interval ticks, and a new
    link is analysed. *)
Definition events_pending : list Event := events_ready ++ [DownloadAll].

Definition events_after_removal : list Event :=
  [TimeoutFires 0; PermissionSettled 0 1000 1001 (js "0.5");
   Tick 1 (99 # 100) (1 # 2); InputChange (js "https://vimeo.com/1");
   AnalyzeBatch].

Lemma removed_item_never_returns_witness :
  Forall (fun j => id j <> id (demo_head events_ready))
    (queue (run demo_uuid demo_parse
              (removeItem (id (demo_head events_ready)) (demo_run events_pending))
              events_after_removal)).
Proof.
  apply (removed_item_never_returns demo_uuid demo_parse demo_uuid_inj
           (demo_run events_pending) (demo_head events_ready) events_after_removal).
  - apply reachable_demo. apply Forall_app.
    split; [apply valid_ready | repeat constructor].
  - replace (queue (demo_run events_pending)) with [demo_head events_ready]
      by (vm_compute; reflexivity).
    apply list_elem_of_here.
  - repeat constructor; try apply unit_interval_99; try apply unit_interval_half.
Defined.

(** An operation that is not done, then one that is, then a failure. *)
Definition demo_operation_running : Gemini.Operation :=
  {| Gemini.done := false; Gemini.uri := None |}.
Definition demo_operation_done : Gemini.Operation :=
  {| Gemini.done := true; Gemini.uri := Some (js "https://v/1?alt=media") |}.

Lemma generateVideo_settled_witness :
  Gemini.generateVideo (js "k") (Returned demo_operation_running)
    ([Returned demo_operation_done] ++ [Thrown Falsy])
  = Some (Returned (Some (js "https://v/1?alt=media&key=k"))).
Proof.
  apply (generateVideo_settled (js "k") (Returned demo_operation_running)
           [Returned demo_operation_done] [Thrown Falsy]).
  vm_compute; reflexivity.
Defined.

Lemma view_reachable_run aistudio key b m es :
  GeneratorView.reachable aistudio key b m ->
  GeneratorView.reachable aistudio key b (GeneratorView.run aistudio m es).
Proof.
  revert m. induction es as [|e es IH]; intros m Hm; [exact Hm|].
  simpl. apply IH. apply GeneratorView.reached_step, Hm.
Qed.

(** A browser that has granted notifications, and one that has not been
    asked yet. *)
Definition demo_browser : Notifications.Browser :=
  {| Notifications.supported := true;
     Notifications.permission := Notifications.p_granted;
     Notifications.prompts := 0; Notifications.shown := [] |}.

(** Outside AI Studio with a key in the environment: a generation fails
    with status 404. *)
Definition demo_key_lost : GeneratorView.Machine :=
  GeneratorView.run false
    (GeneratorView.mount false (Some (js "k")) demo_browser)
    [GeneratorView.PromptChanged (js "un gato");
     GeneratorView.GenerateClicked;
     GeneratorView.VideoSettled (Thrown (GeneratorProps.with_status 404)) true].

Definition demo_key_retry : list GeneratorView.Event :=
  [GeneratorView.SelectKeyClicked; GeneratorView.KeySelected;
   GeneratorView.KeyChecked true; GeneratorView.GenerateClicked].

Lemma key_screen_is_final_witness :
  Generator.hasKey (GeneratorView.view
                      (GeneratorView.run false demo_key_lost demo_key_retry)) = false
  /\ GeneratorView.asking (GeneratorView.run false demo_key_lost demo_key_retry)
     + GeneratorView.generating (GeneratorView.run false demo_key_lost demo_key_retry)
     <= GeneratorView.asking demo_key_lost + GeneratorView.generating demo_key_lost.
Proof.
  apply (key_screen_is_final (Some (js "k")) demo_browser demo_key_lost).
  - apply view_reachable_run, GeneratorView.reached_mount.
  - vm_compute; reflexivity.
Defined.

(** In AI Studio, a key selected: a generation is running. *)
Definition demo_generating : GeneratorView.Machine :=
  GeneratorView.run true
    (GeneratorView.mount true None demo_browser)
    [GeneratorView.KeyChecked true; GeneratorView.PromptChanged (js "un gato");
     GeneratorView.GenerateClicked; GeneratorView.GenerateClicked].

Lemma one_generation_at_a_time_witness :
  GeneratorView.asking demo_generating = 0
  /\ GeneratorView.generating demo_generating <= 1
  /\ (Generator.isGenerating (GeneratorView.view demo_generating) = true
      <-> GeneratorView.generating demo_generating = 1)
  /\ (Generator.isGenerating (GeneratorView.view demo_generating) = true ->
      Generator.error (GeneratorView.view demo_generating) = None
      /\ Generator.videoUri (GeneratorView.view demo_generating) = None)
  /\ (Generator.error (GeneratorView.view demo_generating) <> None ->
      Generator.videoUri (GeneratorView.view demo_generating) <> None ->
      Notifications.supported demo_browser = false)
  /\ Notifications.prompts (GeneratorView.browser demo_generating)
     = Notifications.prompts demo_browser.
Proof.
  apply (one_generation_at_a_time true None demo_browser demo_generating).
  - reflexivity.
  - apply view_reachable_run, GeneratorView.reached_mount.
Defined.
